(** * Porta-Scope: audio capture, playback and signal generation scripts

    A shallow embedding of the Python scripts under [wav_plugin/]:
    - [audio_example.py]   ([SineWaveGenerator]: [set_amplitude] and the
                            stream [callback]),
    - [plotter_example.py] ([SineWaveData.generate],
                            [generate_multiple_frequencies], [animate]),
    - [jack_play.py]       ([JackWavPlayer], the playback callback, the
                            ports and the command loop of [main]),
    - [jack_record.py]     ([JackAudioSink], the capture callback, the
                            hand-off queue, the writer thread, the ports
                            and the command loop of [main]).

    Python integers are [Z]; sample values (finite float32 numbers, which
    the recorder and the player only copy and zero-fill) are rationals [Q];
    one-dimensional numpy arrays are lists; exceptions are an error monad;
    text sent to [print] is returned as a list of lines ([print] itself
    is taken to succeed, but for the one call inside the [try] block of
    [start_recording], where a failure changes what is returned).  The
    recorder's three threads (the audio server's callback, the writer, the command
    loop) are interleaved one atomic stretch at a time. *)

From Stdlib Require Import String ZArith QArith List Bool Lia Arith.
Import ListNotations.

Local Open Scope Z_scope.

(** ** Python runtime: exceptions and results *)

(** The exceptions that occur; [IOError] stands for whatever the
    operating system or the sound-file library raises when the disk
    refuses an operation. *)
Inductive exn : Type :=
| TypeError
| ValueError
| IndexError
| OverflowError
| RuntimeError
| IOError.

Inductive result (A : Type) : Type :=
| Return (a : A)
| Raise (e : exn).

Arguments Return {A} a.
Arguments Raise {A} e.

Definition bind {A B : Type} (m : result A) (k : A -> result B) : result B :=
  match m with
  | Return a => k a
  | Raise e => Raise e
  end.

Notation "x <- m ;; k" := (bind m (fun x => k))
  (at level 61, m at next level, right associativity).

Notation "' p <- m ;; k" := (bind m (fun x => match x with p => k end))
  (at level 61, p pattern, m at next level, right associativity).

Definition raises {A : Type} (m : result A) : Prop :=
  exists e, m = Raise e.

Fixpoint mapM {A B : Type} (f : A -> result B) (l : list A) : result (list B) :=
  match l with
  | [] => Return []
  | a :: l' => b <- f a ;; bs <- mapM f l' ;; Return (b :: bs)
  end.

(** The clipping Python applies to a slice bound [i] on an axis of length
    [len]: negative bounds count from the end, and everything is clamped
    to [0 .. len]. *)
Definition clip (i : Z) (len : nat) : nat :=
  if i <? 0 then Z.to_nat (Z.max 0 (Z.of_nat len + i))
  else Nat.min (Z.to_nat i) len.

(** An integer index (not a slice bound) on an axis of length [len]:
    negative indices count from the end, out-of-range ones raise. *)
Definition py_index (i : Z) (len : nat) : result nat :=
  if (0 <=? i) && (i <? Z.of_nat len) then Return (Z.to_nat i)
  else if (i <? 0) && (- Z.of_nat len <=? i) then Return (Z.to_nat (Z.of_nat len + i))
  else Raise IndexError.

Definition sample : Type := Q.

(** ** audio_example.py *)

Module AudioExample.

(** The builtins [min(x, y)] and [max(x, y)]: the first argument is
    kept unless the second compares strictly smaller (resp. greater). *)
Definition Qlt_bool (x y : Q) : bool := negb (Qle_bool y x).

Definition py_min (x y : Q) : Q := if Qlt_bool y x then y else x.
Definition py_max (x y : Q) : Q := if Qlt_bool x y then y else x.

Record SineWaveGenerator : Type := {
  frequency : Q;
  sample_rate : Z;
  amplitude : Q;
  is_playing : bool;
  phase : Z
}.

(** [__init__(self, frequency=440, sample_rate=44100, amplitude=0.3)] *)
Definition init (frequency : Q) (sample_rate : Z) (amplitude : Q)
  : SineWaveGenerator :=
  {| frequency := frequency; sample_rate := sample_rate;
     amplitude := amplitude; is_playing := false; phase := 0 |}.

Definition set_frequency (self : SineWaveGenerator) (f : Q) : SineWaveGenerator :=
  {| frequency := f; sample_rate := sample_rate self;
     amplitude := amplitude self; is_playing := is_playing self;
     phase := phase self |}.

(** [self.amplitude = max(0, min(1, amplitude))] *)
Definition set_amplitude (self : SineWaveGenerator) (a : Q) : SineWaveGenerator :=
  {| frequency := frequency self; sample_rate := sample_rate self;
     amplitude := py_max 0 (py_min 1 a); is_playing := is_playing self;
     phase := phase self |}.

End AudioExample.

(** ** plotter_example.py *)

Module PlotterExample.

Section WithNumpy.

(** Floating-point numbers and the numpy operations on them are taken
    as given; [py_int] is the builtin [int], which truncates and
    raises on [nan] and on infinities. *)
Variable float : Type.
Variables fadd fmul fdiv : float -> float -> float.
Variable of_Z : Z -> float.
Variable np_sin : float -> float.
Variable np_pi : float.
Variable py_int : float -> result Z.

Record SineWaveData : Type := { sample_rate : float }.

(** [np.arange(n)]: the integers [0 .. n-1], empty when [n <= 0]. *)
Definition np_arange (n : Z) : list float :=
  map (fun i => of_Z (Z.of_nat i)) (seq 0 (Z.to_nat n)).

(** [np.zeros(n)]: raises [ValueError] on a negative dimension. *)
Definition np_zeros (n : Z) : result (list float) :=
  if n <? 0 then Raise ValueError
  else Return (repeat (of_Z 0) (Z.to_nat n)).

(** [generate(self, frequency, amplitude=1, duration=1, phase=0)] *)
Definition generate (self : SineWaveData)
    (frequency amplitude duration phase : float) : result (list float) :=
  num_samples <- py_int (fmul (sample_rate self) duration) ;;
  let t := map (fun x => fdiv x (sample_rate self)) (np_arange num_samples) in
  Return (map (fun ti =>
            fmul amplitude
              (np_sin (fadd (fmul (fmul (fmul (of_Z 2) np_pi) frequency) ti) phase)))
            t).

(** [zip(frequencies, amplitudes)]: both arguments are turned into
    iterators when [zip] is called, so [None] raises [TypeError]
    there, whatever the other argument. *)
Definition py_zip {A B : Type} (xs : list A) (ys : option (list B))
  : result (list (A * B)) :=
  match ys with
  | None => Raise TypeError
  | Some ys => Return (combine xs ys)
  end.

(** [result += x] on one-dimensional arrays: [x] must have the length
    of [result], or length one (it is then broadcast). *)
Definition iadd (res x : list float) : result (list float) :=
  if (length x =? length res)%nat then
    Return (map (fun p => fadd (fst p) (snd p)) (combine res x))
  else
    match x with
    | [x0] => Return (map (fun r => fadd r x0) res)
    | _ => Raise ValueError
    end.

Fixpoint accumulate (self : SineWaveData) (duration : float)
    (pairs : list (float * float)) (res : list float) : result (list float) :=
  match pairs with
  | [] => Return res
  | (freq, amp) :: rest =>
      wave <- generate self freq amp duration (of_Z 0) ;;
      res' <- iadd res wave ;;
      accumulate self duration rest res'
  end.

(** [generate_multiple_frequencies(self, frequencies, amplitudes=None,
    duration=1)].  The default branch binds the local name [aplitudes],
    which nothing reads; [amplitudes] itself is left as it was. *)
Definition generate_multiple_frequencies (self : SineWaveData)
    (frequencies : list float) (amplitudes : option (list float))
    (duration : float) : result (list float) :=
  let aplitudes :=
    match amplitudes with
    | None => Some (repeat (of_Z 1) (length frequencies))
    | Some _ => None
    end in
  n <- py_int (fmul (sample_rate self) duration) ;;
  res <- np_zeros n ;;
  pairs <- py_zip frequencies amplitudes ;;
  accumulate self duration pairs res.

(** What the call would compute had the default branch assigned
    [amplitudes]: unit amplitudes, one per frequency. *)
Definition with_unit_amplitudes (self : SineWaveData)
    (frequencies : list float) (duration : float) : result (list float) :=
  generate_multiple_frequencies self frequencies
    (Some (repeat (of_Z 1) (length frequencies))) duration.

End WithNumpy.

Arguments sample_rate {float} _.
Arguments Build_SineWaveData {float} _.

(** A concrete instance of the numeric interface over the rationals,
    used to evaluate the definitions: exact arithmetic, truncating
    [int], and the cubic Taylor polynomial in place of the sine. *)
Definition q_int (x : Q) : result Z := Return (Z.quot (Qnum x) (Zpos (Qden x))).
Definition q_sin (x : Q) : Q := (x - x * x * x / 6)%Q.
Definition q_pi : Q := (355 # 113)%Q.

Definition q_generate_multiple_frequencies :=
  generate_multiple_frequencies Q Qplus Qmult Qdiv inject_Z q_sin q_pi q_int.

End PlotterExample.

(** ** jack_play.py *)

Module JackPlay.

(** A two-dimensional numpy array of shape [(shape0, shape1)]: frames
    along the first axis, channels along the second. *)
Record ndarray2 : Type := {
  shape0 : nat;
  shape1 : nat;
  item : nat -> nat -> sample
}.

(** What [sf.read] hands back: a one-dimensional array for a mono
    file, a two-dimensional one otherwise. *)
Inductive wav_data : Type :=
| Mono (samples : list sample)
| Multi (a : ndarray2).

(** [a.reshape(-1, 1)] *)
Definition reshape_column (l : list sample) : ndarray2 :=
  {| shape0 := length l; shape1 := 1; item := fun i _ => nth i l 0%Q |}.

(** The rows of a list-of-rows literal as an array with [ncols] columns. *)
Definition of_rows (ncols : nat) (rows : list (list sample)) : ndarray2 :=
  {| shape0 := length rows; shape1 := ncols;
     item := fun i c => nth c (nth i rows []) 0%Q |}.

Record JackWavPlayer : Type := {
  audio_data : ndarray2;
  sample_rate : Z;
  channels : nat;
  position : Z;
  playing : bool;
  output_ports : nat            (* the ports out_1 .. out_n *)
}.

Definition set_position (self : JackWavPlayer) (p : Z) : JackWavPlayer :=
  {| audio_data := audio_data self; sample_rate := sample_rate self;
     channels := channels self; position := p; playing := playing self;
     output_ports := output_ports self |}.

Definition set_playing (self : JackWavPlayer) (b : bool) : JackWavPlayer :=
  {| audio_data := audio_data self; sample_rate := sample_rate self;
     channels := channels self; position := position self; playing := b;
     output_ports := output_ports self |}.

(** [len(self.audio_data)] *)
Definition len (self : JackWavPlayer) : Z := Z.of_nat (shape0 (audio_data self)).

(** [__init__] after a successful [load_wav]: a mono file becomes a
    one-column array, and one output port is registered per channel. *)
Definition init (data : wav_data) (rate : Z) : JackWavPlayer :=
  match data with
  | Mono l =>
      {| audio_data := reshape_column l; sample_rate := rate; channels := 1;
         position := 0; playing := false; output_ports := 1 |}
  | Multi a =>
      {| audio_data := a; sample_rate := rate; channels := shape1 a;
         position := 0; playing := false; output_ports := shape1 a |}
  end.

(** [port.get_array()]: the port's buffer for the current cycle,
    [frames] samples long, holding whatever [mem] had there. *)
Definition get_array (mem : nat -> nat -> sample) (port frames : nat) : list sample :=
  map (mem port) (seq 0 frames).

(** [buf.fill(0)] *)
Definition fill_zero (buf : list sample) : list sample :=
  repeat 0%Q (length buf).

(** [buf[k:].fill(0)] *)
Definition fill_zero_from (k : Z) (buf : list sample) : list sample :=
  let n := clip k (length buf) in
  firstn n buf ++ repeat 0%Q (length buf - n).

(** [buf[:k] = src]: [src] must be as long as the target slice, or of
    length one (it is then broadcast); otherwise numpy raises. *)
Definition assign_prefix (k : Z) (src buf : list sample) : result (list sample) :=
  let n := clip k (length buf) in
  if (length src =? n)%nat then Return (src ++ skipn n buf)
  else
    match src with
    | [x] => Return (repeat x n ++ skipn n buf)
    | _ => Raise ValueError
    end.

(** [a[start:stop, ch]] *)
Definition column_slice (a : ndarray2) (start stop ch : Z) : result (list sample) :=
  c <- py_index ch (shape1 a) ;;
  let lo := clip start (shape0 a) in
  let hi := clip stop (shape0 a) in
  Return (map (fun i => item a i c) (seq lo (hi - lo))).

(** The body of the loop over the output ports, for port number [ch]. *)
Definition write_port (self : JackWavPlayer) (frames : nat) (frames_to_play : Z)
    (ch : nat) (output_buffer : list sample) : result (list sample) :=
  if 0 <? frames_to_play then
    src <- (if (ch <? channels self)%nat then
              column_slice (audio_data self) (position self)
                (position self + frames_to_play) (Z.of_nat ch)
            else
              column_slice (audio_data self) (position self)
                (position self + frames_to_play) (-1)) ;;
    buf <- assign_prefix frames_to_play src output_buffer ;;
    if frames_to_play <? Z.of_nat frames then
      Return (fill_zero_from frames_to_play buf)
    else Return buf
  else Return (fill_zero output_buffer).

Definition finished_line : string := "Playback finished".

(** What a cycle of [frames] frames is to leave on port [ch] of a
    playing player: the next frames of the channel, then zeros. *)
Definition port_contents (self : JackWavPlayer) (frames ch : nat) : list sample :=
  let k := Z.to_nat (Z.min (Z.of_nat frames) (len self - position self)) in
  map (fun i => item (audio_data self) i ch) (seq (Z.to_nat (position self)) k)
  ++ repeat 0%Q (frames - k).

(** [process_callback(self, frames)]: the new player, the contents of
    the output ports, and the lines printed. *)
Definition process_callback (self : JackWavPlayer) (frames : nat)
    (mem : nat -> nat -> sample)
  : result (JackWavPlayer * list (list sample) * list string) :=
  if negb (playing self) then
    Return (self,
            map (fun p => fill_zero (get_array mem p frames))
                (seq 0 (output_ports self)),
            [])
  else
    let frames_available := len self - position self in
    let frames_to_play := Z.min (Z.of_nat frames) frames_available in
    bufs <- mapM (fun ch => write_port self frames frames_to_play ch
                              (get_array mem ch frames))
                 (seq 0 (output_ports self)) ;;
    let self' := set_position self (position self + frames_to_play) in
    if len self' <=? position self' then
      Return (set_playing self' false, bufs, [finished_line])
    else Return (self', bufs, []).

Definition shutdown_callback (self : JackWavPlayer) : JackWavPlayer * list string :=
  (set_playing self false, ["JACK shutdown"%string]).

Definition play (self : JackWavPlayer) : JackWavPlayer * list string :=
  (set_playing (set_position self 0) true, ["Starting playback..."%string]).

Definition stop (self : JackWavPlayer) : JackWavPlayer * list string :=
  (set_playing self false, ["Stopping playback..."%string]).

Definition pause (self : JackWavPlayer) : JackWavPlayer * list string :=
  (set_playing self false, ["Pausing playback..."%string]).

Definition resume (self : JackWavPlayer) : JackWavPlayer * list string :=
  (set_playing self true, ["Resuming playback..."%string]).

(** [is_playing(self)] *)
Definition is_playing (self : JackWavPlayer) : bool :=
  playing self && (position self <? len self).

(** What can happen to a player: the audio server runs a cycle, or the
    command loop (or the server's shutdown hook) calls a method. *)
Inductive event : Type :=
| Callback (frames : nat) (mem : nat -> nat -> sample)
| Play | Stop | Pause | Resume | Shutdown.

(** What one event produces: port contents (for a cycle) and printed lines. *)
Definition output : Type := (list (list sample) * list string)%type.

Definition step (e : event) (self : JackWavPlayer) : result (JackWavPlayer * output) :=
  match e with
  | Callback frames mem =>
      '(self', bufs, lines) <- process_callback self frames mem ;;
      Return (self', (bufs, lines))
  | Play => let '(s, l) := play self in Return (s, ([], l))
  | Stop => let '(s, l) := stop self in Return (s, ([], l))
  | Pause => let '(s, l) := pause self in Return (s, ([], l))
  | Resume => let '(s, l) := resume self in Return (s, ([], l))
  | Shutdown => let '(s, l) := shutdown_callback self in Return (s, ([], l))
  end.

Fixpoint run (evs : list event) (self : JackWavPlayer)
  : result (JackWavPlayer * list output) :=
  match evs with
  | [] => Return (self, [])
  | e :: evs' =>
      '(self', o) <- step e self ;;
      '(self'', os) <- run evs' self' ;;
      Return (self'', o :: os)
  end.

(** How often the end of playback was reported. *)
Definition finished_count (os : list output) : nat :=
  count_occ string_dec (List.concat (map snd os)) finished_line.

(** [frames] zero samples on each of [ports] ports. *)
Definition silence (ports frames : nat) : list (list sample) :=
  repeat (repeat 0%Q frames) ports.

(** How often playback was switched on, by [play] or [resume]. *)
Definition activations (evs : list event) : nat :=
  length (filter (fun e => match e with
                           | Play | Resume => true
                           | _ => false
                           end) evs).

(** One for a player that is playing, zero otherwise. *)
Definition on_air (self : JackWavPlayer) : nat := if playing self then 1 else 0.

(** The frame count of a cycle; commands request nothing. *)
Definition frames_of (e : event) : nat :=
  match e with
  | Callback frames _ => frames
  | _ => 0%nat
  end.

Definition is_callback (e : event) : bool :=
  match e with
  | Callback _ _ => true
  | _ => false
  end.


(** The outputs of cycles that find the player not playing. *)
Definition quiet (ports : nat) (cycles : list event) : list output :=
  map (fun e => (silence ports (frames_of e), @nil string)) cycles.

(** What [__init__] sets up and every method keeps: one port per
    channel of the array, and a cursor inside the source. *)
Definition well_formed (self : JackWavPlayer) : Prop :=
  channels self = shape1 (audio_data self) /\
  output_ports self = channels self /\
  0 <= position self <= len self.


(** A stereo source of three frames, and stale port memory. *)
Definition demo_source : wav_data :=
  Multi (of_rows 2 [[1#2; -1#2]; [1#4; -1#4]; [1#8; -1#8]]%Q).

Definition stale : nat -> nat -> sample := fun _ _ => (7#1)%Q.

(** The player of [demo_source] after it has played to the end. *)
Definition played_out : JackWavPlayer :=
  match run [Play; Callback 2 stale; Callback 2 stale] (init demo_source 44100) with
  | Return (self, _) => self
  | Raise _ => init demo_source 44100
  end.

End JackPlay.

(** ** jack_record.py *)

Module JackRecord.

(** One block of captured audio as it travels through the queue: a
    one-dimensional array for a mono client, otherwise a
    two-dimensional one with a column per input port. *)
Inductive block : Type :=
| Frames1 (samples : list sample)
| Frames2 (rows : list (list sample)).

(** [np.column_stack(arrays)] on one-dimensional arrays: needs at least
    one array, and all of the same length. *)
Definition column_stack (arrays : list (list sample)) : result block :=
  match arrays with
  | [] => Raise ValueError
  | a :: rest =>
      if forallb (fun a' => (length a' =? length a)%nat) rest then
        Return (Frames2 (map (fun i => map (fun col => nth i col 0%Q) arrays)
                             (seq 0 (length a))))
      else Raise ValueError
  end.

(** *** The hand-off queue, [queue.Queue(maxsize=100)] *)

Definition maxsize : nat := 100.

Definition queue : Type := list block.

Definition queue_empty (q : queue) : bool :=
  match q with
  | [] => true
  | _ :: _ => false
  end.

Definition queue_full (q : queue) : bool := (maxsize <=? length q)%nat.

(** [put(item, block)] either enqueues, raises [queue.Full], or (only
    when asked to block) waits for a free slot. *)
Inductive put_outcome : Type :=
| PutDone (q : queue)
| PutFull
| PutWaits.

Definition queue_put (q : queue) (item : block) (blocking : bool) : put_outcome :=
  if queue_full q then (if blocking then PutWaits else PutFull)
  else PutDone (q ++ [item]).

(** [get(timeout=...)] and [get_nowait()]: the oldest item, or
    [queue.Empty] (here [None]) when there is none. *)
Definition queue_get (q : queue) : option (block * queue) :=
  match q with
  | [] => None
  | item :: q' => Some (item, q')
  end.

(** *** The output file, [sf.SoundFile(filename, mode='w', ...)] *)

Record SoundFile : Type := {
  name : string;
  samplerate : Z;
  file_channels : Z;
  frames : list block;          (* what has been written, in order *)
  closed : bool
}.

Definition sf_open (filename : string) (rate chans : Z) : SoundFile :=
  {| name := filename; samplerate := rate; file_channels := chans;
     frames := []; closed := false |}.

(** [f.write(data)]: fails on a closed file, and whenever the disk
    does ([io_ok = false]); otherwise the block is appended. *)
Definition sf_write (f : SoundFile) (data : block) (io_ok : bool) : result SoundFile :=
  if closed f then Raise RuntimeError
  else if io_ok then
    Return {| name := name f; samplerate := samplerate f;
              file_channels := file_channels f;
              frames := frames f ++ [data]; closed := false |}
  else Raise IOError.

Definition sf_close (f : SoundFile) : SoundFile :=
  {| name := name f; samplerate := samplerate f;
     file_channels := file_channels f; frames := frames f; closed := true |}.

(** *** The recorder object *)

Record JackAudioSink : Type := {
  channels : Z;
  sample_rate : Z;
  input_ports : nat;               (* how many ports were registered *)
  audio_queue : queue;
  is_recording : bool;
  output_file : option SoundFile;
  write_thread : option nat;       (* the Thread object, by thread number *)
  should_stop : bool               (* the threading.Event *)
}.

Definition set_audio_queue (self : JackAudioSink) (q : queue) : JackAudioSink :=
  {| channels := channels self; sample_rate := sample_rate self;
     input_ports := input_ports self; audio_queue := q;
     is_recording := is_recording self; output_file := output_file self;
     write_thread := write_thread self; should_stop := should_stop self |}.

Definition set_is_recording (self : JackAudioSink) (b : bool) : JackAudioSink :=
  {| channels := channels self; sample_rate := sample_rate self;
     input_ports := input_ports self; audio_queue := audio_queue self;
     is_recording := b; output_file := output_file self;
     write_thread := write_thread self; should_stop := should_stop self |}.

Definition set_output_file (self : JackAudioSink) (f : option SoundFile) : JackAudioSink :=
  {| channels := channels self; sample_rate := sample_rate self;
     input_ports := input_ports self; audio_queue := audio_queue self;
     is_recording := is_recording self; output_file := f;
     write_thread := write_thread self; should_stop := should_stop self |}.

Definition set_write_thread (self : JackAudioSink) (t : option nat) : JackAudioSink :=
  {| channels := channels self; sample_rate := sample_rate self;
     input_ports := input_ports self; audio_queue := audio_queue self;
     is_recording := is_recording self; output_file := output_file self;
     write_thread := t; should_stop := should_stop self |}.

Definition set_should_stop (self : JackAudioSink) (b : bool) : JackAudioSink :=
  {| channels := channels self; sample_rate := sample_rate self;
     input_ports := input_ports self; audio_queue := audio_queue self;
     is_recording := is_recording self; output_file := output_file self;
     write_thread := write_thread self; should_stop := b |}.

(** [__init__(self, client_name, channels=2, auto_connect=True)] with
    the server's sample rate. *)
Definition init (chans rate : Z) : JackAudioSink :=
  {| channels := chans; sample_rate := rate; input_ports := Z.to_nat chans;
     audio_queue := []; is_recording := false; output_file := None;
     write_thread := None; should_stop := false |}.

(** *** What a run lets one observe *)

Inductive event : Type :=
| Pushed (data : block)          (* the queue accepted a block *)
| Popped (data : block)          (* the writer took a block off the queue *)
| Wrote (data : block)           (* the block was appended to the file *)
| Printed (line : string).

Definition describe (e : exn) : string :=
  match e with
  | TypeError => "TypeError"
  | ValueError => "ValueError"
  | IndexError => "IndexError"
  | OverflowError => "OverflowError"
  | RuntimeError => "RuntimeError"
  | IOError => "IOError"
  end.

Definition full_warning : string := "Warning: Audio buffer full, dropping frames".

(** *** process_callback *)

(** The first half of the callback: the flag test and the read of the
    input ports ([inputs] holds one array per registered port). *)
Inductive callback_progress : Type :=
| CbReturn (evs : list event)    (* the callback is over *)
| CbPut (audio_data : block).    (* about to put a copy on the queue *)

Definition read_ports (self : JackAudioSink) (inputs : list (list sample)) : result block :=
  if channels self =? 1 then
    match inputs with
    | [] => Raise IndexError
    | a :: _ => Return (Frames1 a)
    end
  else column_stack inputs.

Definition callback_read (self : JackAudioSink) (inputs : list (list sample))
  : callback_progress :=
  if negb (is_recording self) then CbReturn []
  else
    match read_ports self inputs with
    | Return audio_data => CbPut audio_data
    | Raise e => CbReturn [Printed ("Error in process callback: " ++ describe e)]
    end.

(** A call either comes back or is left waiting. *)
Inductive outcome (A : Type) : Type :=
| Done (a : A)
| Blocked.

Arguments Done {A} a.
Arguments Blocked {A}.

(** The second half: [self.audio_queue.put(audio_data.copy(),
    block=False)] and the handler for [queue.Full]. *)
Definition callback_put (self : JackAudioSink) (audio_data : block)
  : outcome (JackAudioSink * list event) :=
  match queue_put (audio_queue self) audio_data false with
  | PutDone q => Done (set_audio_queue self q, [Pushed audio_data])
  | PutFull => Done (self, [Printed full_warning])
  | PutWaits => Blocked
  end.

(** [process_callback(self, frames)], run without interruption. *)
Definition process_callback (self : JackAudioSink) (inputs : list (list sample))
  : outcome (JackAudioSink * list event) :=
  match callback_read self inputs with
  | CbReturn evs => Done (self, evs)
  | CbPut audio_data => callback_put self audio_data
  end.

(** *** Threads *)

(** Where a writer thread stands inside [write_worker]. *)
Inductive worker : Type :=
| WTest                          (* at the [while] condition *)
| WGet                           (* about to call [get(timeout=0.1)] *)
| WWrite (audio_data : block)    (* holding a block, about to write it *)
| WDone.                         (* [write_worker] has returned *)

(** Where the command thread stands: between commands, or inside
    [stop_recording]: at the join, before the close, or between the
    close and the [finally] that forgets the file. *)
Inductive commander : Type :=
| MCommand
| MJoin
| MClose
| MRelease.

(** Where the audio server's thread stands: outside the callback, or
    inside it just before the [put]. *)
Inductive realtime : Type :=
| RIdle
| RPut (audio_data : block).

Record World : Type := {
  sink : JackAudioSink;
  threads : list worker;           (* every writer thread started so far *)
  main : commander;
  rt : realtime;
  saved : list SoundFile           (* files the recorder has let go of *)
}.

Definition set_sink (w : World) (s : JackAudioSink) : World :=
  {| sink := s; threads := threads w; main := main w; rt := rt w; saved := saved w |}.

Definition set_threads (w : World) (ts : list worker) : World :=
  {| sink := sink w; threads := ts; main := main w; rt := rt w; saved := saved w |}.

Definition set_main (w : World) (m : commander) : World :=
  {| sink := sink w; threads := threads w; main := m; rt := rt w; saved := saved w |}.

Definition set_rt (w : World) (r : realtime) : World :=
  {| sink := sink w; threads := threads w; main := main w; rt := r; saved := saved w |}.

Definition set_saved (w : World) (fs : list SoundFile) : World :=
  {| sink := sink w; threads := threads w; main := main w; rt := rt w; saved := fs |}.

Definition boot (chans rate : Z) : World :=
  {| sink := init chans rate; threads := []; main := MCommand; rt := RIdle;
     saved := [] |}.

Fixpoint update {A : Type} (l : list A) (n : nat) (a : A) : list A :=
  match l, n with
  | [], _ => []
  | _ :: l', O => a :: l'
  | x :: l', S n' => x :: update l' n' a
  end.

Definition worker_done (t : worker) : bool :=
  match t with
  | WDone => true
  | _ => false
  end.

(** [thread.is_alive()] *)
Definition is_alive (w : World) (tid : nat) : bool :=
  match nth_error (threads w) tid with
  | Some t => negb (worker_done t)
  | None => false
  end.

(** *** start_recording *)

(** What the operating system answers during [start_recording]:
    whether the directory can be made, the file opened, the thread
    started, and the line that announces the recording printed (it
    holds the file name, which the terminal may be unable to show). *)
Record start_env : Type := {
  timestamp : string;              (* [now().strftime("%Y%m%d_%H%M%S")] *)
  makedirs_ok : bool;
  open_ok : bool;
  thread_ok : bool;
  announce_ok : bool
}.

Definition default_filename (env : start_env) : string :=
  "recording_" ++ timestamp env ++ ".wav".

(** The loop that discards old data: as long as the queue is not
    empty, [get_nowait()] takes its head. *)
Fixpoint clear_queue (q : queue) : queue :=
  match q with
  | [] => []
  | _ :: q' => clear_queue q'
  end.

(** The line the handler of [start_recording] prints. *)
Definition start_failure (e : exn) : string :=
  "Failed to start recording: " ++ describe e.

(** [start_recording(self, filename=None)]: the new state, what was
    printed, and the returned flag.  [os.makedirs] stands outside the
    [try], so its failure is raised to the caller.  Inside the [try],
    an exception ends the block where it is raised, with what was
    assigned before left as it is: the open can fail, then (with the
    file opened, the queue emptied, the event cleared and the [Thread]
    object assigned) the start of the thread, then (with the thread
    running and the flag set) the print; the handler prints its line
    and returns [False].  A [Thread] that was never started is not
    alive: it has the number of no thread in [threads]. *)
Definition start_recording (w : World) (filename : option string) (env : start_env)
  : result (World * list event * bool) :=
  let self := sink w in
  if is_recording self then
    Return (w, [Printed "Already recording!"], false)
  else
    let filename :=
      match filename with
      | Some f => f
      | None => default_filename env
      end in
    if negb (makedirs_ok env) then Raise IOError
    else if negb (open_ok env) then
      Return (w, [Printed (start_failure IOError)], false)
    else
      let self := set_output_file self
                    (Some (sf_open filename (sample_rate self) (channels self))) in
      let self := set_audio_queue self (clear_queue (audio_queue self)) in
      let self := set_should_stop self false in
      let tid := length (threads w) in
      let self := set_write_thread self (Some tid) in
      if negb (thread_ok env) then
        Return (set_sink w self, [Printed (start_failure RuntimeError)], false)
      else
        let self := set_is_recording self true in
        let w' := set_threads (set_sink w self) (threads w ++ [WTest]) in
        if announce_ok env then
          Return (w', [Printed ("Started recording to: " ++ filename)], true)
        else Return (w', [Printed (start_failure IOError)], false).

(** *** stop_recording, in the stretches between which other threads
    get to run *)

(** Up to the join: the two flags are set; the join is entered only
    for a thread that is still alive. *)
Definition stop_begin (w : World) : World * list event :=
  let self := sink w in
  if negb (is_recording self) then (w, [])
  else
    let waits :=
      match write_thread self with
      | Some tid => is_alive w tid
      | None => false
      end in
    (set_main (set_sink w (set_should_stop (set_is_recording self false) true))
              (if waits then MJoin else MClose),
     [Printed "Stopping recording..."]).

(** [join(timeout=5.0)] comes back: the thread has finished, or five
    seconds have passed. *)
Definition stop_join (w : World) : World := set_main w MClose.

(** The close of the output file, with the line it prints. *)
Definition stop_close (w : World) (close_ok : bool) : World * list event :=
  match output_file (sink w) with
  | Some f =>
      (set_main
         (set_sink w (set_output_file (sink w)
                        (Some (if close_ok then sf_close f else f))))
         MRelease,
       [Printed (if close_ok then "Recording saved: " ++ name f
                 else "Error closing file: " ++ describe IOError)])
  | None => (set_main w MCommand, [])
  end.

(** [self.output_file = None] in the [finally]: the recorder lets go of
    the file, which stays behind on disk. *)
Definition stop_release (w : World) : World :=
  match output_file (sink w) with
  | Some f =>
      set_main (set_saved (set_sink w (set_output_file (sink w) None))
                          (saved w ++ [f]))
               MCommand
  | None => set_main w MCommand
  end.

(** *** write_worker, one step at a time *)

Definition worker_step (self : JackAudioSink) (pc : worker) (io_ok : bool)
  : option (JackAudioSink * worker * list event) :=
  match pc with
  | WTest =>
      if negb (should_stop self) || negb (queue_empty (audio_queue self)) then
        Some (self, WGet, [])
      else Some (self, WDone, [])
  | WGet =>
      match queue_get (audio_queue self) with
      | Some (audio_data, q) =>
          Some (set_audio_queue self q, WWrite audio_data, [Popped audio_data])
      | None => Some (self, WTest, [])               (* queue.Empty: continue *)
      end
  | WWrite audio_data =>
      match output_file self with
      | Some f =>
          match sf_write f audio_data io_ok with
          | Return f' => Some (set_output_file self (Some f'), WTest, [Wrote audio_data])
          | Raise e =>
              Some (self, WDone,
                    [Printed ("Error writing audio: " ++ describe e)])  (* break *)
          end
      | None => Some (self, WTest, [])
      end
  | WDone => None
  end.

(** *** The threads together *)

(** One label per atomic stretch of one thread, with what the
    environment contributes to it. *)
Inductive label : Type :=
| CallbackBegin (inputs : list (list sample))
| CallbackPut
| Work (tid : nat) (io_ok : bool)
| StartRecording (filename : option string) (env : start_env)
| StopRecording
| Joined
| JoinTimeout
| CloseFile (close_ok : bool)
| ReleaseFile.

Definition at_command (w : World) : bool :=
  match main w with
  | MCommand => true
  | _ => false
  end.

Definition at_join (w : World) : bool :=
  match main w with
  | MJoin => true
  | _ => false
  end.

Definition thread_alive (w : World) : bool :=
  match write_thread (sink w) with
  | Some tid => is_alive w tid
  | None => false
  end.

(** [step l w] is [None] when thread and label do not fit the state. *)
Definition step (l : label) (w : World) : option (World * list event) :=
  match l with
  | CallbackBegin inputs =>
      match rt w with
      | RIdle =>
          match callback_read (sink w) inputs with
          | CbReturn evs => Some (w, evs)
          | CbPut audio_data => Some (set_rt w (RPut audio_data), [])
          end
      | RPut _ => None
      end
  | CallbackPut =>
      match rt w with
      | RPut audio_data =>
          match callback_put (sink w) audio_data with
          | Done (self, evs) => Some (set_rt (set_sink w self) RIdle, evs)
          | Blocked => None
          end
      | RIdle => None
      end
  | Work tid io_ok =>
      match nth_error (threads w) tid with
      | Some pc =>
          match worker_step (sink w) pc io_ok with
          | Some (self, pc', evs) =>
              Some (set_threads (set_sink w self) (update (threads w) tid pc'), evs)
          | None => None
          end
      | None => None
      end
  | StartRecording filename env =>
      if at_command w then
        match start_recording w filename env with
        | Return (w', evs, _) => Some (w', evs)
        | Raise _ => None
        end
      else None
  | StopRecording =>
      if at_command w then Some (stop_begin w) else None
  | Joined =>
      if at_join w && negb (thread_alive w) then Some (stop_join w, []) else None
  | JoinTimeout =>
      if at_join w && thread_alive w then Some (stop_join w, []) else None
  | CloseFile close_ok =>
      match main w with
      | MClose => Some (stop_close w close_ok)
      | _ => None
      end
  | ReleaseFile =>
      match main w with
      | MRelease => Some (stop_release w, [])
      | _ => None
      end
  end.

Fixpoint run (ls : list label) (w : World) : option (World * list event) :=
  match ls with
  | [] => Some (w, [])
  | l :: ls' =>
      match step l w with
      | Some (w', evs) =>
          match run ls' w' with
          | Some (w'', evs') => Some (w'', evs ++ evs')
          | None => None
          end
      | None => None
      end
  end.

(** *** Reading a trace *)

Fixpoint pushes (evs : list event) : list block :=
  match evs with
  | [] => []
  | Pushed b :: evs' => b :: pushes evs'
  | _ :: evs' => pushes evs'
  end.

Fixpoint pops (evs : list event) : list block :=
  match evs with
  | [] => []
  | Popped b :: evs' => b :: pops evs'
  | _ :: evs' => pops evs'
  end.

Fixpoint writes (evs : list event) : list block :=
  match evs with
  | [] => []
  | Wrote b :: evs' => b :: writes evs'
  | _ :: evs' => writes evs'
  end.

Fixpoint prints (evs : list event) : list string :=
  match evs with
  | [] => []
  | Printed s :: evs' => s :: prints evs'
  | _ :: evs' => prints evs'
  end.

(** *** Kinds of runs *)

Definition is_start (l : label) : bool :=
  match l with
  | StartRecording _ _ => true
  | _ => false
  end.

Definition is_timeout (l : label) : bool :=
  match l with
  | JoinTimeout => true
  | _ => false
  end.

(** A step in which the disk refuses a write. *)
Definition is_io_failure (l : label) : bool :=
  match l with
  | Work _ false => true
  | _ => false
  end.

(** Nothing is being recorded, the command thread is between commands,
    and every writer thread started so far has returned.  The last is
    not something [start_recording] looks at: a writer that a timed-out
    join has left behind can still be running when the next session
    starts. *)
Definition idle (w : World) : bool :=
  negb (is_recording (sink w)) && forallb worker_done (threads w) && at_command w.

(** A capture session: a call of [start_recording] sets a recorder
    that was not recording to record (it returns [True]; or [False],
    when only the line that announces the recording failed), and [ls]
    runs until (at most) the next [start_recording]. *)
Definition session (w0 : World) (filename : option string) (env : start_env)
    (ls : list label) (w : World) (evs : list event) : Prop :=
  exists w1 evs1 started,
    start_recording w0 filename env = Return (w1, evs1, started) /\
    is_recording (sink w0) = false /\
    is_recording (sink w1) = true /\
    forallb (fun l => negb (is_start l)) ls = true /\
    run ls w1 = Some (w, evs).

(** The writer thread of the session that is under way. *)
Definition writer (w : World) : option worker :=
  match write_thread (sink w) with
  | Some tid => nth_error (threads w) tid
  | None => None
  end.

(** The block a writer holds between its pop and its write. *)
Definition hand (pc : option worker) : list block :=
  match pc with
  | Some (WWrite b) => [b]
  | _ => []
  end.

Definition in_hand (w : World) : list block := hand (writer w).

(** The file of the session: the one the recorder holds, or, once it
    has let go of it, the last one saved. *)
Definition session_file (w : World) : option SoundFile :=
  match output_file (sink w) with
  | Some f => Some f
  | None => last (map Some (saved w)) None
  end.

(** What the session's file contains. *)
Definition recorded (w : World) : list block :=
  match session_file w with
  | Some f => frames f
  | None => []
  end.

(** The recorder's writer is thread [tid], and no other thread is
    running: what a session has that started with the earlier writers
    gone. *)
Definition one_writer (tid : nat) (w : World) : Prop :=
  write_thread (sink w) = Some tid /\
  (exists pc, nth_error (threads w) tid = Some pc) /\
  (forall t pc, t <> tid -> nth_error (threads w) t = Some pc -> pc = WDone).

(** What holds as long as no write has failed and no join has timed
    out: a running writer has its file open, the file is closed only
    after the writer has returned, the writer runs until asked to stop,
    and while the recording goes on nobody has asked, the command
    thread being between commands. *)
Definition orderly (w : World) : Prop :=
  (thread_alive w = true ->
   exists f, output_file (sink w) = Some f /\ closed f = false) /\
  (main w = MClose \/ main w = MRelease -> thread_alive w = false) /\
  (should_stop (sink w) = false -> thread_alive w = true) /\
  (is_recording (sink w) = true ->
   should_stop (sink w) = false /\ main w = MCommand).

(** A bound on the steps a writer that has been asked to stop still
    takes, by where it stands and how many blocks are queued. *)
Definition steps_left (pc : worker) (queued : nat) : nat :=
  match pc, queued with
  | WTest, O => 1
  | WTest, S _ => 3 * queued + 2
  | WGet, O => 2
  | WGet, S _ => 3 * queued + 1
  | WWrite _, _ => 3 * queued + 3
  | WDone, _ => 0
  end.

Definition steps_left_of (w : World) : nat :=
  match writer w with
  | Some pc => steps_left pc (length (audio_queue (sink w)))
  | None => 0
  end.

(** What a fatal error is to leave behind: no writer running, not
    recording, and no file held open. *)
Definition torn_down (w : World) : Prop :=
  thread_alive w = false /\
  is_recording (sink w) = false /\
  (forall f, output_file (sink w) = Some f -> closed f = true).

(** The writer can write no more: it has returned, or the recorder
    has let go of the file. *)
Definition stuck (w : World) : Prop :=
  thread_alive w = false \/ output_file (sink w) = None.

(** The labels of a run in which no write fails and no join times out. *)
Definition undisturbed (l : label) : bool :=
  negb (is_start l) && negb (is_timeout l) && negb (is_io_failure l).

(** *** Concrete data *)

Definition blk (n : Z) : block := Frames2 [[inject_Z n; inject_Z (- n)]].

Definition stereo_in (n : Z) : list (list sample) := [[inject_Z n]; [inject_Z (- n)]].

Definition env_ok : start_env :=
  {| timestamp := "20240101_120000"; makedirs_ok := true; open_ok := true;
     thread_ok := true; announce_ok := true |}.


Definition env_no_thread : start_env :=
  {| timestamp := "20240101_120000"; makedirs_ok := true; open_ok := true;
     thread_ok := false; announce_ok := true |}.

Definition env_no_line : start_env :=
  {| timestamp := "20240101_120000"; makedirs_ok := true; open_ok := true;
     thread_ok := true; announce_ok := false |}.

(** A stereo recorder that has just started recording to [take.wav]. *)
Definition recording_world : World :=
  match start_recording (boot 2 48000) (Some "take.wav"%string) env_ok with
  | Return (w, _, _) => w
  | Raise _ => boot 2 48000
  end.

(** The same recorder once its writer holds a first block, pushed by
    one callback and popped, and is about to write it. *)
Definition failing_world : World :=
  match run [CallbackBegin (stereo_in 1); CallbackPut; Work 0 true; Work 0 true]
            recording_world with
  | Some (w, _) => w
  | None => recording_world
  end.

(** A session in which two callbacks push a block each and the writer
    writes the first and pops the second. *)
Definition two_blocks : list label :=
  [CallbackBegin (stereo_in 1); CallbackPut;
   CallbackBegin (stereo_in 2); CallbackPut;
   Work 0 true; Work 0 true; Work 0 true; Work 0 true; Work 0 true].

Definition outcome_of (ls : list label) (w : World) : World * list event :=
  match run ls w with
  | Some p => p
  | None => (w, [])
  end.

(** A session in which two blocks are pushed and the writer has popped
    the first, which it is about to write. *)
Definition one_in_hand : list label :=
  [CallbackBegin (stereo_in 1); CallbackPut;
   CallbackBegin (stereo_in 2); CallbackPut;
   Work 0 true; Work 0 true].

(** After [stop_recording] is called: the writer drains the queue and
    returns, the join comes back, the file is closed. *)
Definition clean_stop : list label :=
  [Work 0 true; Work 0 true; Work 0 true; Work 0 true; Work 0 true;
   Joined; CloseFile true; ReleaseFile].

(** After [stop_recording] is called: the write in progress takes more
    than the five seconds of the join, so the file is closed and let go
    of before the writer gets to the block still queued. *)
Definition late_stop : list label :=
  [JoinTimeout; Work 0 true; CloseFile true; ReleaseFile;
   Work 0 true; Work 0 true; Work 0 true; Work 0 true].

(** A recorder whose first session was stopped while its writer held
    a block: the join timed out, the file was closed and let go of, and
    the writer is still running, the block in its hand. *)
Definition stale_world : World :=
  fst (outcome_of [CallbackBegin (stereo_in 1); CallbackPut;
                   Work 0 true; Work 0 true;
                   StopRecording; JoinTimeout; CloseFile true; ReleaseFile]
                  recording_world).

(** A second session with that writer (thread 0) still about: it
    writes its old block into the new file, takes the first of two new
    blocks, and writes it after the new writer (thread 1) has written
    the second. *)
Definition two_writers : list label :=
  [Work 0 true;
   CallbackBegin (stereo_in 2); CallbackPut;
   CallbackBegin (stereo_in 3); CallbackPut;
   Work 0 true; Work 0 true;
   Work 1 true; Work 1 true; Work 1 true;
   Work 0 true].

(** A second session with that writer still about, up to the call of
    [stop_recording]: the old writer writes its old block and goes back
    to the queue, and a callback pushes a block. *)
Definition stale_start : list label :=
  [Work 0 true; Work 0 true;
   CallbackBegin (stereo_in 2); CallbackPut].

(** After the call: the old writer takes the block, the session's own
    writer finds the queue empty and returns, the join comes back, the
    file is closed and let go of, and the old writer finds no file. *)
Definition joined_stop : list label :=
  [Work 0 true; Work 1 true; Joined; CloseFile true; ReleaseFile; Work 0 true].

(** A recorder that is not recording, with three blocks left over
    in its queue. *)
Definition leftover_world : World :=
  set_sink (boot 2 48000)
           (set_audio_queue (init 2 48000) [blk 1; blk 2; blk 3]).

(** The same recorder with a hundred blocks waiting in the queue. *)
Definition full_sink : JackAudioSink :=
  set_audio_queue (sink recording_world) (map (fun i => blk (Z.of_nat i)) (seq 0 100)).

End JackRecord.

(** ** Text: the string operations of the command loops and of the plot *)

From Stdlib Require Ascii DecimalString DecimalNat.

Module Text.
Import Ascii.

(** Lines are read over the code points below 256.  [c.isspace()]
    there: tab to carriage return, the four separators [0x1c .. 0x1f],
    the blank, [0x85] and the no-break space. *)
Definition is_space (c : ascii) : bool :=
  let n := nat_of_ascii c in
  ((9 <=? n) && (n <=? 13) || (28 <=? n) && (n <=? 32) || (n =? 133) || (n =? 160))%nat.

(** [s.lstrip()], [s.rstrip()] and [s.strip()] *)
Fixpoint lstrip (s : string) : string :=
  match s with
  | EmptyString => EmptyString
  | String c s' => if is_space c then lstrip s' else s
  end.

Fixpoint rstrip (s : string) : string :=
  match s with
  | EmptyString => EmptyString
  | String c s' =>
      match rstrip s' with
      | EmptyString => if is_space c then EmptyString else String c EmptyString
      | r => String c r
      end
  end.

Definition strip (s : string) : string := lstrip (rstrip s).

(** [c.lower()] below 256: the letters A to Z, and the capital letters
    of Latin-1 ([0xc0 .. 0xde] but for the multiplication sign). *)
Definition lower_char (c : ascii) : ascii :=
  let n := nat_of_ascii c in
  if ((65 <=? n) && (n <=? 90) || (192 <=? n) && (n <=? 222) && negb (n =? 215))%nat
  then ascii_of_nat (n + 32)
  else c.

Fixpoint lower (s : string) : string :=
  match s with
  | EmptyString => EmptyString
  | String c s' => String (lower_char c) (lower s')
  end.

(** [s.split(sep)] for a separator of one character: the pieces
    between the separators, always at least one. *)
Fixpoint split_on (sep : ascii) (s : string) : list string :=
  match s with
  | EmptyString => [EmptyString]
  | String c s' =>
      if Ascii.eqb c sep then EmptyString :: split_on sep s'
      else
        match split_on sep s' with
        | [] => [String c EmptyString]
        | piece :: pieces => String c piece :: pieces
        end
  end.

(** The line feed, and the tab. *)
Definition newline : ascii := "010"%char.
Definition tab : ascii := "009"%char.

(** [str(n)] for a natural number. *)
Definition str (n : nat) : string :=
  DecimalString.NilEmpty.string_of_uint (Nat.to_uint n).

(** A string made of white space only. *)
Fixpoint blank (s : string) : bool :=
  match s with
  | EmptyString => true
  | String c s' => is_space c && blank s'
  end.

(** How often [c] occurs in [s]. *)
Fixpoint occurrences (c : ascii) (s : string) : nat :=
  match s with
  | EmptyString => 0%nat
  | String c' s' => ((if Ascii.eqb c' c then 1 else 0) + occurrences c s')%nat
  end.

End Text.

(** ** The command loops of jack_play.py and jack_record.py *)

Module Commands.
Import Text.

(** What a line typed at the player's prompt makes [main] do. *)
Inductive player_command : Type :=
| PlayerPlay
| PlayerStop
| PlayerPauseResume
| PlayerQuit
| PlayerInfo
| PlayerNothing.

(** The [if]/[elif] chain of the player's loop on
    [cmd = input().strip().lower()]. *)
Definition player_dispatch (line : string) : player_command :=
  let cmd := lower (strip line) in
  if (cmd =? "p")%string then PlayerPlay
  else if (cmd =? "s")%string then PlayerStop
  else if (cmd =? " ")%string || (cmd =? "pause")%string then PlayerPauseResume
  else if (cmd =? "q")%string || (cmd =? "quit")%string then PlayerQuit
  else if (cmd =? "i")%string || (cmd =? "info")%string then PlayerInfo
  else PlayerNothing.

(** The method a command calls on the player, as an event of
    [JackPlay]; quitting, the info line and unknown input call none
    that changes it. *)
Definition player_call (c : player_command) (self : JackPlay.JackWavPlayer)
  : option JackPlay.event :=
  match c with
  | PlayerPlay => Some JackPlay.Play
  | PlayerStop => Some JackPlay.Stop
  | PlayerPauseResume =>
      if JackPlay.playing self then Some JackPlay.Pause else Some JackPlay.Resume
  | PlayerQuit | PlayerInfo | PlayerNothing => None
  end.

(** The status word of the info line:
    ["Playing" if player.is_playing() else "Stopped"]. *)
Definition status (self : JackPlay.JackWavPlayer) : string :=
  if JackPlay.is_playing self then "Playing"%string else "Stopped"%string.

(** What a line typed at the recorder's prompt makes [main] do. *)
Inductive recorder_command : Type :=
| RecorderQuit
| RecorderListPorts
| RecorderConnections
| RecorderToggle
| RecorderUnknown.

Definition recorder_dispatch (line : string) : recorder_command :=
  let cmd := lower (strip line) in
  if (cmd =? "q")%string || (cmd =? "quit")%string then RecorderQuit
  else if (cmd =? "l")%string then RecorderListPorts
  else if (cmd =? "c")%string then RecorderConnections
  else if (cmd =? EmptyString)%string || (cmd =? "r")%string then RecorderToggle
  else RecorderUnknown.

(** The call the toggle makes on the recorder: [stop_recording] when
    it records, [start_recording(args.output)] otherwise. *)
Definition recorder_toggle (output : option string) (env : JackRecord.start_env)
    (w : JackRecord.World) : JackRecord.label :=
  if JackRecord.is_recording (JackRecord.sink w) then JackRecord.StopRecording
  else JackRecord.StartRecording output env.

End Commands.

(** ** Ports: their names and the automatic connections *)

Module Ports.
Import Text.

(** The names [JackAudioSink.__init__] registers: [input] for a mono
    client, [input_1], [input_2], ... otherwise. *)
Definition recorder_port_names (channels : Z) : list string :=
  map (fun i => if 1 <? channels then ("input_" ++ str (i + 1))%string
                else "input"%string)
      (seq 0 (Z.to_nat channels)).

(** The names [JackWavPlayer.__init__] registers: [out_1], [out_2], ... *)
Definition player_port_names (channels : nat) : list string :=
  map (fun i => ("out_" ++ str (i + 1))%string) (seq 0 channels).

(** What the audio server answers: [get_ports] lists port names or
    raises, [connect] succeeds ([None]) or raises; an exception is
    given by its message. *)
Record server : Type := {
  get_ports : string + list string;
  connect : string -> string -> option string
}.

(** The loop [for i, port in enumerate(own): if i < len(others):
    connect(...); print(...)], from index [i] on.  [link own other]
    makes the connection.  The result: the pairs connected, as (own
    port, other port), and the message of the exception that ended the
    loop, if one did. *)
Fixpoint connect_by_index (link : string -> string -> option string)
    (others : list string) (i : nat) (own : list string)
  : list (string * string) * option string :=
  match own with
  | [] => ([], None)
  | port :: rest =>
      if (i <? length others)%nat then
        let other := nth i others EmptyString in
        match link port other with
        | None =>
            let '(made, failure) := connect_by_index link others (S i) rest in
            ((port, other) :: made, failure)
        | Some message => ([], Some message)
        end
      else connect_by_index link others (S i) rest
  end.

(** [JackAudioSink.auto_connect_ports]: the connections made, as
    (capture port, input port), and the lines printed.  Any exception
    is caught and reported in two lines. *)
Definition auto_connect_ports (jack : server) (input_ports : list string)
  : list (string * string) * list string :=
  let failed message :=
    [("Auto-connect failed: " ++ message)%string;
     "You may need to connect ports manually"%string] in
  match get_ports jack with
  | inl message => ([], failed message)
  | inr capture_ports =>
      let '(made, failure) :=
        connect_by_index (fun own other => connect jack other own)
                         capture_ports 0 input_ports in
      (map (fun p => (snd p, fst p)) made,
       map (fun p => ("Connected " ++ snd p ++ " -> " ++ fst p)%string) made
       ++ match failure with
          | None => []
          | Some message => failed message
          end)
  end.

(** The same loop in the player's [main]: the connections made, as
    (output port, system port), and the lines printed. *)
Definition auto_connect_outputs (jack : server) (output_ports : list string)
  : list (string * string) * list string :=
  let failed message :=
    [("Auto-connection failed: " ++ message)%string;
     "You'll need to connect ports manually using a JACK connection manager"%string] in
  match get_ports jack with
  | inl message => ([], failed message)
  | inr system_ports =>
      let '(made, failure) :=
        connect_by_index (connect jack) system_ports 0 output_ports in
      (made,
       map (fun p => ("Connected " ++ fst p ++ " to " ++ snd p)%string) made
       ++ match failure with
          | None => []
          | Some message => failed message
          end)
  end.

(** The connections [made] are the first of [pairs], each accepted by
    the server ([link] answers [None]); either they are all of them,
    or the next pair is the one that was refused, with [failure] the
    message. *)
Definition connected_in_order (link : string -> string -> option string)
    (pairs made : list (string * string)) (failure : option string) : Prop :=
  exists rest,
    pairs = made ++ rest /\
    Forall (fun p => link (fst p) (snd p) = None) made /\
    match failure with
    | None => rest = []
    | Some message =>
        exists p rest', rest = p :: rest' /\ link (fst p) (snd p) = Some message
    end.

(** A server with two capture ports that refuses every connection to
    [input_2]. *)
Definition picky_server : server :=
  {| get_ports := inr ["system:capture_1"; "system:capture_2"]%string;
     connect := fun _ dst =>
       if (dst =? "input_2")%string then Some "refused"%string else None |}.

End Ports.

(** ** plotter_example.py and Jack_Receiver.py: [animate] *)

Module Animate.
Import Ascii Text.

Section WithFloat.

(** [float(s)] is taken as given: the number read, or [ValueError]. *)
Variable float : Type.
Variable py_float : string -> result float.

(** [x, y = line.split(',')]: exactly two pieces, or [ValueError]. *)
Definition unpack2 (pieces : list string) : result (string * string) :=
  match pieces with
  | [x; y] => Return (x, y)
  | _ => Raise ValueError
  end.

(** The loop over the lines, from the lists [xs] and [ys] built so far. *)
Fixpoint read_lines (lines : list string) (xs ys : list float)
  : result (list float * list float) :=
  match lines with
  | [] => Return (xs, ys)
  | line :: rest =>
      if (1 <? String.length line)%nat then
        '(x, y) <- unpack2 (split_on ","%char line) ;;
        fx <- py_float x ;;
        let xs := xs ++ [fx] in
        fy <- py_float y ;;
        let ys := ys ++ [fy] in
        read_lines rest xs ys
      else read_lines rest xs ys
  end.

(** [animate]: the two lists handed to [ax1.plot], from the text read
    off [example.txt]. *)
Definition animate (graph_data : string) : result (list float * list float) :=
  let lines := split_on newline graph_data in
  read_lines lines [] [].

End WithFloat.

(** The lines the loop looks at: those longer than one character. *)
Definition counted (lines : list string) : list string :=
  filter (fun line => (1 <? String.length line)%nat) lines.

(** The line [x,y]. *)
Definition joined (p : string * string) : string :=
  (fst p ++ String "," (snd p))%string.

(** A stand-in for [float] on decimal integers, used to evaluate the
    definitions. *)
Definition nat_float (s : string) : result nat :=
  match DecimalString.NilEmpty.uint_of_string s with
  | Some d => if (s =? EmptyString)%string then Raise ValueError else Return (Nat.of_uint d)
  | None => Raise ValueError
  end.

(** Two points with an empty line between them and a line feed at the
    end, and a file whose second line has no comma. *)
Definition two_points : string :=
  ("1,2" ++ String newline (String newline ("3,4" ++ String newline EmptyString)))%string.

Definition no_comma : string := ("1,2" ++ String newline "34")%string.

End Animate.

(** ** plotter_example.py: the sum of sine waves *)

Module Superposition.
Import PlotterExample.

Section WithNumpy.

Variable float : Type.
Variables fadd fmul fdiv : float -> float -> float.
Variable of_Z : Z -> float.
Variable np_sin : float -> float.
Variable np_pi : float.

(** The sampling times [np.arange(n) / self.sample_rate]. *)
Definition times (self : SineWaveData float) (n : Z) : list float :=
  map (fun x => fdiv x (sample_rate self)) (np_arange float of_Z n).

(** One sine wave at time [ti], with the phase left at its default. *)
Definition component (freq amp ti : float) : float :=
  fmul amp (np_sin (fadd (fmul (fmul (fmul (of_Z 2) np_pi) freq) ti) (of_Z 0))).

(** The waves of [pairs] added to zero one after the other, at time [ti]. *)
Definition superposed (pairs : list (float * float)) (ti : float) : float :=
  fold_left (fun acc p => fadd acc (component (fst p) (snd p) ti)) pairs (of_Z 0).

End WithNumpy.

End Superposition.

(** ** audio_example.py: the stream callback *)

Module AudioCallback.
Import AudioExample.

(** The 64-bit integers of [np.arange]: a sum wraps around, and a
    Python integer that does not fit is refused with [OverflowError]. *)
Definition wrap64 (z : Z) : Z := (z + 2 ^ 63) mod 2 ^ 64 - 2 ^ 63.

Definition fits64 (z : Z) : bool := (- 2 ^ 63 <=? z) && (z <? 2 ^ 63).

(** [a + k] for an integer array [a] and a Python integer [k]. *)
Definition add_scalar (a : list Z) (k : Z) : result (list Z) :=
  if fits64 k then Return (map (fun x => wrap64 (x + k)) a)
  else Raise OverflowError.

(** [np.arange(n)] as integers. *)
Definition arange (n : nat) : list Z := map Z.of_nat (seq 0 n).

(** [pyaudio.paContinue] and its companions. *)
Inductive flag : Type :=
| paContinue
| paComplete
| paAbort.

Definition set_phase (self : SineWaveGenerator) (p : Z) : SineWaveGenerator :=
  {| frequency := frequency self; sample_rate := sample_rate self;
     amplitude := amplitude self; is_playing := is_playing self;
     phase := p |}.

Section WithNumpy.

(** Floating-point numbers, the conversions to them and the numpy
    operations are taken as given, as is [to_bytes], the four bytes of
    [x.astype(np.float32).tobytes()]. *)
Variable float : Type.
Variables fmul fdiv : float -> float -> float.
Variable of_Z : Z -> float.
Variable of_Q : Q -> float.
Variable np_sin : float -> float.
Variable np_pi : float.
Variable to_bytes : float -> list Byte.byte.

(** [self.amplitude * np.sin(2 * np.pi * self.frequency * samples /
    self.sample_rate)] at one sample. *)
Definition sine_at (self : SineWaveGenerator) (s : Z) : float :=
  fmul (of_Q (amplitude self))
       (np_sin (fdiv (fmul (fmul (fmul (of_Z 2) np_pi) (of_Q (frequency self)))
                           (of_Z s))
                     (of_Z (sample_rate self)))).

(** The bytes of the [n] samples that follow sample number [p]. *)
Definition played (self : SineWaveGenerator) (p : Z) (n : nat) : list Byte.byte :=
  List.concat
    (map to_bytes
         (map (sine_at self) (map (fun i => wrap64 (Z.of_nat i + p)) (seq 0 n)))).

(** [callback(self, in_data, frame_count, time_info, status)]: the
    generator with its phase moved on, and the pair returned. *)
Definition callback (self : SineWaveGenerator) (frame_count : nat)
  : result (SineWaveGenerator * (list Byte.byte * flag)) :=
  samples <- add_scalar (arange frame_count) (phase self) ;;
  let sine_wave := map (sine_at self) samples in
  let self := set_phase self (phase self + Z.of_nat frame_count) in
  let output := List.concat (map to_bytes sine_wave) in
  Return (self, (output, paContinue)).

(** The stream calls [callback] once per buffer: the generator at the
    end, and the bytes played, in order. *)
Fixpoint stream (self : SineWaveGenerator) (frame_counts : list nat)
  : result (SineWaveGenerator * list Byte.byte) :=
  match frame_counts with
  | [] => Return (self, [])
  | n :: rest =>
      '(self, (output, _)) <- callback self n ;;
      '(self, outputs) <- stream self rest ;;
      Return (self, output ++ outputs)
  end.

End WithNumpy.

(** A stand-in for the four bytes of a sample, used to evaluate the
    definitions: the integer part, little-endian. *)
Definition q_bytes (x : Q) : list Byte.byte :=
  let z := Z.quot (Qnum x) (Zpos (Qden x)) in
  map (fun k => match Byte.of_nat (Z.to_nat ((z / 256 ^ Z.of_nat k) mod 256)) with
                | Some b => b
                | None => Byte.x00
                end)
      (seq 0 4).

Definition q_stream :=
  stream Q Qmult Qdiv inject_Z (fun q => q) PlotterExample.q_sin PlotterExample.q_pi
         q_bytes.

Definition q_callback :=
  callback Q Qmult Qdiv inject_Z (fun q => q) PlotterExample.q_sin PlotterExample.q_pi
           q_bytes.

End AudioCallback.

(** ** jack_play.py: what a port carries over a run *)

Module Playback.
Import JackPlay.

(** Channel [ch] of the source, from its first frame to its last. *)
Definition channel (self : JackWavPlayer) (ch : nat) : list sample :=
  map (fun i => item (audio_data self) i ch) (seq 0 (shape0 (audio_data self))).

(** The part of the channel from the cursor on. *)
Definition remaining (self : JackWavPlayer) (ch : nat) : list sample :=
  skipn (Z.to_nat (position self)) (channel self ch).

(** The samples port [ch] has carried over the cycles of a run, one
    after the other. *)
Definition port_stream (ch : nat) (os : list output) : list sample :=
  List.concat (map (fun o => nth ch (fst o) []) os).

(** [n] samples taken off [l], with zeros once [l] has run out. *)
Definition feed (l : list sample) (n : nat) : list sample :=
  firstn n l ++ repeat 0%Q (n - length l).

(** The frames a list of events asks for. *)
Definition frames_asked (evs : list event) : nat := list_sum (map frames_of evs).

End Playback.


(** * Properties *)

(** ** audio_example.py: the amplitude clamp *)

Module AudioExampleFacts.
Import AudioExample.

Lemma Qlt_bool_true (x y : Q) : Qlt_bool x y = true <-> (x < y)%Q.
Proof.
  unfold Qlt_bool. rewrite negb_true_iff. split.
  - intros H. apply Qnot_le_lt. intros Hle.
    apply Qle_bool_iff in Hle. congruence.
  - intros H. destruct (Qle_bool y x) eqn:E; [ | reflexivity ].
    apply Qle_bool_iff in E. exfalso. exact (Qlt_not_le _ _ H E).
Qed.

Lemma Qlt_bool_false (x y : Q) : Qlt_bool x y = false <-> (y <= x)%Q.
Proof.
  unfold Qlt_bool. rewrite negb_false_iff. apply Qle_bool_iff.
Qed.

Lemma py_min_1_cases (a : Q) :
  (a < 1 /\ py_min 1 a = a)%Q \/ (1 <= a /\ py_min 1 a = 1)%Q.
Proof.
  unfold py_min. destruct (Qlt_bool a 1) eqn:E.
  - left. split; [ apply Qlt_bool_true; exact E | reflexivity ].
  - right. split; [ apply Qlt_bool_false; exact E | reflexivity ].
Qed.

Lemma py_max_0_cases (x : Q) :
  (0 < x /\ py_max 0 x = x)%Q \/ (x <= 0 /\ py_max 0 x = 0)%Q.
Proof.
  unfold py_max. destruct (Qlt_bool 0 x) eqn:E.
  - left. split; [ apply Qlt_bool_true; exact E | reflexivity ].
  - right. split; [ apply Qlt_bool_false; exact E | reflexivity ].
Qed.

(** C9. After [set_amplitude(a)] the amplitude lies in [0, 1]: it is
    [a] when [0 <= a <= 1], [0] when [a < 0] and [1] when [a > 1]. *)
Theorem set_amplitude_clamps (self : SineWaveGenerator) (a : Q) :
  let amp := amplitude (set_amplitude self a) in
  (0 <= amp <= 1)%Q /\
  ((0 <= a <= 1)%Q -> (amp == a)%Q) /\
  ((a < 0)%Q -> amp = 0%Q) /\
  ((1 < a)%Q -> amp = 1%Q).
Proof.
  cbn zeta. unfold set_amplitude; cbn [amplitude].
  destruct (py_min_1_cases a) as [[Ha Hmin] | [Ha Hmin]]; rewrite Hmin.
  - destruct (py_max_0_cases a) as [[Hp Hmax] | [Hp Hmax]]; rewrite Hmax.
    + split; [ split | split; [ | split ] ].
      * apply Qlt_le_weak; exact Hp.
      * apply Qlt_le_weak; exact Ha.
      * intros _. reflexivity.
      * intros Hneg. exfalso.
        exact (Qlt_irrefl _ (Qlt_trans _ _ _ Hp Hneg)).
      * intros Hbig. exfalso.
        exact (Qlt_irrefl _ (Qlt_trans _ _ _ Ha Hbig)).
    + split; [ split | split; [ | split ] ].
      * apply Qle_refl.
      * discriminate.
      * intros [H0 _]. apply Qle_antisym; assumption.
      * intros _. reflexivity.
      * intros Hbig. exfalso.
        exact (Qlt_irrefl _ (Qlt_trans _ _ _ Ha Hbig)).
  - assert (H1 : py_max 0 1 = 1%Q) by reflexivity. rewrite H1.
    split; [ split | split; [ | split ] ].
    + discriminate.
    + apply Qle_refl.
    + intros [_ Hle]. apply Qle_antisym; assumption.
    + intros Hneg. exfalso.
      apply (Qlt_irrefl a). apply (Qlt_le_trans _ 0); [ exact Hneg | ].
      apply (Qle_trans _ 1); [ discriminate | exact Ha ].
    + intros _. reflexivity.
Qed.

(** The clamp at three inputs: inside, below and above the interval. *)
Lemma set_amplitude_clamps_witness :
  let g := init 440 44100 (3 # 10) in
  (amplitude (set_amplitude g (1 # 2)) == 1 # 2)%Q /\
  amplitude (set_amplitude g (-3)) = 0%Q /\
  amplitude (set_amplitude g (5 # 2)) = 1%Q.
Proof.
  intros g. split; [ | split ].
  - apply (proj1 (proj2 (set_amplitude_clamps g (1 # 2)))).
    split; discriminate.
  - apply (proj1 (proj2 (proj2 (set_amplitude_clamps g (-3))))).
    reflexivity.
  - apply (proj2 (proj2 (proj2 (set_amplitude_clamps g (5 # 2))))).
    reflexivity.
Defined.

End AudioExampleFacts.

(** ** plotter_example.py: the default amplitudes *)

Module PlotterExampleFacts.
Import PlotterExample.

Section WithNumpy.

Variable float : Type.
Variables fadd fmul fdiv : float -> float -> float.
Variable of_Z : Z -> float.
Variable np_sin : float -> float.
Variable np_pi : float.
Variable py_int : float -> result Z.

Let gmf := generate_multiple_frequencies float fadd fmul fdiv of_Z np_sin np_pi py_int.

(** With [amplitudes] left out, the call never returns: it raises
    while sizing [result] or, past that, at the [zip]. *)
Lemma default_amplitudes_raise (self : SineWaveData float) (frequencies : list float)
    (duration : float) :
  raises (gmf self frequencies None duration).
Proof.
  unfold gmf, generate_multiple_frequencies, raises.
  destruct (py_int (fmul (sample_rate self) duration)) as [n | e]; cbn [bind].
  - destruct (np_zeros float of_Z n) as [res | e]; cbn [bind py_zip].
    + exists TypeError. reflexivity.
    + exists e. reflexivity.
  - exists e. reflexivity.
Qed.

(** Once the size of [result] is a non-negative integer, the exception
    is the [TypeError] of iterating over [None]. *)
Lemma default_amplitudes_type_error (self : SineWaveData float) (frequencies : list float)
    (duration : float) (n : Z) :
  py_int (fmul (sample_rate self) duration) = Return n ->
  0 <= n ->
  gmf self frequencies None duration = Raise TypeError.
Proof.
  intros Hint Hn. unfold gmf, generate_multiple_frequencies.
  rewrite Hint. cbn [bind]. unfold np_zeros.
  destruct (n <? 0) eqn:E; [ apply Z.ltb_lt in E; lia | ].
  reflexivity.
Qed.

End WithNumpy.

(** C10. For a non-empty list of frequencies and [amplitudes] left as
    [None], [generate_multiple_frequencies] raises an exception: the
    default branch only binds the misspelt local, so the [zip] meets
    [None] (a [TypeError], unless sizing [result] has raised before);
    in particular the call does not give what unit amplitudes give. *)
Theorem default_amplitudes_are_not_used
    (float : Type) (fadd fmul fdiv : float -> float -> float) (of_Z : Z -> float)
    (np_sin : float -> float) (np_pi : float) (py_int : float -> result Z)
    (self : SineWaveData float) (frequencies : list float) (duration : float) :
  frequencies <> [] ->
  let call :=
    generate_multiple_frequencies float fadd fmul fdiv of_Z np_sin np_pi py_int
      self frequencies None duration in
  raises call /\
  (forall n, py_int (fmul (sample_rate self) duration) = Return n -> 0 <= n ->
             call = Raise TypeError) /\
  (forall wave,
      with_unit_amplitudes float fadd fmul fdiv of_Z np_sin np_pi py_int
        self frequencies duration = Return wave ->
      call <> Return wave).
Proof.
  intros _ call.
  pose proof (default_amplitudes_raise float fadd fmul fdiv of_Z np_sin np_pi
                py_int self frequencies duration) as Hr.
  split; [ exact Hr | split ].
  - intros n Hint Hn.
    exact (default_amplitudes_type_error float fadd fmul fdiv of_Z np_sin np_pi
             py_int self frequencies duration n Hint Hn).
  - intros wave _ Heq. destruct Hr as [e He].
    unfold call in Heq. rewrite He in Heq. discriminate.
Qed.

(** Two frequencies over one second at 8 samples per second: unit
    amplitudes passed explicitly give a wave of 8 samples, the default
    gives a [TypeError]. *)
Lemma default_amplitudes_are_not_used_witness :
  q_generate_multiple_frequencies (Build_SineWaveData 8%Q) [1%Q; 2%Q] None 1%Q
    = Raise TypeError /\
  exists wave,
    q_generate_multiple_frequencies (Build_SineWaveData 8%Q) [1%Q; 2%Q]
      (Some [1%Q; 1%Q]) 1%Q = Return wave /\
    length wave = 8%nat.
Proof.
  split.
  - refine (proj1 (proj2
      (default_amplitudes_are_not_used Q Qplus Qmult Qdiv inject_Z q_sin q_pi q_int
         (Build_SineWaveData 8%Q) [1%Q; 2%Q] 1%Q _)) 8 _ _).
    + discriminate.
    + reflexivity.
    + lia.
  - eexists. split; [ vm_compute; reflexivity | reflexivity ].
Defined.

End PlotterExampleFacts.

(** ** jack_play.py: the playback callback *)

Module JackPlayFacts.
Import JackPlay.

Lemma clip_inside (i : Z) (n : nat) :
  0 <= i <= Z.of_nat n -> clip i n = Z.to_nat i.
Proof.
  intros H. unfold clip.
  destruct (i <? 0) eqn:E; [ apply Z.ltb_lt in E; lia | ].
  apply Nat.min_l. lia.
Qed.

Lemma py_index_inside (ch n : nat) :
  (ch < n)%nat -> py_index (Z.of_nat ch) n = Return ch.
Proof.
  intros H. unfold py_index.
  assert (E1 : (0 <=? Z.of_nat ch) = true) by (apply Z.leb_le; lia).
  assert (E2 : (Z.of_nat ch <? Z.of_nat n) = true) by (apply Z.ltb_lt; lia).
  rewrite E1, E2. cbn [andb]. now rewrite Nat2Z.id.
Qed.

Lemma mapM_Return {A B : Type} (f : A -> result B) (g : A -> B) (l : list A) :
  (forall x, In x l -> f x = Return (g x)) ->
  mapM f l = Return (map g l).
Proof.
  induction l as [ | a l IH]; intros H; cbn [mapM map].
  - reflexivity.
  - rewrite (H a (or_introl eq_refl)). cbn [bind].
    rewrite IH by (intros x Hx; apply H; right; exact Hx).
    reflexivity.
Qed.

Lemma get_array_length (mem : nat -> nat -> sample) (port frames : nat) :
  length (get_array mem port frames) = frames.
Proof. unfold get_array. now rewrite length_map, length_seq. Qed.

Lemma port_contents_length (self : JackWavPlayer) (frames ch : nat) :
  length (port_contents self frames ch) = frames.
Proof.
  unfold port_contents.
  rewrite length_app, length_map, length_seq, repeat_length. lia.
Qed.

(** Past what the source still holds, a port carries zeros. *)
Lemma port_contents_tail (self : JackWavPlayer) (frames ch i : nat) (d : sample) :
  0 <= position self <= len self ->
  len self - position self <= Z.of_nat i ->
  (i < frames)%nat ->
  nth i (port_contents self frames ch) d = 0%Q.
Proof.
  intros Hpos Hi Hlt. unfold port_contents.
  set (k := Z.to_nat (Z.min (Z.of_nat frames) (len self - position self))).
  assert (Hk : (k <= i)%nat) by (unfold k; lia).
  rewrite app_nth2 by (rewrite length_map, length_seq; exact Hk).
  rewrite length_map, length_seq.
  apply nth_repeat_lt. lia.
Qed.


Lemma firstn_exact {A : Type} (l1 l2 : list A) (n : nat) :
  length l1 = n -> firstn n (l1 ++ l2) = l1.
Proof.
  intros <-. rewrite firstn_app, Nat.sub_diag, firstn_all.
  cbn [firstn]. apply app_nil_r.
Qed.

(** The loop body leaves on a port exactly [port_contents]. *)
Lemma write_port_spec (self : JackWavPlayer) (frames ch : nat)
    (mem : nat -> nat -> sample) :
  well_formed self ->
  (ch < output_ports self)%nat ->
  write_port self frames (Z.min (Z.of_nat frames) (len self - position self)) ch
             (get_array mem ch frames)
  = Return (port_contents self frames ch).
Proof.
  intros (Hch & Hports & Hpos) Hlt.
  unfold write_port, port_contents.
  set (k := Z.min (Z.of_nat frames) (len self - position self)).
  assert (Hk : 0 <= k <= Z.of_nat frames) by (unfold k; lia).
  assert (Hend : position self + k <= len self) by (unfold k; lia).
  destruct (0 <? k) eqn:Ek.
  - apply Z.ltb_lt in Ek.
    assert (Ech : (ch <? channels self)%nat = true) by (apply Nat.ltb_lt; lia).
    rewrite Ech. unfold column_slice.
    rewrite py_index_inside by lia. cbn [bind].
    unfold len in Hpos, Hend.
    rewrite !clip_inside by lia.
    replace (Z.to_nat (position self + k) - Z.to_nat (position self))%nat
      with (Z.to_nat k) by lia.
    unfold assign_prefix.
    rewrite get_array_length, length_map, length_seq.
    rewrite clip_inside by lia. rewrite Nat.eqb_refl. cbn [bind].
    set (src := map (fun i => item (audio_data self) i ch)
                    (seq (Z.to_nat (position self)) (Z.to_nat k))).
    assert (Hsrc : length src = Z.to_nat k)
      by (unfold src; now rewrite length_map, length_seq).
    destruct (k <? Z.of_nat frames) eqn:Ef.
    + unfold fill_zero_from.
      rewrite length_app, Hsrc, length_skipn, get_array_length.
      replace (Z.to_nat k + (frames - Z.to_nat k))%nat with frames by lia.
      rewrite clip_inside by lia.
      now rewrite firstn_exact by exact Hsrc.
    + apply Z.ltb_ge in Ef.
      replace (Z.to_nat k) with frames in * by lia.
      rewrite skipn_all2 by (rewrite get_array_length; lia).
      now rewrite Nat.sub_diag.
  - apply Z.ltb_ge in Ek.
    replace (Z.to_nat k) with 0%nat by lia.
    unfold fill_zero. rewrite get_array_length.
    cbn [seq map app]. now rewrite Nat.sub_0_r.
Qed.

Lemma silence_as_map (ports frames : nat) (f : nat -> list sample) :
  (forall p, (p < ports)%nat -> f p = repeat 0%Q frames) ->
  map f (seq 0 ports) = silence ports frames.
Proof.
  intros H. unfold silence.
  assert (G : forall start,
            (forall p, (start <= p < start + ports)%nat -> f p = repeat 0%Q frames) ->
            map f (seq start ports) = repeat (repeat 0%Q frames) ports).
  { clear H. induction ports as [ | n IH]; intros start Hf; cbn [seq map repeat].
    - reflexivity.
    - rewrite Hf by lia. f_equal. apply IH.
      intros p Hp. apply Hf. lia. }
  apply (G 0%nat). intros p Hp. apply H. lia.
Qed.

(** A player that is not playing leaves silence on every port. *)
Lemma process_callback_idle (self : JackWavPlayer) (frames : nat)
    (mem : nat -> nat -> sample) :
  playing self = false ->
  process_callback self frames mem
  = Return (self, silence (output_ports self) frames, []).
Proof.
  intros Hp. unfold process_callback. rewrite Hp. cbn [negb].
  rewrite (silence_as_map _ frames); [ reflexivity | ].
  intros p _. unfold fill_zero. now rewrite get_array_length.
Qed.

(** The state a playing cycle of [frames] frames leaves behind. *)
Lemma process_callback_playing (self : JackWavPlayer) (frames : nat)
    (mem : nat -> nat -> sample) :
  well_formed self ->
  playing self = true ->
  let k := Z.min (Z.of_nat frames) (len self - position self) in
  let self' := set_position self (position self + k) in
  process_callback self frames mem
  = Return (if len self <=? position self + k then set_playing self' false else self',
            map (port_contents self frames) (seq 0 (output_ports self)),
            if len self <=? position self + k then [finished_line] else []).
Proof.
  intros Hwf Hp k self'. unfold process_callback. rewrite Hp. cbn [negb].
  rewrite (mapM_Return _ (port_contents self frames)).
  - cbn [bind]. fold k. fold self'.
    change (len self') with (len self).
    change (position self') with (position self + k).
    destruct (len self <=? position self + k); reflexivity.
  - intros ch Hin. apply in_seq in Hin.
    apply write_port_spec; [ exact Hwf | lia ].
Qed.

(** *** The cursor invariant *)

Lemma well_formed_init (data : wav_data) (rate : Z) : well_formed (init data rate).
Proof.
  destruct data as [l | a]; unfold well_formed, init, len;
    cbn [channels audio_data output_ports position shape0 shape1 reshape_column];
    repeat split; lia.
Qed.

Ltac wf_solve :=
  unfold well_formed, len in *;
  cbn [set_playing set_position channels audio_data output_ports position] in *;
  repeat split; first [ assumption | reflexivity | lia ].

(** Whatever happens to a well-formed player, the call returns and the
    player stays well-formed, over the same source and ports. *)
Lemma step_well_formed (e : event) (self : JackWavPlayer) :
  well_formed self ->
  exists self' o,
    step e self = Return (self', o) /\
    well_formed self' /\
    audio_data self' = audio_data self /\
    output_ports self' = output_ports self.
Proof.
  intros Hwf. pose proof Hwf as (Hch & Hports & Hpos).
  destruct e as [frames mem | | | | | ]; cbn [step].
  - destruct (playing self) eqn:Hp.
    + rewrite (process_callback_playing self frames mem Hwf Hp). cbn [bind].
      set (k := Z.min (Z.of_nat frames) (len self - position self)).
      assert (Hk : 0 <= k /\ position self + k <= len self) by (unfold k; lia).
      destruct (len self <=? position self + k);
        eexists; eexists; (split; [ reflexivity | ]); wf_solve.
    + rewrite (process_callback_idle self frames mem Hp). cbn [bind].
      eexists; eexists; split; [ reflexivity | ]. wf_solve.
  - eexists; eexists; split; [ reflexivity | ]. wf_solve.
  - eexists; eexists; split; [ reflexivity | ]. wf_solve.
  - eexists; eexists; split; [ reflexivity | ]. wf_solve.
  - eexists; eexists; split; [ reflexivity | ]. wf_solve.
  - eexists; eexists; split; [ reflexivity | ]. wf_solve.
Qed.

Lemma run_well_formed (evs : list event) (self : JackWavPlayer) :
  well_formed self ->
  exists self' os,
    run evs self = Return (self', os) /\
    well_formed self' /\
    audio_data self' = audio_data self /\
    output_ports self' = output_ports self.
Proof.
  revert self. induction evs as [ | e evs IH]; intros self Hwf; cbn [run].
  - exists self, []. repeat split; try reflexivity; apply Hwf.
  - destruct (step_well_formed e self Hwf) as (s1 & o & Hstep & Hwf1 & Ha1 & Hp1).
    rewrite Hstep. cbn [bind].
    destruct (IH s1 Hwf1) as (s2 & os & Hrun & Hwf2 & Ha2 & Hp2).
    rewrite Hrun. cbn [bind].
    exists s2, (o :: os). repeat split; try apply Hwf2; congruence.
Qed.

(** C6. Whatever cycles and commands a player has gone through, its
    cursor lies within the source, and so it does after one more cycle,
    which never moves it back and leaves zeros on every port from
    where the source ends. *)
Theorem cursor_stays_within_source (data : wav_data) (rate : Z)
    (evs : list event) (frames : nat) (mem : nat -> nat -> sample) :
  exists self os,
    run evs (init data rate) = Return (self, os) /\
    0 <= position self <= len self /\
    exists self' bufs lines,
      process_callback self frames mem = Return (self', bufs, lines) /\
      len self' = len self /\
      position self <= position self' /\
      0 <= position self' <= len self' /\
      length bufs = output_ports self /\
      Forall (fun buf =>
                length buf = frames /\
                forall i, len self - position self <= Z.of_nat i ->
                          (i < frames)%nat -> nth i buf 1%Q = 0%Q)
             bufs.
Proof.
  destruct (run_well_formed evs (init data rate) (well_formed_init data rate))
    as (self & os & Hrun & Hwf & _ & _).
  exists self, os. split; [ exact Hrun | ].
  pose proof Hwf as (Hch & Hports & Hpos).
  split; [ exact Hpos | ].
  destruct (playing self) eqn:Hp.
  - rewrite (process_callback_playing self frames mem Hwf Hp).
    set (k := Z.min (Z.of_nat frames) (len self - position self)).
    assert (Hk : 0 <= k /\ position self + k <= len self) by (unfold k; lia).
    eexists; eexists; eexists. split; [ reflexivity | ].
    assert (Hbufs : Forall (fun buf =>
                length buf = frames /\
                forall i, len self - position self <= Z.of_nat i ->
                          (i < frames)%nat -> nth i buf 1%Q = 0%Q)
             (map (port_contents self frames) (seq 0 (output_ports self)))).
    { apply Forall_forall. intros buf Hin. apply in_map_iff in Hin.
      destruct Hin as (ch & <- & _). split.
      - apply port_contents_length.
      - intros i Hi Hlt. apply port_contents_tail; assumption. }
    destruct (len self <=? position self + k);
      unfold len in *;
      cbn [set_playing set_position audio_data position];
      (repeat split; [ lia | lia | lia | now rewrite length_map, length_seq | exact Hbufs ]).
  - rewrite (process_callback_idle self frames mem Hp).
    eexists; eexists; eexists. split; [ reflexivity | ].
    repeat split; try lia.
    + unfold silence. apply repeat_length.
    + apply Forall_forall. intros buf Hin. unfold silence in Hin.
      apply repeat_spec in Hin. subst buf. split.
      * apply repeat_length.
      * intros i _ Hlt. apply nth_repeat_lt. exact Hlt.
Qed.

(** *** Playing past the end of the source *)

Lemma finished_count_cons (o : output) (os : list output) :
  finished_count (o :: os)
  = (count_occ string_dec (snd o) finished_line + finished_count os)%nat.
Proof.
  unfold finished_count. cbn [map List.concat]. apply count_occ_app.
Qed.






(** Cycles on a player that is not playing: silence, nothing printed,
    nothing changed. *)
Lemma run_not_playing (cycles : list event) (self : JackWavPlayer) :
  playing self = false ->
  forallb is_callback cycles = true ->
  run cycles self = Return (self, quiet (output_ports self) cycles).
Proof.
  intros Hp. induction cycles as [ | e cycles IH]; intros Hcb.
  - reflexivity.
  - cbn [forallb] in Hcb. apply andb_true_iff in Hcb. destruct Hcb as [He Hcb].
    destruct e as [frames mem | | | | | ]; try discriminate He.
    cbn [run step]. rewrite (process_callback_idle self frames mem Hp).
    cbn [bind]. rewrite (IH Hcb). reflexivity.
Qed.






(** The same session, evaluated: the ports of the four cycles. *)
Example playback_past_end_ports :
  match run [Play; Callback 2 stale; Callback 2 stale; Callback 2 stale; Callback 2 stale]
            (init demo_source 44100) with
  | Return (_, os) => map fst os
  | Raise _ => []
  end
  = [ [];
      [[1 # 2; 1 # 4]; [-1 # 2; -1 # 4]]%Q;
      [[1 # 8; 0]; [-1 # 8; 0]]%Q;
      [[0; 0]; [0; 0]]%Q;
      [[0; 0]; [0; 0]]%Q ].
Proof. vm_compute. reflexivity. Qed.

(** *** Reports of the end *)

Lemma step_finished_bound (e : event) (self self' : JackWavPlayer) (o : output) :
  well_formed self ->
  step e self = Return (self', o) ->
  (count_occ string_dec (snd o) finished_line + on_air self'
   <= activations [e] + on_air self)%nat.
Proof.
  intros Hwf Hstep. unfold on_air.
  destruct e as [frames mem | | | | | ]; cbn [step] in Hstep.
  - destruct (playing self) eqn:Hp.
    + rewrite (process_callback_playing self frames mem Hwf Hp) in Hstep.
      cbn [bind] in Hstep.
      destruct (len self <=? position self +
                  Z.min (Z.of_nat frames) (len self - position self));
        injection Hstep as <- <-; cbn; rewrite ?Hp; cbn; lia.
    + rewrite (process_callback_idle self frames mem Hp) in Hstep.
      cbn [bind] in Hstep. injection Hstep as <- <-. cbn. rewrite Hp. lia.
  - injection Hstep as <- <-. cbn. destruct (playing self); lia.
  - injection Hstep as <- <-. cbn. destruct (playing self); lia.
  - injection Hstep as <- <-. cbn. destruct (playing self); lia.
  - injection Hstep as <- <-. cbn. destruct (playing self); lia.
  - injection Hstep as <- <-. cbn. destruct (playing self); lia.
Qed.

Lemma run_finished_bound (evs : list event) (self self' : JackWavPlayer)
    (os : list output) :
  well_formed self ->
  run evs self = Return (self', os) ->
  (finished_count os + on_air self' <= activations evs + on_air self)%nat.
Proof.
  revert self os. induction evs as [ | e evs IH]; intros self os Hwf Hrun.
  - cbn [run] in Hrun. injection Hrun as <- <-. cbn. lia.
  - cbn [run] in Hrun.
    destruct (step_well_formed e self Hwf) as (s1 & o & Hstep & Hwf1 & _ & _).
    rewrite Hstep in Hrun. cbn [bind] in Hrun.
    destruct (run evs s1) as [[s2 os'] | ] eqn:Hrest; cbn [bind] in Hrun;
      [ | discriminate ].
    injection Hrun as <- <-.
    pose proof (IH s1 os' Hwf1 Hrest) as H1.
    pose proof (step_finished_bound e self s1 o Hwf Hstep) as H2.
    rewrite finished_count_cons.
    change (activations (e :: evs)) with (activations ([e] ++ evs)).
    unfold activations in *. rewrite filter_app, length_app. lia.
Qed.

(** The end of playback is reported at most once for each time
    playback was switched on. *)
Theorem end_reported_once_per_activation (data : wav_data) (rate : Z)
    (evs : list event) :
  exists self os,
    run evs (init data rate) = Return (self, os) /\
    (finished_count os <= activations evs)%nat.
Proof.
  destruct (run_well_formed evs (init data rate) (well_formed_init data rate))
    as (self & os & Hrun & _).
  exists self, os. split; [ exact Hrun | ].
  pose proof (run_finished_bound evs (init data rate) self os
                (well_formed_init data rate) Hrun) as H.
  assert (H0 : on_air (init data rate) = 0%nat) by (destruct data; reflexivity).
  lia.
Qed.

(** A player that is not playing answers every cycle with silence on
    all its ports and stays as it is. *)
Theorem idle_player_is_silent (self : JackWavPlayer) (frames : nat)
    (mem : nat -> nat -> sample) :
  process_callback (set_playing self false) frames mem
  = Return (set_playing self false, silence (output_ports self) frames, []).
Proof.
  apply (process_callback_idle (set_playing self false) frames mem). reflexivity.
Qed.

(** Switching playback on again at the end of the source makes the
    next cycle report the end once more. *)
Example resume_at_end_reports_again :
  match run [Play; Callback 2 stale; Callback 2 stale; Resume; Callback 2 stale]
            (init demo_source 44100) with
  | Return (_, os) => finished_count os
  | Raise _ => 0%nat
  end = 2%nat.
Proof. vm_compute. reflexivity. Qed.

End JackPlayFacts.

(** ** jack_record.py: the capture callback, the queue and the writer *)

Module JackRecordFacts.
Import JackRecord.

(** *** The callback on a full queue *)

Lemma queue_put_full (q : queue) (item : block) :
  queue_full q = true -> queue_put q item false = PutFull.
Proof. intros H. unfold queue_put. now rewrite H. Qed.

(** A non-blocking put never waits, whatever the queue holds. *)
Lemma queue_put_never_waits (q : queue) (item : block) :
  queue_put q item false <> PutWaits.
Proof. unfold queue_put. destruct (queue_full q); discriminate. Qed.

(** C1, as the code has it. A callback that finds the recorder
    recording and the queue full comes back at once ([Done], and the
    put answers [PutFull], never [PutWaits]); the block is dropped
    (nothing is pushed and the recorder, its recording flag included,
    is exactly as before, so later callbacks go on the same way); and
    one warning line is printed.  No count of dropped blocks is kept. *)
Theorem full_queue_drops_block (self : JackAudioSink) (inputs : list (list sample)) :
  is_recording self = true ->
  queue_full (audio_queue self) = true ->
  exists evs,
    process_callback self inputs = Done (self, evs) /\
    pushes evs = [] /\
    forall audio_data,
      read_ports self inputs = Return audio_data ->
      queue_put (audio_queue self) audio_data false = PutFull /\
      evs = [Printed full_warning].
Proof.
  intros Hrec Hfull. unfold process_callback, callback_read.
  rewrite Hrec. cbn [negb].
  destruct (read_ports self inputs) as [audio_data | e].
  - unfold callback_put. rewrite (queue_put_full _ audio_data Hfull).
    exists [Printed full_warning]. split; [ reflexivity | ].
    split; [ reflexivity | ].
    intros d Hd. injection Hd as <-.
    split; [ apply queue_put_full; exact Hfull | reflexivity ].
  - eexists. split; [ reflexivity | ]. split; [ reflexivity | ].
    intros d Hd. discriminate Hd.
Qed.

Lemma full_queue_drops_block_witness :
  exists evs,
    process_callback full_sink (stereo_in 5) = Done (full_sink, evs) /\
    pushes evs = [] /\
    forall audio_data,
      read_ports full_sink (stereo_in 5) = Return audio_data ->
      queue_put (audio_queue full_sink) audio_data false = PutFull /\
      evs = [Printed full_warning].
Proof.
  apply (full_queue_drops_block full_sink (stereo_in 5)).
  - reflexivity.
  - vm_compute. reflexivity.
Defined.

(** C1, as stated, fails: on the full queue of [full_sink] the
    callback returns the recorder it was given, so nothing that can be
    read off the recorder has gone up by one. *)
Lemma full_queue_counts_nothing :
  is_recording full_sink = true /\
  queue_full (audio_queue full_sink) = true /\
  ~ exists self' evs (counter : JackAudioSink -> Z),
      process_callback full_sink (stereo_in 5) = Done (self', evs) /\
      counter self' = counter full_sink + 1.
Proof.
  split; [ reflexivity | ]. split; [ vm_compute; reflexivity | ].
  intros (self' & evs & counter & Hcall & Hcount).
  assert (E : process_callback full_sink (stereo_in 5)
              = Done (full_sink, [Printed full_warning]))
    by (vm_compute; reflexivity).
  rewrite E in Hcall. injection Hcall as <- _. lia.
Qed.

(** *** start_recording *)

(** C7. Starting while already recording prints that it is already
    recording, returns [False], and leaves the recorder, its threads
    and its files as they were. *)
Theorem start_while_recording_is_noop (w : World) (filename : option string)
    (env : start_env) :
  is_recording (sink w) = true ->
  start_recording w filename env
  = Return (w, [Printed "Already recording!"], false).
Proof.
  intros H. unfold start_recording. rewrite H. reflexivity.
Qed.

Lemma start_while_recording_is_noop_witness :
  start_recording recording_world None env_ok
  = Return (recording_world, [Printed "Already recording!"], false).
Proof.
  apply (start_while_recording_is_noop recording_world None env_ok).
  reflexivity.
Defined.

Lemma clear_queue_empty (q : queue) : clear_queue q = [].
Proof. induction q as [ | b q IH]; [ reflexivity | exact IH ]. Qed.

(** What a successful [start_recording] sets up. *)
Lemma start_recording_success (w w' : World) (filename : option string)
    (env : start_env) (evs : list event) :
  start_recording w filename env = Return (w', evs, true) ->
  is_recording (sink w) = false /\
  audio_queue (sink w') = [] /\
  is_recording (sink w') = true /\
  should_stop (sink w') = false /\
  write_thread (sink w') = Some (length (threads w)) /\
  threads w' = threads w ++ [WTest] /\
  (exists f, output_file (sink w') = Some f /\ frames f = [] /\ closed f = false) /\
  main w' = main w /\ rt w' = rt w /\ saved w' = saved w.
Proof.
  unfold start_recording.
  destruct (is_recording (sink w)) eqn:Hrec; [ discriminate | ].
  destruct (makedirs_ok env); cbn [negb]; [ | discriminate ].
  destruct (open_ok env); cbn [negb]; [ | discriminate ].
  destruct (thread_ok env); cbn [negb]; [ | discriminate ].
  destruct (announce_ok env); [ | discriminate ].
  intros H. injection H as <- _.
  cbn. rewrite clear_queue_empty.
  repeat split; try reflexivity.
  eexists. repeat split.
Qed.

(** The same for every call that sets the recorder to record, whatever
    it returns. *)
Lemma start_recording_begins (w w' : World) (filename : option string)
    (env : start_env) (evs : list event) (started : bool) :
  start_recording w filename env = Return (w', evs, started) ->
  is_recording (sink w) = false ->
  is_recording (sink w') = true ->
  audio_queue (sink w') = [] /\
  should_stop (sink w') = false /\
  write_thread (sink w') = Some (length (threads w)) /\
  threads w' = threads w ++ [WTest] /\
  (exists f, output_file (sink w') = Some f /\ frames f = [] /\ closed f = false) /\
  main w' = main w /\ rt w' = rt w /\ saved w' = saved w.
Proof.
  unfold start_recording. intros H Hrec Hrec'. rewrite Hrec in H.
  destruct (makedirs_ok env); cbn [negb] in H; [ | discriminate ].
  destruct (open_ok env); cbn [negb] in H;
    [ | injection H as <- _ _; congruence ].
  destruct (thread_ok env); cbn [negb] in H.
  - destruct (announce_ok env); injection H as <- _ _;
      cbn; rewrite clear_queue_empty;
      (repeat split; try reflexivity); eexists; repeat split.
  - injection H as <- _ _. cbn in Hrec'. congruence.
Qed.

(** *** The writer's threads *)

Lemma nth_error_update_same {A : Type} (l : list A) (n : nat) (a : A) :
  (n < length l)%nat -> nth_error (update l n a) n = Some a.
Proof.
  revert n. induction l as [ | x l IH]; intros n H; cbn [length] in H.
  - lia.
  - destruct n as [ | n]; cbn [update nth_error]; [ reflexivity | ].
    apply IH. lia.
Qed.

Lemma nth_error_update_other {A : Type} (l : list A) (n m : nat) (a : A) :
  m <> n -> nth_error (update l n a) m = nth_error l m.
Proof.
  revert n m. induction l as [ | x l IH]; intros n m H.
  - destruct n; reflexivity.
  - destruct n as [ | n], m as [ | m]; cbn [update nth_error];
      try reflexivity; try congruence.
    apply IH. congruence.
Qed.

Lemma nth_error_in_range {A : Type} (l : list A) (n : nat) (a : A) :
  nth_error l n = Some a -> (n < length l)%nat.
Proof. intros H. apply nth_error_Some. congruence. Qed.

(** *** A failed write *)

(** C5, as the code has it. When the write of a block fails, the
    writer prints the error and returns; that is all: the recorder
    (recording flag, queue, open file), the command thread and the
    saved files are as before, and nothing is raised to any caller.
    The flag is cleared and the file closed and let go only by the
    [stop_recording] that the command thread runs afterwards. *)
Theorem write_failure_ends_writer_only (w : World) (tid : nat)
    (audio_data : block) (f : SoundFile) :
  nth_error (threads w) tid = Some (WWrite audio_data) ->
  output_file (sink w) = Some f ->
  exists e w',
    sf_write f audio_data false = Raise e /\
    step (Work tid false) w
      = Some (w', [Printed ("Error writing audio: " ++ describe e)]) /\
    nth_error (threads w') tid = Some WDone /\
    sink w' = sink w /\ main w' = main w /\ saved w' = saved w /\
    (write_thread (sink w) = Some tid ->
     is_recording (sink w) = true ->
     main w = MCommand ->
     exists w'' evs,
       run [StopRecording; CloseFile true; ReleaseFile] w' = Some (w'', evs) /\
       is_recording (sink w'') = false /\
       output_file (sink w'') = None /\
       saved w'' = saved w ++ [sf_close f] /\
       main w'' = MCommand).
Proof.
  intros Hpc Hfile.
  assert (Hraise : exists e, sf_write f audio_data false = Raise e).
  { unfold sf_write. destruct (closed f); eexists; reflexivity. }
  destruct Hraise as [e He].
  pose proof (nth_error_in_range _ _ _ Hpc) as Hlt.
  exists e, (set_threads (set_sink w (sink w)) (update (threads w) tid WDone)).
  split; [ exact He | ].
  split.
  { cbn [step]. rewrite Hpc. cbn [worker_step]. rewrite Hfile, He. reflexivity. }
  split; [ cbn [threads set_threads]; apply nth_error_update_same; exact Hlt | ].
  split; [ reflexivity | ]. split; [ reflexivity | ]. split; [ reflexivity | ].
  intros Hthread Hrec Hmain.
  cbn [run step].
  unfold at_command. cbn [main set_threads set_sink]. rewrite Hmain.
  unfold stop_begin. cbn [sink set_threads set_sink]. rewrite Hrec. cbn [negb].
  rewrite Hthread. unfold is_alive. cbn [threads set_threads].
  rewrite (nth_error_update_same _ _ _ Hlt). cbn [worker_done negb].
  cbn [main set_main]. unfold stop_close.
  cbn [sink set_main set_sink output_file set_should_stop set_is_recording].
  rewrite Hfile. cbn [main set_main]. unfold stop_release.
  cbn [sink set_main set_sink output_file set_output_file].
  eexists; eexists. split; [ reflexivity | ].
  repeat split.
Qed.

Lemma write_failure_ends_writer_only_witness :
  exists e w',
    sf_write (sf_open "take.wav" 48000 2) (blk 1) false = Raise e /\
    step (Work 0 false) failing_world
      = Some (w', [Printed ("Error writing audio: " ++ describe e)]) /\
    nth_error (threads w') 0 = Some WDone /\
    sink w' = sink failing_world /\ main w' = main failing_world /\
    saved w' = saved failing_world /\
    (write_thread (sink failing_world) = Some 0%nat ->
     is_recording (sink failing_world) = true ->
     main failing_world = MCommand ->
     exists w'' evs,
       run [StopRecording; CloseFile true; ReleaseFile] w' = Some (w'', evs) /\
       is_recording (sink w'') = false /\
       output_file (sink w'') = None /\
       saved w'' = saved failing_world ++ [sf_close (sf_open "take.wav" 48000 2)] /\
       main w'' = MCommand).
Proof.
  apply (write_failure_ends_writer_only failing_world 0 (blk 1)
           (sf_open "take.wav" 48000 2)).
  - reflexivity.
  - reflexivity.
Defined.

(** C5, as stated, fails: after the failed write the writer has
    returned, but the recorder still counts as recording and still
    holds the file open, and the command thread is where it was. *)
Lemma write_failure_leaves_session_active :
  exists w evs,
    run [CallbackBegin (stereo_in 1); CallbackPut;
         Work 0 true; Work 0 true; Work 0 false] recording_world = Some (w, evs) /\
    prints evs = ["Error writing audio: IOError"%string] /\
    thread_alive w = false /\
    is_recording (sink w) = true /\
    (exists f, output_file (sink w) = Some f /\ closed f = false) /\
    main w = MCommand /\
    ~ torn_down w.
Proof.
  eexists; eexists. split; [ vm_compute; reflexivity | ].
  split; [ reflexivity | ]. split; [ reflexivity | ]. split; [ reflexivity | ].
  split; [ eexists; split; reflexivity | ]. split; [ reflexivity | ].
  intros (_ & Hrec & _). discriminate Hrec.
Qed.

(** *** Steps of a session *)

Lemma at_command_true (w : World) : at_command w = true -> main w = MCommand.
Proof. unfold at_command. destruct (main w); congruence. Qed.

Lemma at_join_true (w : World) : at_join w = true -> main w = MJoin.
Proof. unfold at_join. destruct (main w); congruence. Qed.

Lemma thread_alive_writer (w : World) :
  thread_alive w = match writer w with
                   | Some pc => negb (worker_done pc)
                   | None => false
                   end.
Proof.
  unfold thread_alive, writer, is_alive.
  destruct (write_thread (sink w)); reflexivity.
Qed.

(** With one writer only, the thread that can take a step is the
    session's writer. *)
Lemma step_work_inv (tid t : nat) (io_ok : bool) (w w' : World) (evs : list event) :
  one_writer tid w ->
  step (Work t io_ok) w = Some (w', evs) ->
  t = tid /\
  exists pc self' pc',
    nth_error (threads w) tid = Some pc /\
    worker_step (sink w) pc io_ok = Some (self', pc', evs) /\
    write_thread self' = Some tid /\
    w' = set_threads (set_sink w self') (update (threads w) tid pc').
Proof.
  intros (Hth & _ & Hothers) Hstep. cbn [step] in Hstep.
  destruct (nth_error (threads w) t) as [pc | ] eqn:Hpc; [ | discriminate ].
  destruct (worker_step (sink w) pc io_ok) as [[[self' pc'] evs'] | ] eqn:Hws;
    [ | discriminate ].
  injection Hstep as <- <-.
  assert (t = tid).
  { destruct (Nat.eq_dec t tid) as [E | E]; [ exact E | ].
    rewrite (Hothers t pc E Hpc) in Hws. discriminate Hws. }
  subst t. split; [ reflexivity | ].
  exists pc, self', pc'. repeat split; try assumption.
  destruct pc; cbn [worker_step] in Hws.
  - destruct (negb (should_stop (sink w)) || negb (queue_empty (audio_queue (sink w))));
      injection Hws as <- _ _; exact Hth.
  - destruct (queue_get (audio_queue (sink w))) as [[b q] | ];
      injection Hws as <- _ _; exact Hth.
  - destruct (output_file (sink w)) as [f | ].
    + destruct (sf_write f audio_data io_ok); injection Hws as <- _ _; exact Hth.
    + injection Hws as <- _ _; exact Hth.
  - discriminate.
Qed.

(** Every other step leaves the threads alone. *)
Lemma step_other_threads (l : label) (w w' : World) (evs : list event) :
  step l w = Some (w', evs) ->
  is_start l = false ->
  (forall t io_ok, l <> Work t io_ok) ->
  threads w' = threads w /\ write_thread (sink w') = write_thread (sink w).
Proof.
  intros Hstep Hstart Hwork.
  destruct l; cbn [step] in Hstep; try discriminate Hstart.
  - destruct (rt w); [ | discriminate ].
    destruct (callback_read (sink w) inputs); injection Hstep as <- _; split; reflexivity.
  - destruct (rt w) as [ | d]; [ discriminate | ].
    unfold callback_put in Hstep.
    destruct (queue_put (audio_queue (sink w)) d false);
      try discriminate; injection Hstep as <- _; split; reflexivity.
  - exfalso. exact (Hwork tid io_ok eq_refl).
  - destruct (at_command w); [ | discriminate ].
    unfold stop_begin in Hstep.
    destruct (negb (is_recording (sink w))); injection Hstep as <- _; split; reflexivity.
  - destruct (at_join w && negb (thread_alive w)); [ | discriminate ].
    injection Hstep as <- _; split; reflexivity.
  - destruct (at_join w && thread_alive w); [ | discriminate ].
    injection Hstep as <- _; split; reflexivity.
  - destruct (main w); try discriminate. unfold stop_close in Hstep.
    destruct (output_file (sink w)); injection Hstep as <- _; split; reflexivity.
  - destruct (main w); try discriminate. unfold stop_release in Hstep.
    destruct (output_file (sink w)); injection Hstep as <- _; split; reflexivity.
Qed.

Lemma step_other_writer (l : label) (w w' : World) (evs : list event) :
  step l w = Some (w', evs) ->
  is_start l = false ->
  (forall t io_ok, l <> Work t io_ok) ->
  writer w' = writer w.
Proof.
  intros Hstep Hstart Hwork.
  destruct (step_other_threads l w w' evs Hstep Hstart Hwork) as [Ht Hw].
  unfold writer. now rewrite Ht, Hw.
Qed.

Lemma one_writer_writer (tid : nat) (w : World) :
  one_writer tid w -> writer w = nth_error (threads w) tid.
Proof. intros (H & _). unfold writer. now rewrite H. Qed.

Lemma label_work_dec (l : label) :
  (exists t io_ok, l = Work t io_ok) \/ (forall t io_ok, l <> Work t io_ok).
Proof.
  destruct l; try (right; intros; discriminate).
  left. eexists; eexists; reflexivity.
Qed.

Lemma step_one_writer (tid : nat) (l : label) (w w' : World) (evs : list event) :
  one_writer tid w ->
  step l w = Some (w', evs) ->
  is_start l = false ->
  one_writer tid w'.
Proof.
  intros Hone Hstep Hstart.
  destruct (label_work_dec l) as [(t & io_ok & ->) | Hwork].
  - destruct (step_work_inv tid t io_ok w w' evs Hone Hstep)
      as (-> & pc & self' & pc' & Hpc & Hws & Hth & ->).
    destruct Hone as (_ & _ & Hothers).
    pose proof (nth_error_in_range _ _ _ Hpc) as Hlt.
    split; [ exact Hth | split ].
    + exists pc'. cbn [threads set_threads]. apply nth_error_update_same. exact Hlt.
    + intros t p Ht. cbn [threads set_threads].
      rewrite nth_error_update_other by exact Ht. apply Hothers. exact Ht.
  - destruct (step_other_threads l w w' evs Hstep Hstart Hwork) as [Ht Hw].
    destruct Hone as (H1 & H2 & H3). unfold one_writer. rewrite Ht, Hw.
    repeat split; assumption.
Qed.

(** *** What a step does to the queue, the file and the trace *)

Lemma last_snoc {A : Type} (l : list A) (a d : A) : last (l ++ [a]) d = a.
Proof. apply last_last. Qed.

(** A step of the callback or of the command thread pops and writes
    nothing; it can only append to the queue what it pushes, and it
    keeps the contents of the session's file. *)
Lemma step_other_accounting (l : label) (w w' : World) (evs : list event) :
  step l w = Some (w', evs) ->
  is_start l = false ->
  (forall t io_ok, l <> Work t io_ok) ->
  pops evs = [] /\ writes evs = [] /\
  audio_queue (sink w') = audio_queue (sink w) ++ pushes evs /\
  recorded w' = recorded w /\
  (output_file (sink w) = None -> output_file (sink w') = None).
Proof.
  intros Hstep Hstart Hwork.
  destruct l; cbn [step] in Hstep; try discriminate Hstart.
  - destruct (rt w); [ | discriminate ].
    unfold callback_read in Hstep.
    destruct (negb (is_recording (sink w))).
    + injection Hstep as <- <-. cbn. rewrite app_nil_r. repeat split; trivial.
    + destruct (read_ports (sink w) inputs); injection Hstep as <- <-;
        cbn; rewrite app_nil_r; repeat split; trivial.
  - destruct (rt w) as [ | d]; [ discriminate | ].
    unfold callback_put in Hstep.
    destruct (queue_put (audio_queue (sink w)) d false) as [q | | ] eqn:Hput;
      try discriminate; injection Hstep as <- <-.
    + unfold queue_put in Hput.
      destruct (queue_full (audio_queue (sink w))); [ discriminate | ].
      injection Hput as <-. cbn. repeat split; trivial.
    + cbn. rewrite app_nil_r. repeat split; trivial.
  - exfalso. exact (Hwork tid io_ok eq_refl).
  - destruct (at_command w); [ | discriminate ].
    unfold stop_begin in Hstep.
    destruct (negb (is_recording (sink w))); injection Hstep as <- <-;
      cbn; rewrite app_nil_r; repeat split; trivial.
  - destruct (at_join w && negb (thread_alive w)); [ | discriminate ].
    injection Hstep as <- <-. cbn. rewrite app_nil_r. repeat split; trivial.
  - destruct (at_join w && thread_alive w); [ | discriminate ].
    injection Hstep as <- <-. cbn. rewrite app_nil_r. repeat split; trivial.
  - destruct (main w); try discriminate. unfold stop_close in Hstep.
    destruct (output_file (sink w)) as [f | ] eqn:Hf; injection Hstep as <- <-.
    + unfold recorded, session_file. cbn. rewrite Hf, app_nil_r.
      repeat split; trivial; try discriminate.
      destruct close_ok; reflexivity.
    + unfold recorded, session_file. cbn. rewrite Hf, app_nil_r.
      repeat split; trivial.
  - destruct (main w); try discriminate. unfold stop_release in Hstep.
    destruct (output_file (sink w)) as [f | ] eqn:Hf; injection Hstep as <- <-.
    + unfold recorded, session_file. cbn. rewrite Hf, app_nil_r.
      rewrite map_app. cbn [map]. rewrite last_snoc.
      repeat split; trivial.
    + unfold recorded, session_file. cbn. rewrite Hf, app_nil_r.
      repeat split; trivial.
Qed.

Ltac worker_cases H :=
  match type of H with
  | worker_step ?self ?pc ?io = _ =>
      destruct pc as [ | | ?b | ]; cbn [worker_step] in H;
      [ destruct (should_stop self) eqn:?Hstop;
        destruct (audio_queue self) as [ | ?b ?q] eqn:?Hqueue;
        cbn [negb orb queue_empty] in H
      | destruct (audio_queue self) as [ | ?b ?q] eqn:?Hqueue;
        cbn [queue_get] in H
      | destruct (output_file self) as [ ?f | ] eqn:?Hfile;
        [ unfold sf_write in H;
          match type of H with
          | context [closed ?g] => destruct (closed g) eqn:?Hclosed
          end;
          [ | destruct io ]
        | ]
      | ];
      try discriminate H;
      injection H as <- <- <-
  end.

(** One step of [write_worker], read off its definition: what it does
    to the flags, to the queue, and to the file. *)
Lemma worker_step_flags (self self' : JackAudioSink) (pc pc' : worker)
    (io_ok : bool) (evs : list event) :
  worker_step self pc io_ok = Some (self', pc', evs) ->
  pushes evs = [] /\
  should_stop self' = should_stop self /\
  is_recording self' = is_recording self.
Proof. intros H. worker_cases H; repeat split; congruence. Qed.

Lemma worker_step_queue (self self' : JackAudioSink) (pc pc' : worker)
    (io_ok : bool) (evs : list event) :
  worker_step self pc io_ok = Some (self', pc', evs) ->
  audio_queue self = pops evs ++ audio_queue self'.
Proof. intros H. worker_cases H; cbn; congruence. Qed.

Lemma worker_step_no_file (self self' : JackAudioSink) (pc pc' : worker)
    (io_ok : bool) (evs : list event) :
  worker_step self pc io_ok = Some (self', pc', evs) ->
  output_file self = None ->
  output_file self' = None /\ writes evs = [].
Proof. intros H Hnone. worker_cases H; cbn; split; congruence. Qed.

Lemma worker_step_file (self self' : JackAudioSink) (pc pc' : worker)
    (io_ok : bool) (evs : list event) (f : SoundFile) :
  worker_step self pc io_ok = Some (self', pc', evs) ->
  output_file self = Some f ->
  exists f', output_file self' = Some f' /\
             frames f' = frames f ++ writes evs /\
             closed f' = closed f.
Proof.
  intros H Hsome.
  worker_cases H; cbn;
    try (exists f; rewrite app_nil_r; repeat split; congruence).
  eexists. split; [ reflexivity | ]. cbn. split; congruence.
Qed.

(** Of the blocks popped, those not written and not in hand are lost;
    there are none as long as the disk takes the writes and the file is
    open. *)
Lemma worker_step_lost (self self' : JackAudioSink) (pc pc' : worker)
    (io_ok : bool) (evs : list event) :
  worker_step self pc io_ok = Some (self', pc', evs) ->
  exists lost,
    hand (Some pc) ++ pops evs = writes evs ++ lost ++ hand (Some pc') /\
    (lost = [] \/ pc' = WDone \/ output_file self' = None) /\
    (io_ok = true ->
     (exists f, output_file self = Some f /\ closed f = false) ->
     lost = []).
Proof.
  intros H.
  worker_cases H; cbn;
    try (exists []; split; [ reflexivity | split; [ left; reflexivity | reflexivity ] ]).
  - exists [b]. split; [ reflexivity | ]. split; [ right; left; reflexivity | ].
    intros _ (f0 & Hf0 & Hc0). congruence.
  - exists [b]. split; [ reflexivity | ]. split; [ right; left; reflexivity | ].
    discriminate.
  - exists [b]. split; [ reflexivity | ]. split; [ right; right; assumption | ].
    intros _ (f0 & Hf0 & _). congruence.
Qed.

(** The writer returns without a failed write only from the [while]
    test, on a set stop flag and an empty queue; a returning step
    writes nothing. *)
Lemma worker_step_exit (self self' : JackAudioSink) (pc : worker)
    (io_ok : bool) (evs : list event) :
  worker_step self pc io_ok = Some (self', WDone, evs) ->
  writes evs = [] /\ pops evs = [] /\
  (io_ok = true ->
   (exists f, output_file self = Some f /\ closed f = false) ->
   should_stop self = true /\ audio_queue self' = []).
Proof.
  intros H. remember WDone as pc' eqn:Hpc' in H.
  worker_cases H; try discriminate Hpc'; cbn;
    (split; [ reflexivity | split; [ reflexivity | ] ]).
  - intros _ _. split; [ reflexivity | assumption ].
  - intros _ (f0 & Hf0 & Hc0). congruence.
  - discriminate.
Qed.

(** A step of the writer, seen from the world. *)
Lemma step_work_summary (tid t : nat) (io_ok : bool) (w w' : World)
    (evs : list event) :
  one_writer tid w ->
  step (Work t io_ok) w = Some (w', evs) ->
  exists pc pc',
    writer w = Some pc /\ writer w' = Some pc' /\
    worker_step (sink w) pc io_ok = Some (sink w', pc', evs) /\
    main w' = main w /\ saved w' = saved w.
Proof.
  intros Hone Hstep.
  destruct (step_work_inv tid t io_ok w w' evs Hone Hstep)
    as (-> & pc & self' & pc' & Hpc & Hws & Hth & ->).
  exists pc, pc'.
  split; [ rewrite (one_writer_writer tid w Hone); exact Hpc | ].
  split.
  { unfold writer. cbn [sink threads set_threads set_sink]. rewrite Hth.
    apply nth_error_update_same. exact (nth_error_in_range _ _ _ Hpc). }
  split; [ exact Hws | split; reflexivity ].
Qed.

Lemma alive_of_writer (w : World) (pc : worker) :
  writer w = Some pc -> thread_alive w = negb (worker_done pc).
Proof. intros H. now rewrite thread_alive_writer, H. Qed.

Lemma worker_step_alive (self self' : JackAudioSink) (pc pc' : worker)
    (io_ok : bool) (evs : list event) :
  worker_step self pc io_ok = Some (self', pc', evs) -> worker_done pc = false.
Proof. destruct pc; cbn; congruence. Qed.

(** The queue hands on what it was given, in order. *)
Lemma step_queue (tid : nat) (l : label) (w w' : World) (evs : list event) :
  one_writer tid w ->
  step l w = Some (w', evs) ->
  is_start l = false ->
  audio_queue (sink w) ++ pushes evs = pops evs ++ audio_queue (sink w').
Proof.
  intros Hone Hstep Hstart.
  destruct (label_work_dec l) as [(t & io_ok & ->) | Hwork].
  - destruct (step_work_summary tid t io_ok w w' evs Hone Hstep)
      as (pc & pc' & _ & _ & Hws & _ & _).
    destruct (worker_step_flags _ _ _ _ _ _ Hws) as (-> & _ & _).
    rewrite app_nil_r. exact (worker_step_queue _ _ _ _ _ _ Hws).
  - destruct (step_other_accounting l w w' evs Hstep Hstart Hwork)
      as (-> & _ & -> & _ & _). reflexivity.
Qed.

(** The file grows by what is written, in order. *)
Lemma step_recorded (tid : nat) (l : label) (w w' : World) (evs : list event) :
  one_writer tid w ->
  step l w = Some (w', evs) ->
  is_start l = false ->
  recorded w' = recorded w ++ writes evs.
Proof.
  intros Hone Hstep Hstart.
  destruct (label_work_dec l) as [(t & io_ok & ->) | Hwork].
  - destruct (step_work_summary tid t io_ok w w' evs Hone Hstep)
      as (pc & pc' & _ & _ & Hws & _ & Hsaved).
    unfold recorded, session_file. rewrite Hsaved.
    destruct (output_file (sink w)) as [f | ] eqn:Hf.
    + destruct (worker_step_file _ _ _ _ _ _ f Hws Hf) as (f' & -> & Hfr & _).
      exact Hfr.
    + destruct (worker_step_no_file _ _ _ _ _ _ Hws Hf) as (-> & ->).
      now rewrite app_nil_r.
  - destruct (step_other_accounting l w w' evs Hstep Hstart Hwork)
      as (_ & -> & _ & -> & _). now rewrite app_nil_r.
Qed.

(** Once the writer has returned it stays so, and pops nothing more. *)
Lemma step_dead (tid : nat) (l : label) (w w' : World) (evs : list event) :
  one_writer tid w ->
  step l w = Some (w', evs) ->
  is_start l = false ->
  thread_alive w = false ->
  thread_alive w' = false /\ pops evs = [] /\ writes evs = [].
Proof.
  intros Hone Hstep Hstart Hdead.
  destruct (label_work_dec l) as [(t & io_ok & ->) | Hwork].
  - destruct (step_work_summary tid t io_ok w w' evs Hone Hstep)
      as (pc & pc' & Hw & _ & Hws & _ & _).
    rewrite (alive_of_writer w pc Hw), (worker_step_alive _ _ _ _ _ _ Hws) in Hdead.
    discriminate Hdead.
  - destruct (step_other_accounting l w w' evs Hstep Hstart Hwork)
      as (-> & -> & _ & _ & _).
    rewrite thread_alive_writer in *.
    rewrite (step_other_writer l w w' evs Hstep Hstart Hwork).
    repeat split; trivial.
Qed.

(** Once the writer can write no more, nothing more is written. *)
Lemma step_stuck (tid : nat) (l : label) (w w' : World) (evs : list event) :
  one_writer tid w ->
  step l w = Some (w', evs) ->
  is_start l = false ->
  stuck w ->
  stuck w' /\ writes evs = [].
Proof.
  intros Hone Hstep Hstart [Hdead | Hnone].
  - destruct (step_dead tid l w w' evs Hone Hstep Hstart Hdead) as (H & _ & Hw).
    split; [ left; exact H | exact Hw ].
  - destruct (label_work_dec l) as [(t & io_ok & ->) | Hwork].
    + destruct (step_work_summary tid t io_ok w w' evs Hone Hstep)
        as (pc & pc' & _ & _ & Hws & _ & _).
      destruct (worker_step_no_file _ _ _ _ _ _ Hws Hnone) as (H & Hw).
      split; [ right; exact H | exact Hw ].
    + destruct (step_other_accounting l w w' evs Hstep Hstart Hwork)
        as (_ & Hw & _ & _ & H).
      split; [ right; exact (H Hnone) | exact Hw ].
Qed.

(** Popped blocks are written in the order of their popping; a block
    is lost only to a writer that can write no more, and none is lost
    while the run is orderly. *)
Lemma step_lost (tid : nat) (l : label) (w w' : World) (evs : list event) :
  one_writer tid w ->
  step l w = Some (w', evs) ->
  is_start l = false ->
  exists lost,
    in_hand w ++ pops evs = writes evs ++ lost ++ in_hand w' /\
    (lost = [] \/ stuck w') /\
    (orderly w -> undisturbed l = true -> lost = []).
Proof.
  intros Hone Hstep Hstart.
  destruct (label_work_dec l) as [(t & io_ok & ->) | Hwork].
  - destruct (step_work_summary tid t io_ok w w' evs Hone Hstep)
      as (pc & pc' & Hw & Hw' & Hws & _ & _).
    destruct (worker_step_lost _ _ _ _ _ _ Hws) as (lost & Heq & Hwhy & Hnone).
    exists lost. unfold in_hand. rewrite Hw, Hw'.
    split; [ exact Heq | split ].
    + destruct Hwhy as [H | [H | H]]; [ left; exact H | | ].
      * right. left. rewrite (alive_of_writer w' pc' Hw'), H. reflexivity.
      * right. right. exact H.
    + intros (Hopen & _) Hund. apply Hnone.
      * unfold undisturbed in Hund. cbn [is_start is_timeout is_io_failure negb andb] in Hund.
        destruct io_ok; [ reflexivity | discriminate Hund ].
      * apply Hopen.
        rewrite (alive_of_writer w pc Hw), (worker_step_alive _ _ _ _ _ _ Hws).
        reflexivity.
  - destruct (step_other_accounting l w w' evs Hstep Hstart Hwork)
      as (-> & -> & _ & _ & _).
    exists []. unfold in_hand.
    rewrite (step_other_writer l w w' evs Hstep Hstart Hwork).
    rewrite app_nil_r. repeat split; auto.
Qed.

Lemma undisturbed_no_start (l : label) : undisturbed l = true -> is_start l = false.
Proof. unfold undisturbed. destruct (is_start l); [ discriminate | reflexivity ]. Qed.

Lemma undisturbed_io (t : nat) (io_ok : bool) :
  undisturbed (Work t io_ok) = true -> io_ok = true.
Proof. unfold undisturbed. destruct io_ok; [ reflexivity | discriminate ]. Qed.

Lemma step_other_alive (l : label) (w w' : World) (evs : list event) :
  step l w = Some (w', evs) ->
  is_start l = false ->
  (forall t io_ok, l <> Work t io_ok) ->
  thread_alive w' = thread_alive w.
Proof.
  intros Hstep Hstart Hwork.
  rewrite !thread_alive_writer.
  now rewrite (step_other_writer l w w' evs Hstep Hstart Hwork).
Qed.

(** Orderliness carries over every step in which no write fails and
    no join times out. *)
Lemma step_orderly (tid : nat) (l : label) (w w' : World) (evs : list event) :
  one_writer tid w ->
  orderly w ->
  step l w = Some (w', evs) ->
  undisturbed l = true ->
  orderly w'.
Proof.
  intros Hone (O1 & O2 & O3 & O4) Hstep Hund.
  pose proof (undisturbed_no_start l Hund) as Hstart.
  destruct (label_work_dec l) as [(t & io_ok & ->) | Hwork].
  - destruct (step_work_summary tid t io_ok w w' evs Hone Hstep)
      as (pc & pc' & Hw & Hw' & Hws & Hmain & _).
    pose proof (undisturbed_io t io_ok Hund) as ->.
    assert (Halive : thread_alive w = true)
      by (rewrite (alive_of_writer w pc Hw), (worker_step_alive _ _ _ _ _ _ Hws);
          reflexivity).
    destruct (O1 Halive) as (f & Hf & Hc).
    destruct (worker_step_flags _ _ _ _ _ _ Hws) as (_ & Hstop & Hrec).
    destruct (worker_step_file _ _ _ _ _ _ f Hws Hf) as (f' & Hf' & _ & Hc').
    unfold orderly. rewrite Hmain, Hstop, Hrec.
    split; [ | split; [ | split ] ].
    + intros _. exists f'. split; [ exact Hf' | congruence ].
    + intros Hm. rewrite (O2 Hm) in Halive. discriminate Halive.
    + intros Hs. rewrite (alive_of_writer w' pc' Hw').
      destruct pc'; try reflexivity.
      destruct (worker_step_exit _ _ _ _ _ Hws) as (_ & _ & Hexit).
      destruct (Hexit eq_refl (ex_intro _ f (conj Hf Hc))) as (Hs' & _).
      congruence.
    + exact O4.
  - pose proof (step_other_alive l w w' evs Hstep Hstart Hwork) as Ha.
    unfold orderly. rewrite Ha.
    destruct l; cbn [step] in Hstep; try discriminate Hund.
    + destruct (rt w); [ | discriminate ].
      destruct (callback_read (sink w) inputs); injection Hstep as <- _;
        (split; [ exact O1 | split; [ exact O2 | split; [ exact O3 | exact O4 ] ] ]).
    + destruct (rt w) as [ | d]; [ discriminate | ].
      unfold callback_put in Hstep.
      destruct (queue_put (audio_queue (sink w)) d false);
        try discriminate; injection Hstep as <- _;
        (split; [ exact O1 | split; [ exact O2 | split; [ exact O3 | exact O4 ] ] ]).
    + exfalso. exact (Hwork tid0 io_ok eq_refl).
    + destruct (at_command w) eqn:Hat; [ | discriminate ].
      apply at_command_true in Hat.
      unfold stop_begin in Hstep.
      destruct (is_recording (sink w)) eqn:Hrec; cbn [negb] in Hstep;
        injection Hstep as <- _.
      * cbn [sink main set_main set_sink output_file should_stop is_recording
               set_should_stop set_is_recording].
        fold (thread_alive w).
        split; [ exact O1 | split; [ | split ] ]; try discriminate.
        destruct (thread_alive w); [ | reflexivity ].
        intros [H | H]; discriminate H.
      * split; [ exact O1 | split; [ exact O2 | split; [ exact O3 | ] ] ].
        intros H. congruence.
    + destruct (at_join w && negb (thread_alive w)) eqn:Hj; [ | discriminate ].
      apply andb_true_iff in Hj. destruct Hj as [Hat Hj].
      apply at_join_true in Hat. apply negb_true_iff in Hj.
      injection Hstep as <- _. cbn [stop_join sink main set_main].
      split; [ exact O1 | split; [ | split ] ]; try assumption.
      * intros _. exact Hj.
      * intros Hr. destruct (O4 Hr) as (_ & Hm). congruence.
    + destruct (main w) eqn:Hm; try discriminate.
      assert (Hdead : thread_alive w = false) by (apply O2; left; reflexivity).
      assert (Hrec : is_recording (sink w) = false).
      { destruct (is_recording (sink w)); [ | reflexivity ].
        destruct (O4 eq_refl) as (_ & H). discriminate H. }
      unfold stop_close in Hstep.
      destruct (output_file (sink w)) as [f | ]; injection Hstep as <- _;
        cbn [sink main set_main set_sink output_file should_stop is_recording
               set_output_file];
        (split; [ rewrite Hdead; discriminate
                | split; [ intros _; exact Hdead
                         | split; [ exact O3 | rewrite Hrec; discriminate ] ] ]).
    + destruct (main w) eqn:Hm; try discriminate.
      assert (Hdead : thread_alive w = false) by (apply O2; right; reflexivity).
      assert (Hrec : is_recording (sink w) = false).
      { destruct (is_recording (sink w)); [ | reflexivity ].
        destruct (O4 eq_refl) as (_ & H). discriminate H. }
      unfold stop_release in Hstep.
      destruct (output_file (sink w)) as [f | ]; injection Hstep as <- _;
        cbn [sink main set_main set_sink set_saved output_file should_stop
               is_recording set_output_file];
        (split; [ rewrite Hdead; discriminate
                | split; [ intros _; exact Hdead
                         | split; [ exact O3 | rewrite Hrec; discriminate ] ] ]).
Qed.

(** In an orderly run the writer returns only on an empty queue. *)
Lemma step_exit (tid : nat) (l : label) (w w' : World) (evs : list event) :
  one_writer tid w ->
  orderly w ->
  step l w = Some (w', evs) ->
  undisturbed l = true ->
  thread_alive w = true ->
  thread_alive w' = false ->
  audio_queue (sink w') = [] /\ pushes evs = [].
Proof.
  intros Hone (O1 & _) Hstep Hund Halive Hdead.
  pose proof (undisturbed_no_start l Hund) as Hstart.
  destruct (label_work_dec l) as [(t & io_ok & ->) | Hwork].
  - destruct (step_work_summary tid t io_ok w w' evs Hone Hstep)
      as (pc & pc' & Hw & Hw' & Hws & _ & _).
    pose proof (undisturbed_io t io_ok Hund) as ->.
    rewrite (alive_of_writer w' pc' Hw') in Hdead.
    destruct pc'; try discriminate Hdead.
    destruct (worker_step_exit _ _ _ _ _ Hws) as (_ & _ & Hexit).
    destruct (Hexit eq_refl (O1 Halive)) as (_ & Hq).
    destruct (worker_step_flags _ _ _ _ _ _ Hws) as (Hp & _ & _).
    split; assumption.
  - rewrite (step_other_alive l w w' evs Hstep Hstart Hwork) in Hdead. congruence.
Qed.

(** *** Runs of a session *)

Lemma pushes_app (e1 e2 : list event) : pushes (e1 ++ e2) = pushes e1 ++ pushes e2.
Proof.
  induction e1 as [ | e e1 IH]; [ reflexivity | ].
  destruct e; cbn [app pushes]; rewrite IH; reflexivity.
Qed.

Lemma pops_app (e1 e2 : list event) : pops (e1 ++ e2) = pops e1 ++ pops e2.
Proof.
  induction e1 as [ | e e1 IH]; [ reflexivity | ].
  destruct e; cbn [app pops]; rewrite IH; reflexivity.
Qed.

Lemma writes_app (e1 e2 : list event) : writes (e1 ++ e2) = writes e1 ++ writes e2.
Proof.
  induction e1 as [ | e e1 IH]; [ reflexivity | ].
  destruct e; cbn [app writes]; rewrite IH; reflexivity.
Qed.

Lemma run_cons_inv (l : label) (ls : list label) (w w' : World) (evs : list event) :
  run (l :: ls) w = Some (w', evs) ->
  exists w1 e1 e2,
    step l w = Some (w1, e1) /\ run ls w1 = Some (w', e2) /\ evs = e1 ++ e2.
Proof.
  cbn [run]. destruct (step l w) as [[w1 e1] | ] eqn:Hstep; [ | discriminate ].
  destruct (run ls w1) as [[w2 e2] | ] eqn:Hrun; [ | discriminate ].
  intros H. injection H as <- <-. exists w1, e1, e2.
  split; [ reflexivity | split; [ exact Hrun | reflexivity ] ].
Qed.

(** The books of a session with one writer, over any run of it: the
    queue hands on in order what it was given, the file holds what was
    written, and the blocks written are the first of the blocks
    popped. *)
Lemma run_accounting (tid : nat) (ls : list label) (w w' : World) (evs : list event) :
  one_writer tid w ->
  run ls w = Some (w', evs) ->
  forallb (fun l => negb (is_start l)) ls = true ->
  one_writer tid w' /\
  audio_queue (sink w) ++ pushes evs = pops evs ++ audio_queue (sink w') /\
  recorded w' = recorded w ++ writes evs /\
  (exists lost,
     in_hand w ++ pops evs = writes evs ++ lost ++ in_hand w' /\
     (lost = [] \/ stuck w')) /\
  (stuck w -> stuck w' /\ writes evs = []) /\
  (thread_alive w = false -> thread_alive w' = false /\ pops evs = []).
Proof.
  revert w evs. induction ls as [ | l ls IH]; intros w evs Hone Hrun Hns.
  - cbn [run] in Hrun. injection Hrun as <- <-. cbn [pushes pops writes].
    rewrite !app_nil_r.
    split; [ exact Hone | ]. split; [ reflexivity | ]. split; [ reflexivity | ].
    split; [ exists []; split; [ reflexivity | left; reflexivity ] | ].
    split; intros H; split; trivial.
  - cbn [forallb] in Hns. apply andb_true_iff in Hns. destruct Hns as [Hl Hns].
    apply negb_true_iff in Hl.
    destruct (run_cons_inv l ls w w' evs Hrun) as (w1 & e1 & e2 & Hstep & Hrest & ->).
    pose proof (step_one_writer tid l w w1 e1 Hone Hstep Hl) as Hone1.
    destruct (IH w1 e2 Hone1 Hrest Hns)
      as (Hone' & Hq & Hrec & (lostR & HlostR & HwhyR) & Hstuck & Hdead).
    rewrite pushes_app, pops_app, writes_app.
    split; [ exact Hone' | ].
    split.
    { rewrite app_assoc, (step_queue tid l w w1 e1 Hone Hstep Hl).
      rewrite <- !app_assoc. now rewrite Hq. }
    split.
    { rewrite Hrec, (step_recorded tid l w w1 e1 Hone Hstep Hl).
      now rewrite app_assoc. }
    split.
    { destruct (step_lost tid l w w1 e1 Hone Hstep Hl) as (lost1 & Hlost1 & Hwhy1 & _).
      destruct Hwhy1 as [-> | Hst1].
      - exists lostR. split; [ | exact HwhyR ].
        cbn [app] in Hlost1.
        rewrite app_assoc, Hlost1, <- !app_assoc. now rewrite HlostR.
      - destruct (Hstuck Hst1) as (Hst' & Hw2).
        exists (lost1 ++ lostR). split; [ | right; exact Hst' ].
        rewrite Hw2 in *. cbn [app] in HlostR.
        rewrite app_assoc, Hlost1, app_nil_r, <- !app_assoc. now rewrite HlostR. }
    split.
    { intros Hst.
      destruct (step_stuck tid l w w1 e1 Hone Hstep Hl Hst) as (Hst1 & Hw1).
      destruct (Hstuck Hst1) as (Hst' & Hw2).
      split; [ exact Hst' | ]. now rewrite Hw1, Hw2. }
    { intros Hd.
      destruct (step_dead tid l w w1 e1 Hone Hstep Hl Hd) as (Hd1 & Hp1 & _).
      destruct (Hdead Hd1) as (Hd' & Hp2).
      split; [ exact Hd' | ]. now rewrite Hp1, Hp2. }
Qed.

Lemma undisturbed_run_no_start (ls : list label) :
  forallb undisturbed ls = true ->
  forallb (fun l => negb (is_start l)) ls = true.
Proof.
  induction ls as [ | l ls IH]; [ reflexivity | ].
  cbn [forallb]. intros H. apply andb_true_iff in H. destruct H as [Hl Hls].
  rewrite (undisturbed_no_start l Hl), (IH Hls). reflexivity.
Qed.

(** The books of an orderly run: every block popped is written or in
    hand, and when the writer returns during the run, whatever the
    queue holds at the end was pushed after all that the writer took. *)
Lemma run_orderly (tid : nat) (ls : list label) (w w' : World) (evs : list event) :
  one_writer tid w ->
  orderly w ->
  run ls w = Some (w', evs) ->
  forallb undisturbed ls = true ->
  orderly w' /\
  in_hand w ++ pops evs = writes evs ++ in_hand w' /\
  (thread_alive w = true -> thread_alive w' = false ->
   exists later, pushes evs = later ++ audio_queue (sink w')).
Proof.
  revert w evs. induction ls as [ | l ls IH]; intros w evs Hone Hord Hrun Hund.
  - cbn [run] in Hrun. injection Hrun as <- <-. cbn [pushes pops writes].
    rewrite app_nil_r.
    split; [ exact Hord | split; [ reflexivity | ] ].
    intros H1 H2. congruence.
  - cbn [forallb] in Hund. apply andb_true_iff in Hund. destruct Hund as [Hl Hund].
    pose proof (undisturbed_no_start l Hl) as Hns.
    destruct (run_cons_inv l ls w w' evs Hrun) as (w1 & e1 & e2 & Hstep & Hrest & ->).
    pose proof (step_one_writer tid l w w1 e1 Hone Hstep Hns) as Hone1.
    pose proof (step_orderly tid l w w1 e1 Hone Hord Hstep Hl) as Hord1.
    destruct (IH w1 e2 Hone1 Hord1 Hrest Hund) as (Hord' & Hhand & Hexit).
    rewrite pushes_app, pops_app, writes_app.
    split; [ exact Hord' | split ].
    + destruct (step_lost tid l w w1 e1 Hone Hstep Hns) as (lost1 & Hlost1 & _ & Hnone).
      rewrite (Hnone Hord Hl) in Hlost1. cbn [app] in Hlost1.
      rewrite app_assoc, Hlost1, <- !app_assoc. now rewrite Hhand.
    + intros Halive Hdead.
      destruct (thread_alive w1) eqn:Ha1.
      * destruct (Hexit eq_refl Hdead) as (later & Hlater).
        exists (pushes e1 ++ later). now rewrite Hlater, app_assoc.
      * destruct (step_exit tid l w w1 e1 Hone Hord Hstep Hl Halive Ha1) as (Hq1 & Hp1).
        destruct (run_accounting tid ls w1 w' e2 Hone1 Hrest
                    (undisturbed_run_no_start ls Hund))
          as (_ & Hq & _ & _ & _ & Hd).
        destruct (Hd Ha1) as (_ & Hp2).
        rewrite Hq1, Hp2 in Hq. cbn [app] in Hq.
        exists []. now rewrite Hp1, Hq.
Qed.

(** A session given by its labels is checked by running it. *)
Ltac run_session :=
  unfold session; eexists; eexists; eexists;
  split; [ vm_compute; reflexivity | ];
  split; [ vm_compute; reflexivity | ];
  split; [ vm_compute; reflexivity | ];
  split; vm_compute; reflexivity.

(** What [start_recording] hands to the session. *)
Lemma session_start (w0 w1 : World) (filename : option string) (env : start_env)
    (evs1 : list event) (started : bool) :
  idle w0 = true ->
  start_recording w0 filename env = Return (w1, evs1, started) ->
  is_recording (sink w1) = true ->
  one_writer (length (threads w0)) w1 /\
  orderly w1 /\
  in_hand w1 = [] /\ audio_queue (sink w1) = [] /\ recorded w1 = [] /\
  thread_alive w1 = true.
Proof.
  intros Hidle Hstart Hrec.
  unfold idle in Hidle. apply andb_true_iff in Hidle. destruct Hidle as [Hidle Hcmd].
  apply andb_true_iff in Hidle. destruct Hidle as [Hrec0 Hdone].
  apply negb_true_iff in Hrec0.
  destruct (start_recording_begins w0 w1 filename env evs1 started Hstart Hrec0 Hrec)
    as (Hq & Hstop & Hth & Hthreads & (f & Hf & Hfr & Hc) & Hmain & _ & _).
  apply at_command_true in Hcmd.
  assert (Hw : writer w1 = Some WTest).
  { unfold writer. rewrite Hth, Hthreads.
    rewrite nth_error_app2 by lia. now rewrite Nat.sub_diag. }
  assert (Ha : thread_alive w1 = true) by (now rewrite (alive_of_writer w1 WTest Hw)).
  split.
  { split; [ exact Hth | split ].
    - exists WTest. unfold writer in Hw. now rewrite Hth in Hw.
    - intros t pc Ht Hpc. rewrite Hthreads in Hpc.
      assert (Hlt : (t < length (threads w0))%nat).
      { apply nth_error_in_range in Hpc. rewrite length_app in Hpc.
        cbn [length] in Hpc. lia. }
      rewrite nth_error_app1 in Hpc by exact Hlt.
      rewrite forallb_forall in Hdone.
      apply nth_error_In in Hpc. apply Hdone in Hpc.
      destruct pc; try discriminate Hpc. reflexivity. }
  split.
  { unfold orderly. rewrite Ha, Hmain, Hcmd, Hstop.
    split; [ intros _; exists f; split; assumption | ].
    split; [ intros [H | H]; discriminate H | ].
    split; [ reflexivity | intros _; split; reflexivity ]. }
  split; [ unfold in_hand; now rewrite Hw | ].
  split; [ exact Hq | ].
  split; [ unfold recorded, session_file; now rewrite Hf | exact Ha ].
Qed.

Lemma dead_writer_holds_nothing (tid : nat) (w : World) :
  one_writer tid w -> thread_alive w = false -> in_hand w = [].
Proof.
  intros (Hth & (pc & Hpc) & _) Hdead.
  assert (Hw : writer w = Some pc) by (unfold writer; now rewrite Hth).
  rewrite (alive_of_writer w pc Hw) in Hdead.
  unfold in_hand. rewrite Hw. destruct pc; try discriminate Hdead. reflexivity.
Qed.

(** *** The order of the blocks *)

(** C2, as the code has it. In every capture session that starts
    when every writer thread of an earlier session has returned, the
    blocks written to the file are, in order, the first of the blocks
    popped from the queue, and the blocks popped are, in order, the
    first of the blocks the queue accepted: nothing is written twice or
    out of turn, and the file holds exactly the blocks written.
    Written and popped agree up to the block in the writer's hand, and
    so agree once the writer has returned, as long as no write has
    failed and no join has timed out. *)
Theorem writes_follow_pops (w0 : World) (filename : option string)
    (env : start_env) (ls : list label) (w : World) (evs : list event) :
  idle w0 = true ->
  session w0 filename env ls w evs ->
  (exists lost, pops evs = writes evs ++ lost) /\
  pushes evs = pops evs ++ audio_queue (sink w) /\
  recorded w = writes evs /\
  (forallb undisturbed ls = true ->
   pops evs = writes evs ++ in_hand w /\
   (thread_alive w = false -> writes evs = pops evs)).
Proof.
  intros Hidle (w1 & evs1 & started & Hstart & _ & Hrec1 & Hns & Hrun).
  destruct (session_start w0 w1 filename env evs1 started Hidle Hstart Hrec1)
    as (Hone & Hord & Hhand & Hq & Hrec & _).
  destruct (run_accounting _ ls w1 w evs Hone Hrun Hns)
    as (Hone' & Hqueue & Hfile & (lost & Hlost & _) & _ & _).
  rewrite Hq in Hqueue. rewrite Hhand in Hlost. rewrite Hrec in Hfile.
  cbn [app] in Hqueue, Hlost, Hfile.
  split; [ exists (lost ++ in_hand w); exact Hlost | ].
  split; [ exact Hqueue | ].
  split; [ exact Hfile | ].
  intros Hund.
  destruct (run_orderly _ ls w1 w evs Hone Hord Hrun Hund) as (_ & Heq & _).
  rewrite Hhand in Heq. cbn [app] in Heq.
  split; [ exact Heq | ].
  intros Hdead.
  rewrite (dead_writer_holds_nothing _ w Hone' Hdead), app_nil_r in Heq.
  symmetry. exact Heq.
Qed.

(** Two callbacks, and a writer that has written the first block and
    holds the second. *)
Lemma writes_follow_pops_witness :
  let w := fst (outcome_of two_blocks recording_world) in
  let evs := snd (outcome_of two_blocks recording_world) in
  idle (boot 2 48000) = true /\
  session (boot 2 48000) (Some "take.wav"%string) env_ok two_blocks w evs /\
  pushes evs = [blk 1; blk 2] /\
  pops evs = [blk 1; blk 2] /\
  writes evs = [blk 1] /\
  in_hand w = [blk 2] /\
  (exists lost, pops evs = writes evs ++ lost) /\
  recorded w = writes evs.
Proof.
  intros w evs.
  assert (Hs : session (boot 2 48000) (Some "take.wav"%string) env_ok
                 two_blocks w evs).
  { run_session. }
  split; [ reflexivity | ].
  split; [ exact Hs | ].
  split; [ reflexivity | ]. split; [ reflexivity | ].
  split; [ reflexivity | ]. split; [ reflexivity | ].
  pose proof (writes_follow_pops (boot 2 48000) _ _ _ _ _ eq_refl Hs)
    as (Hprefix & _ & Hfile & _).
  split; [ exact Hprefix | exact Hfile ].
Defined.

(** C2, as stated, fails: when the disk refuses the write of the
    first block, the block has been popped and is not in the file. *)
Lemma failed_write_is_popped_not_written :
  exists w evs,
    session (boot 2 48000) (Some "take.wav"%string) env_ok
      [CallbackBegin (stereo_in 1); CallbackPut;
       Work 0 true; Work 0 true; Work 0 false] w evs /\
    thread_alive w = false /\
    pops evs = [blk 1] /\
    writes evs = [] /\
    recorded w = [] /\
    writes evs <> pops evs.
Proof.
  eexists; eexists. split.
  { run_session. }
  split; [ reflexivity | ]. split; [ reflexivity | ].
  split; [ reflexivity | ]. split; [ reflexivity | ].
  discriminate.
Qed.

(** Why the session has to start with the earlier writers gone: a
    writer that a timed-out join has left behind goes on in the next
    session, where it writes its old block into the new file and then
    shares the queue with the new writer.  No write fails and no join
    times out in that session, yet the blocks written are not the
    blocks popped, nor in their order. *)
Example stale_writer_reorders_writes :
  let w := fst (outcome_of two_writers
                  (fst (outcome_of [StartRecording (Some "next.wav"%string) env_ok]
                          stale_world))) in
  let evs := snd (outcome_of two_writers
                    (fst (outcome_of [StartRecording (Some "next.wav"%string) env_ok]
                            stale_world))) in
  idle stale_world = false /\
  is_recording (sink stale_world) = false /\
  session stale_world (Some "next.wav"%string) env_ok two_writers w evs /\
  forallb undisturbed two_writers = true /\
  pops evs = [blk 2; blk 3] /\
  writes evs = [blk 1; blk 3; blk 2] /\
  recorded w = [blk 1; blk 3; blk 2] /\
  ~ exists lost, pops evs = writes evs ++ lost.
Proof.
  intros w evs.
  split; [ vm_compute; reflexivity | ]. split; [ vm_compute; reflexivity | ]. split.
  { run_session. }
  split; [ reflexivity | ]. split; [ vm_compute; reflexivity | ].
  split; [ vm_compute; reflexivity | ]. split; [ vm_compute; reflexivity | ].
  intros (lost & H). vm_compute in H. discriminate.
Qed.

(** *** The writer does return *)

(** A writer that has been asked to stop, in an orderly session, can
    take its next step, and is then nearer to returning. *)
Lemma writer_progress (tid : nat) (w : World) :
  one_writer tid w ->
  orderly w ->
  should_stop (sink w) = true ->
  thread_alive w = true ->
  exists w1 e1,
    step (Work tid true) w = Some (w1, e1) /\
    (steps_left_of w1 < steps_left_of w)%nat.
Proof.
  intros Hone (O1 & _) Hstop Halive.
  pose proof Hone as (Hth & (pc & Hpc) & _).
  pose proof (nth_error_in_range _ _ _ Hpc) as Hlt.
  assert (Hw : writer w = Some pc) by (unfold writer; now rewrite Hth).
  destruct (O1 Halive) as (f & Hf & Hc).
  rewrite (alive_of_writer w pc Hw) in Halive.
  unfold steps_left_of at 2. rewrite Hw.
  cbn [step]. rewrite Hpc.
  assert (Hw1 : forall self' pc',
             write_thread self' = Some tid ->
             writer (set_threads (set_sink w self') (update (threads w) tid pc'))
             = Some pc').
  { intros self' pc' H. unfold writer. cbn [sink threads set_threads set_sink].
    rewrite H. apply nth_error_update_same. exact Hlt. }
  destruct pc as [ | | b | ]; cbn [worker_step]; try discriminate Halive.
  - rewrite Hstop. cbn [negb orb].
    destruct (audio_queue (sink w)) as [ | b q] eqn:Hq; cbn [queue_empty negb];
      eexists; eexists; (split; [ reflexivity | ]);
      unfold steps_left_of; rewrite Hw1 by exact Hth;
      cbn [sink set_threads set_sink]; rewrite Hq; cbn [length steps_left]; lia.
  - destruct (audio_queue (sink w)) as [ | b q] eqn:Hq; cbn [queue_get];
      eexists; eexists; (split; [ reflexivity | ]);
      unfold steps_left_of; rewrite Hw1 by exact Hth;
      cbn [sink set_threads set_sink audio_queue set_audio_queue];
      rewrite ?Hq; cbn [length steps_left]; lia.
  - rewrite Hf. unfold sf_write. rewrite Hc.
    eexists; eexists. split; [ reflexivity | ].
    unfold steps_left_of. rewrite Hw1 by exact Hth.
    cbn [sink set_threads set_sink audio_queue set_output_file].
    destruct (length (audio_queue (sink w))); cbn [steps_left]; lia.
Qed.

(** Left to itself after the stop flag is set, the writer returns,
    having written the block in its hand and all that was queued. *)
Lemma writer_drains (tid : nat) (w : World) :
  one_writer tid w ->
  orderly w ->
  should_stop (sink w) = true ->
  thread_alive w = true ->
  exists n w' evs,
    run (repeat (Work tid true) n) w = Some (w', evs) /\
    thread_alive w' = false /\
    recorded w' = recorded w ++ in_hand w ++ audio_queue (sink w).
Proof.
  intros Hone Hord Hstop Halive.
  assert (Hreach : exists n w' evs,
             run (repeat (Work tid true) n) w = Some (w', evs) /\
             thread_alive w' = false).
  { clear Halive. remember (steps_left_of w) as m eqn:Hm.
    revert w Hone Hord Hstop Hm.
    induction m as [m IH] using lt_wf_ind; intros w Hone Hord Hstop Hm.
    destruct (thread_alive w) eqn:Halive.
    - destruct (writer_progress tid w Hone Hord Hstop Halive) as (w1 & e1 & Hstep & Hless).
      pose proof (step_one_writer tid _ w w1 e1 Hone Hstep eq_refl) as Hone1.
      pose proof (step_orderly tid _ w w1 e1 Hone Hord Hstep eq_refl) as Hord1.
      assert (Hstop1 : should_stop (sink w1) = true).
      { destruct (step_work_summary tid tid true w w1 e1 Hone Hstep)
          as (pc & pc' & _ & _ & Hws & _ & _).
        destruct (worker_step_flags _ _ _ _ _ _ Hws) as (_ & -> & _). exact Hstop. }
      destruct (IH (steps_left_of w1) ltac:(lia) w1 Hone1 Hord1 Hstop1 eq_refl)
        as (n & w' & evs & Hrun & Hdead).
      exists (S n), w', (e1 ++ evs). cbn [repeat run]. rewrite Hstep, Hrun.
      split; [ reflexivity | exact Hdead ].
    - exists 0%nat, w, []. split; [ reflexivity | exact Halive ]. }
  destruct Hreach as (n & w' & evs & Hrun & Hdead).
  exists n, w', evs. split; [ exact Hrun | split; [ exact Hdead | ] ].
  assert (Hund : forallb undisturbed (repeat (Work tid true) n) = true).
  { clear. induction n as [ | n IH]; [ reflexivity | ].
    cbn [repeat forallb]. rewrite IH. reflexivity. }
  destruct (run_orderly tid _ w w' evs Hone Hord Hrun Hund) as (_ & Hhand & Hexit).
  destruct (run_accounting tid _ w w' evs Hone Hrun (undisturbed_run_no_start _ Hund))
    as (Hone' & Hqueue & Hfile & _).
  rewrite (dead_writer_holds_nothing tid w' Hone' Hdead), app_nil_r in Hhand.
  assert (Hpush : pushes evs = []).
  { clear - Hrun Hone. revert w evs Hone Hrun.
    induction n as [ | n IH]; intros w evs Hone Hrun.
    - cbn [repeat run] in Hrun. injection Hrun as _ <-. reflexivity.
    - cbn [repeat] in Hrun.
      destruct (run_cons_inv _ _ w w' evs Hrun) as (w1 & e1 & e2 & Hstep & Hrest & ->).
      destruct (step_work_summary tid tid true w w1 e1 Hone Hstep)
        as (pc & pc' & _ & _ & Hws & _ & _).
      destruct (worker_step_flags _ _ _ _ _ _ Hws) as (Hp & _ & _).
      rewrite pushes_app, Hp.
      exact (IH w1 e2 (step_one_writer tid _ w w1 e1 Hone Hstep eq_refl) Hrest). }
  rewrite Hpush, app_nil_r in Hqueue.
  destruct (Hexit Halive Hdead) as (later & Hlater).
  rewrite Hpush in Hlater. symmetry in Hlater.
  apply app_eq_nil in Hlater. destruct Hlater as (_ & Hq').
  rewrite Hq', app_nil_r in Hqueue.
  rewrite Hfile, <- Hhand, Hqueue. reflexivity.
Qed.

(** *** Stopping *)

(** C4, as the code has it. Take a session that started when every
    writer thread of an earlier session had returned and in which no
    write has failed, and call [stop_recording] while it records.  The
    writer is running then.  If from there on no write fails and no
    join times out, the writer returns only with the stop flag set, and
    by then the file holds, after what it held at the call, the block
    the writer had in hand and every block that was in the queue, in
    order.  And the writer does return: left to run after the call, it
    comes to its end with exactly those blocks added to the file. *)
Theorem clean_stop_drains_queue (w0 : World) (filename : option string)
    (env : start_env) (ls1 : list label) (w1 : World) (evs1 : list event) :
  idle w0 = true ->
  session w0 filename env ls1 w1 evs1 ->
  is_recording (sink w1) = true ->
  forallb undisturbed ls1 = true ->
  thread_alive w1 = true /\
  (forall ls2 w2 evs2,
      run (StopRecording :: ls2) w1 = Some (w2, evs2) ->
      forallb undisturbed ls2 = true ->
      thread_alive w2 = false ->
      should_stop (sink w2) = true /\
      exists later,
        recorded w2 = recorded w1 ++ in_hand w1 ++ audio_queue (sink w1) ++ later) /\
  (exists tid n w2 evs2,
      run (StopRecording :: repeat (Work tid true) n) w1 = Some (w2, evs2) /\
      thread_alive w2 = false /\
      recorded w2 = recorded w1 ++ in_hand w1 ++ audio_queue (sink w1)).
Proof.
  intros Hidle (ws & evss & started & Hstart & _ & Hrecs & Hns & Hrun1) Hrec Hund1.
  destruct (session_start w0 ws filename env evss started Hidle Hstart Hrecs)
    as (Hone & Hord & _).
  destruct (run_accounting _ ls1 ws w1 evs1 Hone Hrun1 Hns) as (Hone1 & _).
  destruct (run_orderly _ ls1 ws w1 evs1 Hone Hord Hrun1 Hund1) as (Hord1 & _).
  assert (Halive : thread_alive w1 = true).
  { destruct Hord1 as (_ & _ & O3 & O4). apply O3. apply (O4 Hrec). }
  split; [ exact Halive | split ].
  - intros ls2 w2 evs2 Hrun2 Hund2 Hdead.
    assert (Hund2' : forallb undisturbed (StopRecording :: ls2) = true)
      by (cbn [forallb]; rewrite Hund2; reflexivity).
    destruct (run_orderly _ _ w1 w2 evs2 Hone1 Hord1 Hrun2 Hund2')
      as (Hord2 & Hhand & Hexit).
    destruct (run_accounting _ _ w1 w2 evs2 Hone1 Hrun2
                (undisturbed_run_no_start _ Hund2'))
      as (Hone2 & Hqueue & Hfile & _).
    split.
    { destruct Hord2 as (_ & _ & O3 & _).
      destruct (should_stop (sink w2)); [ reflexivity | ].
      rewrite (O3 eq_refl) in Hdead. discriminate Hdead. }
    destruct (Hexit Halive Hdead) as (later & Hlater).
    exists later.
    rewrite (dead_writer_holds_nothing _ w2 Hone2 Hdead), app_nil_r in Hhand.
    rewrite Hlater, app_assoc in Hqueue. apply app_inv_tail in Hqueue.
    rewrite Hfile, <- Hhand, <- Hqueue. reflexivity.
  - assert (Hmain : main w1 = MCommand).
    { destruct Hord1 as (_ & _ & _ & O4). apply (O4 Hrec). }
    assert (Hstep : step StopRecording w1 = Some (stop_begin w1)).
    { cbn [step]. unfold at_command. now rewrite Hmain. }
    destruct (stop_begin w1) as [w1' e1] eqn:Hsb.
    assert (Hwork : forall t io_ok, StopRecording <> Work t io_ok)
      by (intros; discriminate).
    pose proof (step_one_writer _ _ w1 w1' e1 Hone1 Hstep eq_refl) as Hone1'.
    pose proof (step_orderly _ _ w1 w1' e1 Hone1 Hord1 Hstep eq_refl) as Hord1'.
    pose proof (step_other_alive _ w1 w1' e1 Hstep eq_refl Hwork) as Ha.
    pose proof (step_other_writer _ w1 w1' e1 Hstep eq_refl Hwork) as Hw.
    destruct (step_other_accounting _ w1 w1' e1 Hstep eq_refl Hwork)
      as (_ & _ & Hq & Hfile & _).
    assert (Hpush : pushes e1 = [] /\ should_stop (sink w1') = true).
    { unfold stop_begin in Hsb. rewrite Hrec in Hsb. cbn [negb] in Hsb.
      injection Hsb as <- <-. split; reflexivity. }
    destruct Hpush as (Hpush & Hstop).
    rewrite Hpush, app_nil_r in Hq. rewrite Halive in Ha.
    destruct (writer_drains _ w1' Hone1' Hord1' Hstop Ha)
      as (n & w2 & evs2 & Hrun2 & Hdead & Hrecd).
    exists (length (threads w0)), n, w2, (e1 ++ evs2).
    split; [ cbn [run]; rewrite Hstep, Hrun2; reflexivity | ].
    split; [ exact Hdead | ].
    unfold in_hand in *. rewrite Hrecd, Hfile, Hw, Hq. reflexivity.
Qed.

(** The session of [one_in_hand], stopped cleanly: both blocks end up
    in the file. *)
Lemma clean_stop_drains_queue_witness :
  let w1 := fst (outcome_of one_in_hand recording_world) in
  let w2 := fst (outcome_of (StopRecording :: clean_stop) w1) in
  idle (boot 2 48000) = true /\
  in_hand w1 = [blk 1] /\
  audio_queue (sink w1) = [blk 2] /\
  recorded w2 = [blk 1; blk 2] /\
  thread_alive w1 = true /\
  should_stop (sink w2) = true /\
  exists later,
    recorded w2 = recorded w1 ++ in_hand w1 ++ audio_queue (sink w1) ++ later.
Proof.
  intros w1 w2. split; [ reflexivity | ].
  split; [ reflexivity | ]. split; [ reflexivity | ]. split; [ reflexivity | ].
  assert (Hs : session (boot 2 48000) (Some "take.wav"%string) env_ok
                 one_in_hand w1 (snd (outcome_of one_in_hand recording_world))).
  { run_session. }
  destruct (clean_stop_drains_queue (boot 2 48000) _ _ _ _ _ eq_refl Hs
              eq_refl eq_refl)
    as (Halive & Hsafe & _).
  split; [ exact Halive | ].
  apply (Hsafe clean_stop w2 (snd (outcome_of (StopRecording :: clean_stop) w1))).
  - vm_compute. reflexivity.
  - reflexivity.
  - reflexivity.
Defined.

(** C4, as stated, fails: no write fails, but the write in progress
    when [stop_recording] is called outlasts the join; the file is
    closed and let go of, the writer then pops the queued block, finds
    no file, and returns with the block unwritten. *)
Lemma late_stop_loses_queued_block :
  let w1 := fst (outcome_of one_in_hand recording_world) in
  let evs1 := snd (outcome_of one_in_hand recording_world) in
  let w2 := fst (outcome_of (StopRecording :: late_stop) w1) in
  let evs2 := snd (outcome_of (StopRecording :: late_stop) w1) in
  idle (boot 2 48000) = true /\
  session (boot 2 48000) (Some "take.wav"%string) env_ok one_in_hand w1 evs1 /\
  is_recording (sink w1) = true /\
  audio_queue (sink w1) = [blk 2] /\
  run (StopRecording :: late_stop) w1 = Some (w2, evs2) /\
  forallb (fun l => negb (is_io_failure l)) (one_in_hand ++ late_stop) = true /\
  prints evs2 = ["Stopping recording..."; "Recording saved: take.wav"]%string /\
  thread_alive w2 = false /\
  pops evs2 = [blk 2] /\
  recorded w2 = [blk 1] /\
  ~ exists later,
      recorded w2 = recorded w1 ++ in_hand w1 ++ audio_queue (sink w1) ++ later.
Proof.
  intros w1 evs1 w2 evs2.
  split; [ reflexivity | ]. split.
  { run_session. }
  split; [ reflexivity | ]. split; [ reflexivity | ].
  split; [ vm_compute; reflexivity | ].
  split; [ reflexivity | ]. split; [ reflexivity | ].
  split; [ reflexivity | ]. split; [ reflexivity | ].
  split; [ reflexivity | ].
  intros (later & H). vm_compute in H. discriminate H.
Qed.

(** Why the session has to start with the earlier writers gone: with
    a writer that a timed-out join has left behind, a stop in which no
    write fails and the join comes back in time can still lose the
    block that was queued when it was called, taken by the old writer
    and never written. *)
Example stale_writer_defeats_clean_stop :
  let w0 := fst (outcome_of [StartRecording (Some "next.wav"%string) env_ok]
                   stale_world) in
  let w1 := fst (outcome_of stale_start w0) in
  let evs1 := snd (outcome_of stale_start w0) in
  let w2 := fst (outcome_of (StopRecording :: joined_stop) w1) in
  let evs2 := snd (outcome_of (StopRecording :: joined_stop) w1) in
  idle stale_world = false /\
  session stale_world (Some "next.wav"%string) env_ok stale_start w1 evs1 /\
  is_recording (sink w1) = true /\
  forallb undisturbed (stale_start ++ joined_stop) = true /\
  audio_queue (sink w1) = [blk 2] /\
  run (StopRecording :: joined_stop) w1 = Some (w2, evs2) /\
  thread_alive w2 = false /\
  pops evs2 = [blk 2] /\
  writes evs2 = [] /\
  recorded w2 = [blk 1] /\
  ~ exists later,
      recorded w2 = recorded w1 ++ in_hand w1 ++ audio_queue (sink w1) ++ later.
Proof.
  intros w0 w1 evs1 w2 evs2.
  split; [ vm_compute; reflexivity | ]. split.
  { run_session. }
  split; [ vm_compute; reflexivity | ]. split; [ reflexivity | ].
  split; [ vm_compute; reflexivity | ].
  split; [ vm_compute; reflexivity | ].
  split; [ vm_compute; reflexivity | ]. split; [ vm_compute; reflexivity | ].
  split; [ vm_compute; reflexivity | ]. split; [ vm_compute; reflexivity | ].
  intros (later & H). vm_compute in H. discriminate H.
Qed.


(** *** Further facts *)

(** The two stretches of the callback, run one after the other, do
    what [process_callback] does. *)
Lemma callback_steps_agree (w : World) (inputs : list (list sample))
    (self' : JackAudioSink) (evs : list event) :
  rt w = RIdle ->
  process_callback (sink w) inputs = Done (self', evs) ->
  (step (CallbackBegin inputs) w = Some (w, evs) /\ self' = sink w) \/
  run [CallbackBegin inputs; CallbackPut] w
    = Some (set_rt (set_sink w self') RIdle, evs).
Proof.
  intros Hrt Hcall. unfold process_callback in Hcall.
  cbn [run step]. rewrite Hrt.
  destruct (callback_read (sink w) inputs) as [evs0 | audio_data].
  - left. injection Hcall as <- <-. split; reflexivity.
  - right. cbn [rt set_rt sink]. rewrite Hcall.
    cbn [app]. rewrite app_nil_r. reflexivity.
Qed.

Lemma step_queue_bounded (l : label) (w w' : World) (evs : list event) :
  (length (audio_queue (sink w)) <= maxsize)%nat ->
  step l w = Some (w', evs) ->
  (length (audio_queue (sink w')) <= maxsize)%nat.
Proof.
  intros Hb Hstep.
  destruct l; cbn [step] in Hstep.
  - destruct (rt w); [ | discriminate ].
    destruct (callback_read (sink w) inputs); injection Hstep as <- _; exact Hb.
  - destruct (rt w) as [ | d]; [ discriminate | ].
    unfold callback_put, queue_put in Hstep.
    destruct (queue_full (audio_queue (sink w))) eqn:Hfull.
    + injection Hstep as <- _. exact Hb.
    + injection Hstep as <- _. cbn. unfold queue_full in Hfull.
      apply Nat.leb_gt in Hfull. rewrite length_app. cbn [length]. lia.
  - destruct (nth_error (threads w) tid) as [pc | ]; [ | discriminate ].
    destruct (worker_step (sink w) pc io_ok) as [[[self' pc'] evs'] | ] eqn:Hws;
      [ | discriminate ].
    injection Hstep as <- _. cbn [sink set_threads set_sink].
    pose proof (worker_step_queue _ _ _ _ _ _ Hws) as Hq.
    rewrite Hq, length_app in Hb. lia.
  - destruct (at_command w); [ | discriminate ].
    unfold start_recording in Hstep.
    destruct (is_recording (sink w)); [ injection Hstep as <- _; exact Hb | ].
    destruct (makedirs_ok env); cbn [negb] in Hstep; [ | discriminate ].
    destruct (open_ok env); cbn [negb] in Hstep;
      [ | injection Hstep as <- _; exact Hb ].
    destruct (thread_ok env); cbn [negb] in Hstep;
      [ destruct (announce_ok env) | ];
      injection Hstep as <- _; cbn; rewrite clear_queue_empty; cbn; lia.
  - destruct (at_command w); [ | discriminate ].
    unfold stop_begin in Hstep.
    destruct (negb (is_recording (sink w))); injection Hstep as <- _; exact Hb.
  - destruct (at_join w && negb (thread_alive w)); [ | discriminate ].
    injection Hstep as <- _; exact Hb.
  - destruct (at_join w && thread_alive w); [ | discriminate ].
    injection Hstep as <- _; exact Hb.
  - destruct (main w); try discriminate. unfold stop_close in Hstep.
    destruct (output_file (sink w)); injection Hstep as <- _; exact Hb.
  - destruct (main w); try discriminate. unfold stop_release in Hstep.
    destruct (output_file (sink w)); injection Hstep as <- _; exact Hb.
Qed.

Lemma run_queue_bounded (ls : list label) (w w' : World) (evs : list event) :
  (length (audio_queue (sink w)) <= maxsize)%nat ->
  run ls w = Some (w', evs) ->
  (length (audio_queue (sink w')) <= maxsize)%nat.
Proof.
  revert w evs. induction ls as [ | l ls IH]; intros w evs Hb Hrun.
  - cbn [run] in Hrun. injection Hrun as <- _. exact Hb.
  - destruct (run_cons_inv l ls w w' evs Hrun) as (w1 & e1 & e2 & Hstep & Hrest & _).
    exact (IH w1 e2 (step_queue_bounded l w w1 e1 Hb Hstep) Hrest).
Qed.

(** Whatever the threads of a recorder do, from its creation on, the
    queue never holds more than its hundred blocks. *)
Theorem queue_never_overflows (chans rate : Z) (ls : list label) :
  match run ls (boot chans rate) with
  | Some (w, _) => (length (audio_queue (sink w)) <= maxsize)%nat
  | None => True
  end.
Proof.
  destruct (run ls (boot chans rate)) as [[w evs] | ] eqn:Hrun; [ | exact I ].
  apply (run_queue_bounded ls (boot chans rate) w evs); [ | exact Hrun ].
  cbn. unfold maxsize. lia.
Qed.

(** Stopping a recorder that is not recording does nothing. *)
Theorem stop_while_idle_is_noop (w : World) :
  is_recording (sink w) = false ->
  stop_begin w = (w, []) /\
  (main w = MCommand -> step StopRecording w = Some (w, [])).
Proof.
  intros H. unfold stop_begin. rewrite H. cbn [negb].
  split; [ reflexivity | ].
  intros Hm. cbn [step]. unfold at_command, stop_begin. rewrite Hm, H. reflexivity.
Qed.

Lemma stop_while_idle_is_noop_witness :
  stop_begin (boot 2 48000) = (boot 2 48000, []) /\
  (main (boot 2 48000) = MCommand ->
   step StopRecording (boot 2 48000) = Some (boot 2 48000, [])).
Proof.
  apply (stop_while_idle_is_noop (boot 2 48000)). reflexivity.
Defined.

(** Once [stop_recording] has been called on a session that started
    with the earlier writers gone and in which no write has failed, the
    writer, left to run, returns after finitely many steps, with the
    block it held and the queued blocks written. *)
Theorem stopped_writer_returns (w0 : World) (filename : option string)
    (env : start_env) (ls : list label) (w : World) (evs : list event) :
  idle w0 = true ->
  session w0 filename env ls w evs ->
  forallb undisturbed ls = true ->
  should_stop (sink w) = true ->
  thread_alive w = true ->
  exists n w' evs',
    run (repeat (Work (length (threads w0)) true) n) w = Some (w', evs') /\
    thread_alive w' = false /\
    recorded w' = recorded w ++ in_hand w ++ audio_queue (sink w).
Proof.
  intros Hidle (ws & evss & started & Hstart & _ & Hrecs & Hns & Hrun)
    Hund Hstop Halive.
  destruct (session_start w0 ws filename env evss started Hidle Hstart Hrecs)
    as (Hone & Hord & _).
  destruct (run_accounting _ ls ws w evs Hone Hrun Hns) as (Hone' & _).
  destruct (run_orderly _ ls ws w evs Hone Hord Hrun Hund) as (Hord' & _).
  exact (writer_drains _ w Hone' Hord' Hstop Halive).
Qed.

Lemma stopped_writer_returns_witness :
  let w := fst (outcome_of (one_in_hand ++ [StopRecording]) recording_world) in
  exists n w' evs',
    run (repeat (Work 0 true) n) w = Some (w', evs') /\
    thread_alive w' = false /\
    recorded w' = recorded w ++ in_hand w ++ audio_queue (sink w).
Proof.
  intros w.
  apply (stopped_writer_returns (boot 2 48000) (Some "take.wav"%string) env_ok
           (one_in_hand ++ [StopRecording]) w
           (snd (outcome_of (one_in_hand ++ [StopRecording]) recording_world))).
  - reflexivity.
  - run_session.
  - reflexivity.
  - reflexivity.
  - reflexivity.
Defined.

End JackRecordFacts.

(** ** Entering the active state *)

Module SessionFacts.

(** C8. Going from idle to active starts afresh: a successful
    [start_recording] (which only a recorder that is not recording can
    have) leaves the queue empty, whatever an earlier session left in
    it, and [play] puts the cursor back to frame 0. *)
Theorem start_resets_queue_and_cursor :
  (forall (w w' : JackRecord.World) (filename : option string)
          (env : JackRecord.start_env) (evs : list JackRecord.event),
      JackRecord.start_recording w filename env = Return (w', evs, true) ->
      JackRecord.is_recording (JackRecord.sink w) = false /\
      JackRecord.is_recording (JackRecord.sink w') = true /\
      JackRecord.audio_queue (JackRecord.sink w') = []) /\
  (forall self : JackPlay.JackWavPlayer,
      JackPlay.playing (fst (JackPlay.play self)) = true /\
      JackPlay.position (fst (JackPlay.play self)) = 0).
Proof.
  split.
  - intros w w' filename env evs Hstart.
    destruct (JackRecordFacts.start_recording_success w w' filename env evs Hstart)
      as (Hidle & Hq & Hrec & _).
    split; [ exact Hidle | split; [ exact Hrec | exact Hq ] ].
  - intros self. split; reflexivity.
Qed.

(** A recorder with three blocks left in its queue, and a player whose
    cursor stands at the end of its three frames. *)
Lemma start_resets_queue_and_cursor_witness :
  length (JackRecord.audio_queue (JackRecord.sink JackRecord.leftover_world)) = 3%nat /\
  (exists w' evs,
      JackRecord.start_recording JackRecord.leftover_world None JackRecord.env_ok
        = Return (w', evs, true) /\
      JackRecord.audio_queue (JackRecord.sink w') = []) /\
  JackPlay.position JackPlay.played_out = 3 /\
  JackPlay.position (fst (JackPlay.play JackPlay.played_out)) = 0.
Proof.
  split; [ reflexivity | ]. split.
  - eexists; eexists. split; [ reflexivity | ].
    refine (proj2 (proj2 (proj1 start_resets_queue_and_cursor
                            JackRecord.leftover_world _ None
                            JackRecord.env_ok _ _))).
    reflexivity.
  - split; [ reflexivity | ].
    exact (proj2 (proj2 start_resets_queue_and_cursor JackPlay.played_out)).
Defined.

End SessionFacts.

(** ** The command loops: how a typed line is read *)

Module CommandsFacts.
Import Ascii Text Commands.

Lemma lstrip_blank (pad s : string) :
  blank pad = true -> lstrip (pad ++ s) = lstrip s.
Proof.
  induction pad as [ | c pad IH]; cbn [blank append lstrip]; intros H.
  - reflexivity.
  - apply andb_prop in H. destruct H as [Hc Hpad].
    rewrite Hc. apply IH. exact Hpad.
Qed.

Lemma rstrip_blank (pad : string) : blank pad = true -> rstrip pad = EmptyString.
Proof.
  induction pad as [ | c pad IH]; cbn [blank rstrip]; intros H.
  - reflexivity.
  - apply andb_prop in H. destruct H as [Hc Hpad].
    rewrite (IH Hpad), Hc. reflexivity.
Qed.

Lemma rstrip_app_blank (s pad : string) :
  blank pad = true -> rstrip (s ++ pad) = rstrip s.
Proof.
  intros H. induction s as [ | c s IH]; cbn [append rstrip].
  - apply rstrip_blank. exact H.
  - rewrite IH. reflexivity.
Qed.

Lemma append_empty (s t : string) :
  (s ++ t)%string = EmptyString -> s = EmptyString /\ t = EmptyString.
Proof.
  destruct s; cbn [append]; intros H; [ split; [ reflexivity | exact H ] | discriminate ].
Qed.

Lemma rstrip_blank_app (pad s : string) :
  blank pad = true ->
  rstrip (pad ++ s)
  = match rstrip s with
    | EmptyString => EmptyString
    | r => (pad ++ r)%string
    end.
Proof.
  induction pad as [ | c pad IH]; cbn [blank append rstrip]; intros H.
  - destruct (rstrip s); reflexivity.
  - apply andb_prop in H. destruct H as [Hc Hpad].
    rewrite (IH Hpad). destruct (rstrip s) as [ | c' r].
    + rewrite Hc. reflexivity.
    + destruct (pad ++ String c' r)%string eqn:E; [ | reflexivity ].
      apply append_empty in E. destruct E as [_ E]. discriminate.
Qed.

(** White space around a line does not survive [strip]. *)
Lemma strip_padding (pad1 pad2 s : string) :
  blank pad1 = true -> blank pad2 = true ->
  strip (pad1 ++ s ++ pad2) = strip s.
Proof.
  intros H1 H2. unfold strip.
  rewrite (rstrip_blank_app pad1 (s ++ pad2) H1), (rstrip_app_blank s pad2 H2).
  destruct (rstrip s) as [ | c r]; [ reflexivity | ].
  apply lstrip_blank. exact H1.
Qed.

Lemma strip_blank (s : string) : blank s = true -> strip s = EmptyString.
Proof. intros H. unfold strip. rewrite (rstrip_blank s H). reflexivity. Qed.

(** What [lstrip] leaves does not start with white space. *)
Lemma lstrip_head (s : string) (c : ascii) (r : string) :
  lstrip s = String c r -> is_space c = false.
Proof.
  induction s as [ | c' s IH]; cbn [lstrip]; intros H; [ discriminate | ].
  destruct (is_space c') eqn:E; [ exact (IH H) | ].
  injection H as <- _. exact E.
Qed.

Lemma lower_char_space (c : ascii) : is_space (lower_char c) = is_space c.
Proof.
  destruct c as [[] [] [] [] [] [] [] []]; vm_compute; reflexivity.
Qed.

Lemma lower_empty (s : string) : lower s = EmptyString -> s = EmptyString.
Proof. destruct s; cbn [lower]; intros H; [ reflexivity | discriminate ]. Qed.

Lemma lower_lstrip (s : string) : lower (lstrip s) = lstrip (lower s).
Proof.
  induction s as [ | c s IH]; cbn [lstrip lower]; [ reflexivity | ].
  rewrite lower_char_space. destruct (is_space c); [ exact IH | reflexivity ].
Qed.

Lemma lower_rstrip (s : string) : lower (rstrip s) = rstrip (lower s).
Proof.
  induction s as [ | c s IH]; cbn [rstrip lower]; [ reflexivity | ].
  rewrite <- IH, lower_char_space.
  destruct (rstrip s) as [ | c' r]; cbn [lower].
  - destruct (is_space c); reflexivity.
  - reflexivity.
Qed.

(** [strip] and [lower] can be applied in either order. *)
Lemma lower_strip (s : string) : lower (strip s) = strip (lower s).
Proof. unfold strip. now rewrite lower_lstrip, lower_rstrip. Qed.

(** The command word of a line: the same for lines that differ in
    case and in the white space around them. *)
Lemma command_word (pad1 pad2 line line' : string) :
  blank pad1 = true -> blank pad2 = true ->
  lower line = lower line' ->
  lower (strip (pad1 ++ line ++ pad2)) = lower (strip line').
Proof.
  intros H1 H2 H. rewrite (strip_padding pad1 pad2 line H1 H2).
  now rewrite !lower_strip, H.
Qed.

(** A stripped line, in lower case or not, is never a single blank. *)
Lemma stripped_not_space (line : string) : lower (strip line) <> " "%string.
Proof.
  rewrite lower_strip. unfold strip. intros H.
  apply lstrip_head in H. vm_compute in H. discriminate.
Qed.

(** X6. At the player's prompt, pause/resume is what the word [pause]
    triggers (in any case, with any white space around it) and nothing
    else does: the test [cmd == ' '] comes after [strip()], so a line
    holding a blank, like every line of white space, calls nothing. *)
Theorem space_never_pauses :
  (forall line,
      player_dispatch line = PlayerPauseResume <->
      lower (strip line) = "pause"%string) /\
  (forall line self,
      blank line = true ->
      player_dispatch line = PlayerNothing /\
      player_call (player_dispatch line) self = None).
Proof.
  split.
  - intros line. unfold player_dispatch.
    pose proof (stripped_not_space line) as Hsp.
    set (cmd := lower (strip line)) in *.
    destruct (String.eqb_spec cmd "p") as [E | _];
      [ split; intros H; [ discriminate | rewrite E in H; discriminate ] | ].
    destruct (String.eqb_spec cmd "s") as [E | _];
      [ split; intros H; [ discriminate | rewrite E in H; discriminate ] | ].
    destruct (String.eqb_spec cmd " ") as [E | _]; [ contradiction | ].
    cbn [orb].
    destruct (String.eqb_spec cmd "pause") as [E | E]; [ tauto | ].
    split; [ | intros H; contradiction ].
    destruct (String.eqb_spec cmd "q"); cbn [orb]; [ discriminate | ].
    destruct (String.eqb_spec cmd "quit"); [ discriminate | ].
    destruct (String.eqb_spec cmd "i"); cbn [orb]; [ discriminate | ].
    destruct (String.eqb_spec cmd "info"); discriminate.
  - intros line self H.
    assert (E : player_dispatch line = PlayerNothing).
    { unfold player_dispatch. rewrite (strip_blank line H). reflexivity. }
    rewrite E. split; reflexivity.
Qed.

(** X7. Both command loops read a line without regard to case and to
    the white space around it. *)
Theorem commands_ignore_case_and_padding (pad1 pad2 line line' : string) :
  blank pad1 = true -> blank pad2 = true ->
  lower line = lower line' ->
  player_dispatch (pad1 ++ line ++ pad2) = player_dispatch line' /\
  recorder_dispatch (pad1 ++ line ++ pad2) = recorder_dispatch line'.
Proof.
  intros H1 H2 H. unfold player_dispatch, recorder_dispatch.
  rewrite (command_word pad1 pad2 line line' H1 H2 H). split; reflexivity.
Qed.

(** [QUIT] between a blank and a tab is [quit]. *)
Lemma commands_ignore_case_and_padding_witness :
  player_dispatch (" " ++ "QUIT" ++ String tab EmptyString) = PlayerQuit /\
  recorder_dispatch (" " ++ "QUIT" ++ String tab EmptyString) = RecorderQuit.
Proof.
  destruct (commands_ignore_case_and_padding
              " " (String tab EmptyString) "QUIT" "quit"
              eq_refl eq_refl eq_refl) as [Hp Hr].
  split; [ rewrite Hp | rewrite Hr ]; reflexivity.
Defined.

(** X8. At the recorder's prompt a line of white space (the Enter key)
    is the toggle.  A toggle that returns stops a recorder that
    records; one that does not record is recording after it exactly
    when the output file could be opened and the writer thread
    started.  The toggle is never answered with [Already recording!]. *)
Theorem enter_toggles_recording (line : string) (output : option string)
    (env : JackRecord.start_env) (w w' : JackRecord.World)
    (evs : list JackRecord.event) :
  blank line = true ->
  JackRecord.step (recorder_toggle output env w) w = Some (w', evs) ->
  recorder_dispatch line = RecorderToggle /\
  JackRecord.is_recording (JackRecord.sink w')
  = (if JackRecord.is_recording (JackRecord.sink w) then false
     else JackRecord.open_ok env && JackRecord.thread_ok env) /\
  ~ In (JackRecord.Printed "Already recording!") evs.
Proof.
  intros Hb Hstep. split.
  { unfold recorder_dispatch. rewrite (strip_blank line Hb). reflexivity. }
  unfold recorder_toggle in Hstep.
  destruct (JackRecord.is_recording (JackRecord.sink w)) eqn:Hrec;
    cbn [JackRecord.step] in Hstep;
    destruct (JackRecord.at_command w); try discriminate.
  - unfold JackRecord.stop_begin in Hstep. rewrite Hrec in Hstep.
    cbn [negb] in Hstep. injection Hstep as <- <-. split; [ reflexivity | ].
    intros [H | []]. discriminate.
  - unfold JackRecord.start_recording in Hstep. rewrite Hrec in Hstep.
    destruct (JackRecord.makedirs_ok env); cbn [negb] in Hstep; [ | discriminate ].
    destruct (JackRecord.open_ok env); cbn [negb andb] in Hstep |- *.
    + destruct (JackRecord.thread_ok env); cbn [negb] in Hstep.
      * destruct (JackRecord.announce_ok env); injection Hstep as <- <-;
          (split; [ reflexivity | ]); intros [H | []]; injection H as H;
          discriminate.
      * injection Hstep as <- <-. split; [ exact Hrec | ].
        intros [H | []]. injection H as H. discriminate.
    + injection Hstep as <- <-. split; [ exact Hrec | ].
      intros [H | []]. injection H as H. discriminate.
Qed.

(** Enter at a recorder that has just been created starts it; with no
    thread to be had, it does not. *)
Lemma enter_toggles_recording_witness :
  exists w' evs w'' evs',
    JackRecord.step (recorder_toggle None JackRecord.env_ok (JackRecord.boot 2 48000))
                    (JackRecord.boot 2 48000) = Some (w', evs) /\
    JackRecord.step (recorder_toggle None JackRecord.env_no_thread
                       (JackRecord.boot 2 48000))
                    (JackRecord.boot 2 48000) = Some (w'', evs') /\
    recorder_dispatch EmptyString = RecorderToggle /\
    JackRecord.is_recording (JackRecord.sink w') = true /\
    JackRecord.is_recording (JackRecord.sink w'') = false.
Proof.
  eexists; eexists; eexists; eexists.
  split; [ reflexivity | ]. split; [ reflexivity | ].
  destruct (enter_toggles_recording EmptyString None JackRecord.env_ok
              (JackRecord.boot 2 48000) _ _ eq_refl eq_refl)
    as (Hd & Hr & _).
  destruct (enter_toggles_recording EmptyString None JackRecord.env_no_thread
              (JackRecord.boot 2 48000) _ _ eq_refl eq_refl)
    as (_ & Hr' & _).
  split; [ exact Hd | split; [ exact Hr | exact Hr' ] ].
Defined.

End CommandsFacts.

(** ** Ports: names and automatic connections *)

Module PortsFacts.
Import Text Ports.

(** Different numbers are written differently. *)
Lemma str_inj (n m : nat) : str n = str m -> n = m.
Proof.
  unfold str. intros H.
  apply (f_equal DecimalString.NilEmpty.uint_of_string) in H.
  rewrite !DecimalString.NilEmpty.usu in H. injection H as H.
  apply (f_equal Nat.of_uint) in H.
  now rewrite !DecimalNat.Unsigned.of_to in H.
Qed.

Lemma append_inj (p s t : string) : (p ++ s)%string = (p ++ t)%string -> s = t.
Proof.
  induction p as [ | c p IH]; cbn [append]; intros H; [ exact H | ].
  injection H as H. exact (IH H).
Qed.

Lemma NoDup_map_injective {A B : Type} (f : A -> B) (l : list A) :
  (forall x y, f x = f y -> x = y) -> NoDup l -> NoDup (map f l).
Proof.
  intros Hf Hl. induction Hl as [ | a l Hin Hl IH]; cbn [map]; constructor.
  - intros H. apply in_map_iff in H. destruct H as (x & Hx & Hxl).
    apply Hf in Hx. subst x. contradiction.
  - exact IH.
Qed.

Lemma numbered_names_distinct (prefix : string) (n : nat) :
  NoDup (map (fun i => (prefix ++ str (i + 1))%string) (seq 0 n)).
Proof.
  apply NoDup_map_injective; [ | apply seq_NoDup ].
  intros i j H. apply append_inj, str_inj in H. lia.
Qed.

(** X9. Neither [__init__] registers a port name twice, and each
    registers one port per channel: [input] or [input_1], [input_2],
    ... for the recorder, [out_1], [out_2], ... for the player. *)
Theorem port_names_are_distinct (chans rate : Z) (data : JackPlay.wav_data) :
  NoDup (recorder_port_names chans) /\
  length (recorder_port_names chans)
  = JackRecord.input_ports (JackRecord.init chans rate) /\
  NoDup (player_port_names (JackPlay.channels (JackPlay.init data rate))) /\
  length (player_port_names (JackPlay.channels (JackPlay.init data rate)))
  = JackPlay.output_ports (JackPlay.init data rate).
Proof.
  split; [ | split; [ | split ] ].
  - unfold recorder_port_names. destruct (1 <? chans) eqn:E.
    + apply numbered_names_distinct.
    + apply Z.ltb_ge in E.
      destruct (Z.to_nat chans) as [ | [ | k]] eqn:Ek; [ | | lia ]; cbn [seq map].
      * constructor.
      * constructor; [ intros [] | constructor ].
  - unfold recorder_port_names. rewrite length_map, length_seq. reflexivity.
  - apply numbered_names_distinct.
  - unfold player_port_names. rewrite length_map, length_seq.
    destruct data; reflexivity.
Qed.

Lemma skipn_nth {A : Type} (l : list A) (i : nat) (d : A) :
  (i < length l)%nat -> skipn i l = nth i l d :: skipn (S i) l.
Proof.
  revert i. induction l as [ | a l IH]; intros i H; cbn [length] in H; [ lia | ].
  destruct i as [ | i]; [ reflexivity | ].
  cbn [skipn nth]. apply IH. lia.
Qed.

(** The loop connects port [k] with port [k], in order, and stops at
    the first connection the server refuses. *)
Lemma connect_by_index_spec (link : string -> string -> option string)
    (others : list string) (own : list string) (i : nat) :
  connected_in_order link (combine own (skipn i others))
                     (fst (connect_by_index link others i own))
                     (snd (connect_by_index link others i own)).
Proof.
  revert i. induction own as [ | port rest IH]; intros i; cbn [connect_by_index].
  - exists []. cbn. repeat split. constructor.
  - destruct (i <? length others)%nat eqn:E.
    + apply Nat.ltb_lt in E.
      rewrite (skipn_nth others i EmptyString E). cbn [combine].
      destruct (link port (nth i others EmptyString)) as [message | ] eqn:El.
      * exists ((port, nth i others EmptyString) :: combine rest (skipn (S i) others)).
        cbn [fst snd app]. split; [ reflexivity | split; [ constructor | ] ].
        eexists; eexists. split; [ reflexivity | exact El ].
      * specialize (IH (S i)).
        destruct (connect_by_index link others (S i) rest) as [made failure].
        destruct IH as (tail & Hc & Hall & Hf). cbn [fst snd] in *.
        exists tail. rewrite Hc. split; [ reflexivity | split; [ | exact Hf ] ].
        constructor; [ exact El | exact Hall ].
    + apply Nat.ltb_ge in E.
      specialize (IH (S i)).
      rewrite (skipn_all2 others) by exact E.
      rewrite (skipn_all2 others) in IH by lia.
      destruct rest; exact IH || (cbn [combine] in *; exact IH).
Qed.

Lemma combine_swap {A B : Type} (l : list A) (l' : list B) :
  combine l' l = map (fun p => (snd p, fst p)) (combine l l').
Proof.
  revert l'. induction l as [ | a l IH]; intros [ | b l']; cbn [combine map];
    try reflexivity.
  cbn [fst snd]. f_equal. apply IH.
Qed.

(** X10. Automatic connection pairs the ports by their index, in
    order: port [k] of the client with port [k] the server lists, for
    as many as both have.  It stops at the first connection the server
    refuses, which it reports in two lines after those of the
    connections made; the later ports are left unconnected. *)
Theorem auto_connect_pairs_by_index (jack : server) (theirs own : list string) :
  get_ports jack = inr theirs ->
  (exists failure,
      connected_in_order (connect jack) (combine theirs own)
                         (fst (auto_connect_ports jack own)) failure /\
      snd (auto_connect_ports jack own)
      = map (fun p => ("Connected " ++ fst p ++ " -> " ++ snd p)%string)
            (fst (auto_connect_ports jack own))
        ++ match failure with
           | None => []
           | Some message =>
               [("Auto-connect failed: " ++ message)%string;
                "You may need to connect ports manually"%string]
           end) /\
  (exists failure,
      connected_in_order (connect jack) (combine own theirs)
                         (fst (auto_connect_outputs jack own)) failure /\
      snd (auto_connect_outputs jack own)
      = map (fun p => ("Connected " ++ fst p ++ " to " ++ snd p)%string)
            (fst (auto_connect_outputs jack own))
        ++ match failure with
           | None => []
           | Some message =>
               [("Auto-connection failed: " ++ message)%string;
                "You'll need to connect ports manually using a JACK connection manager"%string]
           end).
Proof.
  intros Hports. split.
  - unfold auto_connect_ports. rewrite Hports.
    pose proof (connect_by_index_spec (fun a b => connect jack b a) theirs own 0) as H.
    destruct (connect_by_index (fun a b => connect jack b a) theirs 0 own)
      as [made failure].
    cbn [fst snd skipn] in *. exists failure. split.
    + destruct H as (tail & Hc & Hall & Hf).
      exists (map (fun p => (snd p, fst p)) tail).
      rewrite combine_swap, Hc, map_app. split; [ reflexivity | split ].
      * apply Forall_map. exact Hall.
      * destruct failure as [message | ]; [ | now rewrite Hf ].
        destruct Hf as (p & rest' & -> & Hl).
        exists (snd p, fst p), (map (fun p => (snd p, fst p)) rest').
        split; [ reflexivity | exact Hl ].
    + rewrite map_map. reflexivity.
  - unfold auto_connect_outputs. rewrite Hports.
    pose proof (connect_by_index_spec (connect jack) theirs own 0) as H.
    destruct (connect_by_index (connect jack) theirs 0 own) as [made failure].
    cbn [fst snd skipn] in *. exists failure. split; [ exact H | reflexivity ].
Qed.

(** Two capture ports and two input ports, the second of which the
    server refuses: the first pair is connected, the second reported. *)
Lemma auto_connect_pairs_by_index_witness :
  fst (auto_connect_ports picky_server (recorder_port_names 2))
  = [("system:capture_1", "input_1")]%string /\
  exists failure,
    snd (auto_connect_ports picky_server (recorder_port_names 2))
    = ["Connected system:capture_1 -> input_1"%string]
      ++ match failure with
         | None => []
         | Some message =>
             [("Auto-connect failed: " ++ message)%string;
              "You may need to connect ports manually"%string]
         end.
Proof.
  split; [ reflexivity | ].
  destruct (proj1 (auto_connect_pairs_by_index picky_server
                     ["system:capture_1"; "system:capture_2"]%string
                     (recorder_port_names 2) eq_refl))
    as (failure & _ & Hlines).
  exists failure. exact Hlines.
Defined.

End PortsFacts.

(** ** animate: the points read off the text file *)

Module AnimateFacts.
Import Ascii Text Animate.

(** A line is cut into one piece more than it has separators. *)
Lemma split_on_length (sep : ascii) (s : string) :
  length (split_on sep s) = S (occurrences sep s).
Proof.
  induction s as [ | c s IH]; cbn [split_on occurrences]; [ reflexivity | ].
  destruct (Ascii.eqb c sep); cbn [length].
  - now rewrite IH.
  - destruct (split_on sep s); cbn [length] in *; [ discriminate | exact IH ].
Qed.

Lemma split_on_single (sep : ascii) (s y : string) :
  split_on sep s = [y] -> s = y.
Proof.
  revert y. induction s as [ | c s IH]; intros y; cbn [split_on]; intros H.
  - now injection H.
  - pose proof (split_on_length sep s) as Hl.
    destruct (Ascii.eqb c sep).
    + injection H as _ H. rewrite H in Hl. discriminate.
    + destruct (split_on sep s) as [ | piece pieces]; [ discriminate | ].
      injection H as <- ->. now rewrite (IH piece eq_refl).
Qed.

(** Two pieces put together again with the separator give the line. *)
Lemma split_on_pair (sep : ascii) (s x y : string) :
  split_on sep s = [x; y] -> s = (x ++ String sep y)%string.
Proof.
  revert x. induction s as [ | c s IH]; intros x; cbn [split_on]; intros H.
  - discriminate.
  - destruct (Ascii.eqb c sep) eqn:E.
    + apply Ascii.eqb_eq in E. subst c.
      injection H as <- H. apply split_on_single in H. now subst.
    + destruct (split_on sep s) as [ | piece pieces]; [ discriminate | ].
      injection H as <- ->. cbn [append]. now rewrite (IH piece eq_refl).
Qed.

Lemma mapM_length {A B : Type} (f : A -> result B) (l : list A) (bs : list B) :
  mapM f l = Return bs -> length bs = length l.
Proof.
  revert bs. induction l as [ | a l IH]; intros bs; cbn [mapM]; intros H.
  - injection H as <-. reflexivity.
  - destruct (f a) as [b | e]; cbn [bind] in H; [ | discriminate ].
    destruct (mapM f l) as [bs' | e]; cbn [bind] in H; [ | discriminate ].
    injection H as <-. cbn [length]. now rewrite (IH bs' eq_refl).
Qed.

Lemma read_lines_points (float : Type) (py_float : string -> result float)
    (lines : list string) (xs ys xs' ys' : list float) :
  read_lines float py_float lines xs ys = Return (xs', ys') ->
  exists points fxs fys,
    counted lines = map joined points /\
    mapM py_float (map fst points) = Return fxs /\
    mapM py_float (map snd points) = Return fys /\
    xs' = xs ++ fxs /\ ys' = ys ++ fys.
Proof.
  revert xs ys. induction lines as [ | line rest IH]; intros xs ys;
    cbn [read_lines]; intros H.
  - injection H as <- <-. exists [], [], []. cbn [map mapM counted filter].
    now rewrite !app_nil_r.
  - unfold counted. cbn [filter]. fold (counted rest).
    destruct (1 <? String.length line)%nat.
    + destruct (split_on "," line) as [ | x [ | y [ | z pieces]]] eqn:Es;
        cbn [unpack2 bind] in H; try discriminate.
      destruct (py_float x) as [fx | e] eqn:Ex; cbn [bind] in H; [ | discriminate ].
      destruct (py_float y) as [fy | e] eqn:Ey; cbn [bind] in H; [ | discriminate ].
      destruct (IH _ _ H) as (points & fxs & fys & Hc & Hx & Hy & Hxs & Hys).
      exists ((x, y) :: points), (fx :: fxs), (fy :: fys).
      cbn [map fst snd mapM]. rewrite Hc, Ex, Ey, Hx, Hy. cbn [bind].
      change (joined (x, y)) with (x ++ String "," y)%string.
      rewrite <- (split_on_pair "," line x y Es).
      subst xs' ys'. rewrite <- !app_assoc.
      split; [ reflexivity | split; [ reflexivity | split; [ reflexivity | ] ] ].
      split; reflexivity.
    + exact (IH _ _ H).
Qed.

(** X11. When [animate] gets to plot, every line longer than one
    character was a line [x,y] with exactly one comma, [xs] holds the
    numbers read off the first fields and [ys] those off the second,
    in the order of the lines: the two lists have the same length, the
    number of such lines.  Shorter lines (empty ones, the one after a
    final newline) are passed over. *)
Theorem animate_reads_points (float : Type) (py_float : string -> result float)
    (graph_data : string) (xs ys : list float) :
  animate float py_float graph_data = Return (xs, ys) ->
  exists points,
    counted (split_on newline graph_data) = map joined points /\
    mapM py_float (map fst points) = Return xs /\
    mapM py_float (map snd points) = Return ys /\
    length xs = length points /\ length ys = length points.
Proof.
  unfold animate. intros H.
  destruct (read_lines_points float py_float _ _ _ _ _ H)
    as (points & fxs & fys & Hc & Hx & Hy & -> & ->).
  exists points. cbn [app].
  split; [ exact Hc | split; [ exact Hx | split; [ exact Hy | ] ] ].
  split.
  - rewrite (mapM_length _ _ _ Hx). apply length_map.
  - rewrite (mapM_length _ _ _ Hy). apply length_map.
Qed.

(** Two points, an empty line between them and a line feed at the end. *)
Lemma animate_reads_points_witness :
  animate nat nat_float two_points = Return ([1; 3]%nat, [2; 4]%nat) /\
  exists points,
    counted (split_on newline two_points) = map joined points /\
    length points = 2%nat.
Proof.
  split; [ reflexivity | ].
  destruct (animate_reads_points nat nat_float two_points
              [1; 3]%nat [2; 4]%nat eq_refl)
    as (points & Hc & _ & _ & Hl & _).
  exists points. split; [ exact Hc | ]. symmetry. exact Hl.
Defined.

Lemma read_lines_raises (float : Type) (py_float : string -> result float)
    (lines : list string) (line : string) (xs ys : list float) :
  In line lines ->
  (1 < String.length line)%nat ->
  occurrences "," line <> 1%nat ->
  raises (read_lines float py_float lines xs ys).
Proof.
  intros Hin Hlong Hcommas. revert xs ys.
  induction lines as [ | l rest IH]; intros xs ys; [ destruct Hin | ].
  cbn [read_lines]. destruct Hin as [-> | Hin].
  - apply Nat.ltb_lt in Hlong. rewrite Hlong.
    pose proof (split_on_length "," line) as Hl.
    destruct (split_on "," line) as [ | x [ | y [ | z pieces]]];
      cbn [unpack2 bind]; try (exists ValueError; reflexivity).
    cbn [length] in Hl. injection Hl as Hl. congruence.
  - destruct (1 <? String.length l)%nat; [ | exact (IH Hin _ _) ].
    destruct (unpack2 (split_on "," l)) as [[x y] | e]; cbn [bind];
      [ | exists e; reflexivity ].
    destruct (py_float x) as [fx | e]; cbn [bind]; [ | exists e; reflexivity ].
    destruct (py_float y) as [fy | e]; cbn [bind]; [ | exists e; reflexivity ].
    exact (IH Hin _ _).
Qed.

(** X12. A line of two characters or more that does not hold exactly
    one comma makes [animate] raise, wherever it stands in the file:
    nothing is plotted. *)
Theorem animate_rejects_malformed_line (float : Type)
    (py_float : string -> result float) (graph_data line : string) :
  In line (split_on newline graph_data) ->
  (1 < String.length line)%nat ->
  occurrences "," line <> 1%nat ->
  raises (animate float py_float graph_data).
Proof.
  intros Hin Hlong Hcommas.
  exact (read_lines_raises float py_float _ line [] [] Hin Hlong Hcommas).
Qed.

(** A first line that is fine, and a second with no comma. *)
Lemma animate_rejects_malformed_line_witness :
  raises (animate nat nat_float no_comma).
Proof.
  apply (animate_rejects_malformed_line nat nat_float no_comma "34"%string).
  - right. left. reflexivity.
  - cbn. lia.
  - cbn. discriminate.
Defined.

End AnimateFacts.

(** ** plotter_example.py: sums of sine waves *)

Module SuperpositionFacts.
Import PlotterExample Superposition.

Section WithNumpy.

Variable float : Type.
Variables fadd fmul fdiv : float -> float -> float.
Variable of_Z : Z -> float.
Variable np_sin : float -> float.
Variable np_pi : float.
Variable py_int : float -> result Z.

Let comp := component float fadd fmul of_Z np_sin np_pi.

Lemma generate_default_phase (self : SineWaveData float)
    (freq amp duration : float) (n : Z) :
  py_int (fmul (sample_rate self) duration) = Return n ->
  generate float fadd fmul fdiv of_Z np_sin np_pi py_int self freq amp duration (of_Z 0)
  = Return (map (comp freq amp) (times float fdiv of_Z self n)).
Proof.
  intros Hint. unfold generate. rewrite Hint. reflexivity.
Qed.

Lemma iadd_pointwise {A : Type} (g h : A -> float) (t : list A) :
  iadd float fadd (map g t) (map h t)
  = Return (map (fun ti => fadd (g ti) (h ti)) t).
Proof.
  unfold iadd. rewrite !length_map, Nat.eqb_refl. f_equal.
  induction t as [ | a t IH]; cbn [map combine fst snd]; [ reflexivity | ].
  now rewrite IH.
Qed.

Lemma accumulate_pointwise (self : SineWaveData float) (duration : float) (n : Z)
    (pairs : list (float * float)) (g : float -> float) :
  py_int (fmul (sample_rate self) duration) = Return n ->
  accumulate float fadd fmul fdiv of_Z np_sin np_pi py_int self duration pairs
             (map g (times float fdiv of_Z self n))
  = Return (map (fun ti =>
                   fold_left (fun acc p => fadd acc (comp (fst p) (snd p) ti))
                             pairs (g ti))
                (times float fdiv of_Z self n)).
Proof.
  intros Hint. revert g.
  induction pairs as [ | [freq amp] rest IH]; intros g; cbn [accumulate fold_left].
  - reflexivity.
  - rewrite (generate_default_phase self freq amp duration n Hint). cbn [bind].
    rewrite iadd_pointwise. cbn [bind].
    exact (IH (fun ti => fadd (g ti) (comp freq amp ti))).
Qed.

Lemma repeat_as_map {A B : Type} (b : B) (l : list A) :
  repeat b (length l) = map (fun _ => b) l.
Proof. induction l as [ | a l IH]; cbn [length repeat map]; now rewrite ?IH. Qed.

Lemma times_length (self : SineWaveData float) (n : Z) :
  length (times float fdiv of_Z self n) = Z.to_nat n.
Proof. unfold times, np_arange. now rewrite !length_map, length_seq. Qed.

Lemma explicit_amplitudes (self : SineWaveData float)
    (frequencies amplitudes : list float) (duration : float) (n : Z) :
  py_int (fmul (sample_rate self) duration) = Return n ->
  0 <= n ->
  generate_multiple_frequencies float fadd fmul fdiv of_Z np_sin np_pi py_int
    self frequencies (Some amplitudes) duration
  = Return (map (superposed float fadd fmul of_Z np_sin np_pi
                   (combine frequencies amplitudes))
                (times float fdiv of_Z self n)).
Proof.
  intros Hint Hn. unfold generate_multiple_frequencies.
  rewrite Hint. cbn [bind]. unfold np_zeros.
  destruct (n <? 0) eqn:E; [ apply Z.ltb_lt in E; lia | ].
  cbn [bind py_zip].
  rewrite <- (times_length self n), repeat_as_map.
  exact (accumulate_pointwise self duration n _ (fun _ => of_Z 0) Hint).
Qed.

Lemma negative_size (self : SineWaveData float)
    (frequencies : list float) (amplitudes : option (list float))
    (freq amp duration phase : float) (n : Z) :
  py_int (fmul (sample_rate self) duration) = Return n ->
  n < 0 ->
  generate float fadd fmul fdiv of_Z np_sin np_pi py_int self freq amp duration phase
  = Return [] /\
  generate_multiple_frequencies float fadd fmul fdiv of_Z np_sin np_pi py_int
    self frequencies amplitudes duration
  = Raise ValueError.
Proof.
  intros Hint Hn. split.
  - unfold generate. rewrite Hint. cbn [bind]. unfold np_arange.
    replace (Z.to_nat n) with 0%nat by lia. reflexivity.
  - unfold generate_multiple_frequencies. rewrite Hint. cbn [bind].
    unfold np_zeros. apply Z.ltb_lt in Hn. rewrite Hn. reflexivity.
Qed.

End WithNumpy.

(** X13. With the amplitudes passed explicitly and a size
    [n = int(sample_rate * duration)] that is not negative,
    [generate_multiple_frequencies] returns (no shape mismatch, no
    exception) the [n] samples of the sum of the waves, added from
    zero in the order of the lists; frequencies and amplitudes are
    paired off as [zip] does, so whatever one list has more than the
    other is left out. *)
Theorem explicit_amplitudes_superpose
    (float : Type) (fadd fmul fdiv : float -> float -> float) (of_Z : Z -> float)
    (np_sin : float -> float) (np_pi : float) (py_int : float -> result Z)
    (self : SineWaveData float) (frequencies amplitudes : list float)
    (duration : float) (n : Z) :
  py_int (fmul (sample_rate self) duration) = Return n ->
  0 <= n ->
  exists wave,
    generate_multiple_frequencies float fadd fmul fdiv of_Z np_sin np_pi py_int
      self frequencies (Some amplitudes) duration = Return wave /\
    wave = map (superposed float fadd fmul of_Z np_sin np_pi
                  (combine frequencies amplitudes))
               (times float fdiv of_Z self n) /\
    length wave = Z.to_nat n /\
    length (combine frequencies amplitudes)
    = Nat.min (length frequencies) (length amplitudes).
Proof.
  intros Hint Hn. eexists. split; [ | split; [ reflexivity | split ] ].
  - exact (explicit_amplitudes float fadd fmul fdiv of_Z np_sin np_pi py_int
             self frequencies amplitudes duration n Hint Hn).
  - rewrite length_map. apply times_length.
  - apply length_combine.
Qed.

(** Three frequencies and two amplitudes over one second at 8 samples
    per second: a wave of 8 samples, the sum of the first two. *)
Lemma explicit_amplitudes_superpose_witness :
  exists wave,
    q_generate_multiple_frequencies (Build_SineWaveData 8%Q) [1%Q; 2%Q; 3%Q]
      (Some [1%Q; 1%Q]) 1%Q = Return wave /\
    length wave = 8%nat.
Proof.
  destruct (explicit_amplitudes_superpose Q Qplus Qmult Qdiv inject_Z q_sin q_pi q_int
              (Build_SineWaveData 8%Q) [1%Q; 2%Q; 3%Q] [1%Q; 1%Q] 1%Q 8
              eq_refl ltac:(lia))
    as (wave & Hcall & _ & Hlen & _).
  exists wave. split; [ exact Hcall | exact Hlen ].
Defined.

(** X14. When [int(sample_rate * duration)] is negative (a negative
    duration), [generate] returns an empty array, whereas
    [generate_multiple_frequencies] raises [ValueError] at [np.zeros],
    whatever the frequencies and amplitudes, absent ones included. *)
Theorem negative_duration_splits
    (float : Type) (fadd fmul fdiv : float -> float -> float) (of_Z : Z -> float)
    (np_sin : float -> float) (np_pi : float) (py_int : float -> result Z)
    (self : SineWaveData float) (frequencies : list float)
    (amplitudes : option (list float)) (freq amp duration phase : float) (n : Z) :
  py_int (fmul (sample_rate self) duration) = Return n ->
  n < 0 ->
  generate float fadd fmul fdiv of_Z np_sin np_pi py_int self freq amp duration phase
  = Return [] /\
  generate_multiple_frequencies float fadd fmul fdiv of_Z np_sin np_pi py_int
    self frequencies amplitudes duration
  = Raise ValueError.
Proof.
  exact (negative_size float fadd fmul fdiv of_Z np_sin np_pi py_int
           self frequencies amplitudes freq amp duration phase n).
Qed.

Lemma negative_duration_splits_witness :
  generate Q Qplus Qmult Qdiv inject_Z q_sin q_pi q_int
    (Build_SineWaveData 8%Q) 1%Q 1%Q (-1)%Q 0%Q = Return [] /\
  q_generate_multiple_frequencies (Build_SineWaveData 8%Q) [1%Q] (Some [1%Q]) (-1)%Q
  = Raise ValueError.
Proof.
  exact (negative_duration_splits Q Qplus Qmult Qdiv inject_Z q_sin q_pi q_int
           (Build_SineWaveData 8%Q) [1%Q] (Some [1%Q]) 1%Q 1%Q (-1)%Q 0%Q (-8)
           eq_refl eq_refl).
Defined.

End SuperpositionFacts.

(** ** audio_example.py: the stream callback *)

Module AudioCallbackFacts.
Import AudioExample AudioCallback.

Lemma fits64_spec (z : Z) : fits64 z = true <-> - 2 ^ 63 <= z < 2 ^ 63.
Proof.
  unfold fits64. rewrite andb_true_iff, Z.leb_le, Z.ltb_lt. reflexivity.
Qed.

(** The samples of [frame_count] frames from phase [p] on. *)
Lemma add_scalar_arange (p : Z) (n : nat) :
  fits64 p = true ->
  add_scalar (arange n) p
  = Return (map (fun i => wrap64 (Z.of_nat i + p)) (seq 0 n)).
Proof.
  intros H. unfold add_scalar, arange. rewrite H, map_map. reflexivity.
Qed.

Lemma seq_from (n m : nat) : seq n m = map (Nat.add n) (seq 0 m).
Proof.
  induction n as [ | n IH].
  - cbn [Nat.add]. now rewrite map_id.
  - rewrite <- seq_shift, IH, map_map. reflexivity.
Qed.

Lemma samples_app (p : Z) (n m : nat) :
  map (fun i => wrap64 (Z.of_nat i + p)) (seq 0 (n + m))
  = map (fun i => wrap64 (Z.of_nat i + p)) (seq 0 n)
    ++ map (fun i => wrap64 (Z.of_nat i + (p + Z.of_nat n))) (seq 0 m).
Proof.
  rewrite seq_app, map_app. f_equal. cbn [Nat.add].
  rewrite seq_from, map_map. apply map_ext. intros i. f_equal. lia.
Qed.

Section WithNumpy.

Variable float : Type.
Variables fmul fdiv : float -> float -> float.
Variable of_Z : Z -> float.
Variable of_Q : Q -> float.
Variable np_sin : float -> float.
Variable np_pi : float.
Variable to_bytes : float -> list Byte.byte.

Let cb := callback float fmul fdiv of_Z of_Q np_sin np_pi to_bytes.
Let played := played float fmul fdiv of_Z of_Q np_sin np_pi to_bytes.

Lemma callback_spec (self : SineWaveGenerator) (n : nat) :
  fits64 (phase self) = true ->
  cb self n
  = Return (set_phase self (phase self + Z.of_nat n),
            (played self (phase self) n, paContinue)).
Proof.
  intros H. unfold cb, callback. rewrite (add_scalar_arange _ n H). reflexivity.
Qed.

Lemma played_app (self : SineWaveGenerator) (p : Z) (n m : nat) :
  played self p (n + m) = played self p n ++ played self (p + Z.of_nat n) m.
Proof.
  unfold played, AudioCallback.played. now rewrite samples_app, !map_app, concat_app.
Qed.

Lemma stream_spec (frame_counts : list nat) (self : SineWaveGenerator) :
  - 2 ^ 63 <= phase self ->
  phase self + Z.of_nat (list_sum frame_counts) < 2 ^ 63 ->
  stream float fmul fdiv of_Z of_Q np_sin np_pi to_bytes self frame_counts
  = Return (set_phase self (phase self + Z.of_nat (list_sum frame_counts)),
            played self (phase self) (list_sum frame_counts)).
Proof.
  revert self. induction frame_counts as [ | n rest IH]; intros self Hlo Hhi.
  - cbn [stream list_sum fold_right]. unfold played, AudioCallback.played.
    cbn [seq map List.concat].
    rewrite Z.add_0_r. destruct self; reflexivity.
  - cbn [stream]. change (list_sum (n :: rest)) with (n + list_sum rest)%nat in *.
    fold cb. rewrite callback_spec by (apply fits64_spec; lia). cbn [bind].
    rewrite IH; cbn [set_phase phase]; [ | lia | lia ].
    cbn [bind]. rewrite played_app.
    change (played (set_phase self (phase self + Z.of_nat n)))
      with (played self).
    replace (phase self + Z.of_nat n + Z.of_nat (list_sum rest))
      with (phase self + Z.of_nat (n + list_sum rest)) by lia.
    reflexivity.
Qed.

End WithNumpy.

(** X15. The phase counts the frames played, which keeps the tone
    continuous from one buffer to the next: as long as the count stays
    within 64 bits, the calls the stream makes, whatever their frame
    counts, play the same bytes as a single call for all the frames
    would, leave the generator in the same state, and each returns
    [paContinue]. *)
Theorem callback_is_continuous
    (float : Type) (fmul fdiv : float -> float -> float) (of_Z : Z -> float)
    (of_Q : Q -> float) (np_sin : float -> float) (np_pi : float)
    (to_bytes : float -> list Byte.byte)
    (self : SineWaveGenerator) (frame_counts : list nat) :
  - 2 ^ 63 <= phase self ->
  phase self + Z.of_nat (list_sum frame_counts) < 2 ^ 63 ->
  exists self' output,
    stream float fmul fdiv of_Z of_Q np_sin np_pi to_bytes self frame_counts
    = Return (self', output) /\
    callback float fmul fdiv of_Z of_Q np_sin np_pi to_bytes self
             (list_sum frame_counts)
    = Return (self', (output, paContinue)) /\
    phase self' = phase self + Z.of_nat (list_sum frame_counts) /\
    frequency self' = frequency self /\ amplitude self' = amplitude self.
Proof.
  intros Hlo Hhi. eexists; eexists. split; [ | split ].
  - exact (stream_spec float fmul fdiv of_Z of_Q np_sin np_pi to_bytes
             frame_counts self Hlo Hhi).
  - apply callback_spec. apply fits64_spec. lia.
  - cbn [set_phase phase frequency amplitude]. repeat split.
Qed.

(** Two buffers of two and three frames against one of five. *)
Lemma callback_is_continuous_witness :
  exists self' output,
    q_stream (init 1 4 (300 # 1)) [2; 3]%nat = Return (self', output) /\
    q_callback (init 1 4 (300 # 1)) 5 = Return (self', (output, paContinue)) /\
    phase self' = 5.
Proof.
  destruct (callback_is_continuous Q Qmult Qdiv inject_Z (fun q => q)
              PlotterExample.q_sin PlotterExample.q_pi q_bytes
              (init 1 4 (300 # 1)) [2; 3]%nat ltac:(cbn; lia) ltac:(cbn; lia))
    as (self' & output & Hs & Hc & Hp & _).
  exists self', output. split; [ exact Hs | split; [ exact Hc | exact Hp ] ].
Defined.

End AudioCallbackFacts.

(** ** jack_play.py: what a port carries over a run *)

Module PlaybackFacts.
Import JackPlay JackPlayFacts Playback.

Lemma firstn_seq (n start len : nat) :
  firstn n (seq start len) = seq start (Nat.min n len).
Proof.
  revert start len. induction n as [ | n IH]; intros start [ | len];
    cbn [firstn seq Nat.min]; try reflexivity.
  now rewrite IH.
Qed.

Lemma nth_map_seq {A : Type} (f : nat -> A) (n ch : nat) (d : A) :
  (ch < n)%nat -> nth ch (map f (seq 0 n)) d = f ch.
Proof.
  intros H.
  rewrite (nth_indep _ d (f 0%nat)) by (now rewrite length_map, length_seq).
  rewrite map_nth, seq_nth by exact H. reflexivity.
Qed.

Lemma feed_nil (n : nat) : feed [] n = repeat 0%Q n.
Proof. unfold feed. rewrite firstn_nil. cbn [length app]. now rewrite Nat.sub_0_r. Qed.

Lemma feed_length (l : list sample) (n : nat) : length (feed l n) = n.
Proof. unfold feed. rewrite length_app, length_firstn, repeat_length. lia. Qed.

(** Taking [n + m] samples is taking [n] and then [m] more. *)
Lemma feed_app (l : list sample) (n m : nat) :
  feed l (n + m) = feed l n ++ feed (skipn n l) m.
Proof.
  revert n. induction l as [ | a l IH]; intros n.
  - rewrite skipn_nil, !feed_nil. apply repeat_app.
  - destruct n as [ | n]; [ reflexivity | ].
    cbn [Nat.add skipn]. unfold feed in *. cbn [firstn length Nat.sub app].
    f_equal. apply IH.
Qed.

Lemma channel_length (self : JackWavPlayer) (ch : nat) :
  length (channel self ch) = shape0 (audio_data self).
Proof. unfold channel. now rewrite length_map, length_seq. Qed.

(** A mono file is its own single channel. *)
Lemma channel_mono (l : list sample) (rate : Z) :
  channel (init (Mono l) rate) 0 = l.
Proof.
  unfold channel, init, reshape_column. cbn [audio_data shape0 item].
  apply (nth_ext _ _ 0%Q 0%Q).
  - now rewrite length_map, length_seq.
  - intros i Hi. rewrite length_map, length_seq in Hi.
    now rewrite nth_map_seq by exact Hi.
Qed.

(** A cycle puts on a port the next frames of its channel. *)
Lemma port_contents_feed (self : JackWavPlayer) (frames ch : nat) :
  0 <= position self <= len self ->
  port_contents self frames ch = feed (remaining self ch) frames.
Proof.
  intros Hpos. unfold port_contents, feed, remaining, channel, len in *.
  rewrite skipn_map, skipn_seq, firstn_map, firstn_seq, length_map, length_seq.
  cbn [Nat.add].
  replace (Nat.min frames (shape0 (audio_data self) - Z.to_nat (position self)))
    with (Z.to_nat (Z.min (Z.of_nat frames)
                      (Z.of_nat (shape0 (audio_data self)) - position self))) by lia.
  f_equal. f_equal. lia.
Qed.

(** A player is live when a cycle finds it playing, or at the end of
    its source (where playing and not playing sound the same). *)
Lemma cycle_stream (self : JackWavPlayer) (frames : nat)
    (mem : nat -> nat -> sample) (ch : nat) :
  well_formed self ->
  playing self = true \/ len self <= position self ->
  (ch < output_ports self)%nat ->
  exists self' bufs lines,
    process_callback self frames mem = Return (self', bufs, lines) /\
    nth ch bufs [] = feed (remaining self ch) frames /\
    well_formed self' /\
    audio_data self' = audio_data self /\
    output_ports self' = output_ports self /\
    (playing self' = true \/ len self' <= position self') /\
    remaining self' ch = skipn frames (remaining self ch) /\
    position self' = Z.min (len self) (position self + Z.of_nat frames).
Proof.
  intros Hwf Hlive Hch. pose proof Hwf as (Hc & Hp & Hpos).
  destruct (playing self) eqn:Hplay.
  - rewrite (process_callback_playing self frames mem Hwf Hplay).
    set (k := Z.min (Z.of_nat frames) (len self - position self)).
    assert (Hk : 0 <= k /\ position self + k <= len self) by (unfold k; lia).
    assert (Hrem : forall s,
               audio_data s = audio_data self ->
               position s = position self + k ->
               remaining s ch = skipn frames (remaining self ch)).
    { intros s Ha Hs. unfold remaining, channel. rewrite Ha, Hs, skipn_skipn.
      unfold len in *.
      destruct (Z.le_gt_cases (Z.of_nat frames) (len self - position self)) as [Hle | Hgt].
      - f_equal. unfold k, len in *. lia.
      - unfold len in Hgt.
        rewrite !skipn_all2; [ reflexivity | | ];
          rewrite length_map, length_seq; unfold k, len; lia. }
    eexists; eexists; eexists. split; [ reflexivity | ].
    split; [ rewrite nth_map_seq by exact Hch; apply port_contents_feed; exact Hpos | ].
    destruct (len self <=? position self + k) eqn:E.
    + apply Z.leb_le in E.
      split; [ wf_solve | ]. split; [ reflexivity | ]. split; [ reflexivity | ].
      split; [ right; unfold len; cbn [set_playing set_position audio_data position];
               unfold len in E; exact E | ].
      split; [ apply Hrem; reflexivity | ].
      cbn [set_playing set_position position]. unfold k. lia.
    + apply Z.leb_gt in E.
      split; [ wf_solve | ]. split; [ reflexivity | ]. split; [ reflexivity | ].
      split; [ left; exact Hplay | ].
      split; [ apply Hrem; reflexivity | ].
      cbn [set_position position]. unfold k. lia.
  - destruct Hlive as [Hlive | Hend]; [ discriminate | ].
    rewrite (process_callback_idle self frames mem Hplay).
    assert (Hnone : remaining self ch = []).
    { unfold remaining. apply skipn_all2. rewrite channel_length.
      unfold len in Hend. lia. }
    eexists; eexists; eexists. split; [ reflexivity | ].
    split.
    { unfold silence. rewrite Hnone, feed_nil.
      rewrite (nth_indep _ [] (repeat 0%Q frames)) by (rewrite repeat_length; exact Hch).
      apply nth_repeat. }
    split; [ exact Hwf | ]. split; [ reflexivity | ]. split; [ reflexivity | ].
    split; [ right; exact Hend | ].
    split; [ rewrite Hnone; symmetry; apply skipn_nil | lia ].
Qed.

Lemma frames_asked_cons (e : event) (evs : list event) :
  frames_asked (e :: evs) = (frames_of e + frames_asked evs)%nat.
Proof. reflexivity. Qed.

Lemma frames_asked_app (evs1 evs2 : list event) :
  frames_asked (evs1 ++ evs2) = (frames_asked evs1 + frames_asked evs2)%nat.
Proof. unfold frames_asked. now rewrite map_app, list_sum_app. Qed.

Lemma port_stream_app (ch : nat) (os1 os2 : list output) :
  port_stream ch (os1 ++ os2) = port_stream ch os1 ++ port_stream ch os2.
Proof. unfold port_stream. now rewrite map_app, concat_app. Qed.

(** Over a run of cycles a port carries what is left of its channel,
    then zeros. *)
Lemma cycles_stream (cycles : list event) (self : JackWavPlayer) (ch : nat) :
  well_formed self ->
  playing self = true \/ len self <= position self ->
  (ch < output_ports self)%nat ->
  forallb is_callback cycles = true ->
  exists self' os,
    run cycles self = Return (self', os) /\
    port_stream ch os = feed (remaining self ch) (frames_asked cycles) /\
    well_formed self' /\
    audio_data self' = audio_data self /\
    output_ports self' = output_ports self /\
    (playing self' = true \/ len self' <= position self') /\
    remaining self' ch = skipn (frames_asked cycles) (remaining self ch) /\
    position self'
    = Z.min (len self) (position self + Z.of_nat (frames_asked cycles)).
Proof.
  revert self. induction cycles as [ | e cycles IH]; intros self Hwf Hlive Hch Hcb.
  - exists self, []. cbn [run]. split; [ reflexivity | ].
    pose proof Hwf as (_ & _ & Hpos).
    split; [ unfold feed; cbn; reflexivity | ].
    split; [ exact Hwf | ]. split; [ reflexivity | ]. split; [ reflexivity | ].
    split; [ exact Hlive | ]. split; [ reflexivity | ].
    change (frames_asked []) with 0%nat. lia.
  - cbn [forallb] in Hcb. apply andb_prop in Hcb. destruct Hcb as [He Hcb].
    destruct e as [frames mem | | | | | ]; try discriminate.
    destruct (cycle_stream self frames mem ch Hwf Hlive Hch)
      as (s1 & bufs & lines & Hcall & Hbuf & Hwf1 & Ha1 & Hp1 & Hl1 & Hr1 & Hpos1).
    assert (Hch1 : (ch < output_ports s1)%nat) by (rewrite Hp1; exact Hch).
    destruct (IH s1 Hwf1 Hl1 Hch1 Hcb)
      as (s2 & os & Hrun & Hs & Hwf2 & Ha2 & Hp2 & Hl2 & Hr2 & Hpos2).
    exists s2, ((bufs, lines) :: os).
    cbn [run step]. rewrite Hcall. cbn [bind]. rewrite Hrun. cbn [bind].
    split; [ reflexivity | ].
    rewrite frames_asked_cons. cbn [frames_of].
    split.
    { unfold port_stream in *. cbn [map List.concat fst].
      rewrite Hbuf, Hs, Hr1. symmetry. apply feed_app. }
    split; [ exact Hwf2 | ]. split; [ congruence | ]. split; [ congruence | ].
    split; [ exact Hl2 | ].
    split; [ rewrite Hr2, Hr1, skipn_skipn; f_equal; lia | ].
    rewrite Hpos2, Hpos1. unfold len. rewrite Ha1. lia.
Qed.

Lemma run_append (evs1 evs2 : list event) (self s1 s2 : JackWavPlayer)
    (os1 os2 : list output) :
  run evs1 self = Return (s1, os1) ->
  run evs2 s1 = Return (s2, os2) ->
  run (evs1 ++ evs2) self = Return (s2, os1 ++ os2).
Proof.
  revert self os1. induction evs1 as [ | e evs1 IH]; intros self os1 H1 H2.
  - cbn [run] in H1. injection H1 as <- <-. exact H2.
  - cbn [run app] in *.
    destruct (step e self) as [[s o] | ex]; cbn [bind] in *; [ | discriminate ].
    destruct (run evs1 s) as [[s' os] | ex] eqn:E; cbn [bind] in *; [ | discriminate ].
    injection H1 as <- <-.
    rewrite (IH s os E H2). reflexivity.
Qed.

(** While the player is not playing, a port carries zeros. *)
Lemma quiet_stream (ports ch : nat) (cycles : list event) :
  (ch < ports)%nat ->
  port_stream ch (quiet ports cycles) = repeat 0%Q (frames_asked cycles).
Proof.
  intros Hch. induction cycles as [ | e cycles IH]; [ reflexivity | ].
  unfold quiet in *. cbn [map]. unfold port_stream in *. cbn [map List.concat fst].
  rewrite IH, frames_asked_cons, repeat_app. f_equal.
  unfold silence.
  rewrite (nth_indep _ [] (repeat 0%Q (frames_of e))) by (rewrite repeat_length; exact Hch).
  apply nth_repeat.
Qed.

Lemma port_stream_command (ch : nat) (lines : list string) (os : list output) :
  port_stream ch (([], lines) :: os) = port_stream ch os.
Proof. unfold port_stream. cbn [map List.concat fst]. destruct ch; reflexivity. Qed.

Lemma skipn_exact {A : Type} (l1 l2 : list A) (n : nat) :
  length l1 = n -> skipn n (l1 ++ l2) = l2.
Proof.
  intros <-. rewrite skipn_app, Nat.sub_diag, skipn_all. reflexivity.
Qed.

Lemma channel_of_source (self self' : JackWavPlayer) (ch : nat) :
  audio_data self' = audio_data self -> channel self' ch = channel self ch.
Proof. intros H. unfold channel. now rewrite H. Qed.

(** X16. Playback reproduces the file: after [play()], whatever the
    player has been through before and whatever the sizes of the
    cycles, the samples a port has carried, put end to end, are the
    samples of its channel from the first on, none left out, repeated
    or out of place, followed by zeros once the channel is exhausted.
    A mono file is played as it is. *)
Theorem played_stream_is_the_source (data : wav_data) (rate : Z)
    (history cycles : list event) :
  forallb is_callback cycles = true ->
  exists self o self' os,
    run history (init data rate) = Return (self, o) /\
    run cycles (fst (play self)) = Return (self', os) /\
    (forall ch, (ch < output_ports (init data rate))%nat ->
                port_stream ch os
                = feed (channel (init data rate) ch) (frames_asked cycles)) /\
    (forall l, data = Mono l -> channel (init data rate) 0 = l).
Proof.
  intros Hcb.
  destruct (run_well_formed history (init data rate) (well_formed_init data rate))
    as (self & o & Hrun & Hwf & Ha & Hp).
  assert (Hwf0 : well_formed (fst (play self))).
  { pose proof Hwf as (Hc & Hports & Hpos). cbn [play fst]. wf_solve. }
  destruct (run_well_formed cycles (fst (play self)) Hwf0)
    as (self' & os & Hrun' & _ & _ & _).
  exists self, o, self', os.
  split; [ exact Hrun | ]. split; [ exact Hrun' | ]. split.
  - intros ch Hch.
    destruct (cycles_stream cycles (fst (play self)) ch Hwf0)
      as (s & os' & Hrun'' & Hs & _); [ left; reflexivity | | exact Hcb | ].
    { cbn [play fst set_playing set_position output_ports]. rewrite Hp. exact Hch. }
    rewrite Hrun' in Hrun''. injection Hrun'' as _ <-.
    rewrite Hs. f_equal. unfold remaining.
    cbn [play fst set_playing set_position position Z.to_nat skipn].
    apply channel_of_source. exact Ha.
  - intros l ->. apply channel_mono.
Qed.

(** The three frames of [demo_source] played in two cycles of two
    frames: the left channel, then a zero. *)
Lemma played_stream_is_the_source_witness :
  exists self' os,
    run [Callback 2 stale; Callback 2 stale] (fst (play (init demo_source 44100)))
    = Return (self', os) /\
    port_stream 0 os = [1 # 2; 1 # 4; 1 # 8; 0]%Q.
Proof.
  destruct (played_stream_is_the_source demo_source 44100 []
              [Callback 2 stale; Callback 2 stale] eq_refl)
    as (self & o & self' & os & Hrun & Hrun' & Hs & _).
  cbn [run] in Hrun. injection Hrun as <- _.
  exists self', os. split; [ exact Hrun' | ].
  rewrite (Hs 0%nat) by (cbn; lia). reflexivity.
Defined.

(** X17. Pausing loses nothing: [pause()] or [stop()], any number of
    cycles and [resume()], put anywhere into a run of cycles of a
    playing player, insert as many zeros as the cycles in between asked
    for at that point of what each port carries, and change nothing
    else; the cursor ends where it would have.  ([stop()] does not
    rewind: only [play()] does.) *)
Theorem pausing_inserts_silence (self : JackWavPlayer)
    (cycles1 idle cycles2 : list event) (break : event) (ch : nat) :
  well_formed self ->
  playing self = true ->
  forallb is_callback cycles1 = true ->
  forallb is_callback idle = true ->
  forallb is_callback cycles2 = true ->
  break = Pause \/ break = Stop ->
  (ch < output_ports self)%nat ->
  exists s os s' os',
    run (cycles1 ++ cycles2) self = Return (s, os) /\
    run (cycles1 ++ break :: idle ++ Resume :: cycles2) self = Return (s', os') /\
    port_stream ch os'
    = firstn (frames_asked cycles1) (port_stream ch os)
      ++ repeat 0%Q (frames_asked idle)
      ++ skipn (frames_asked cycles1) (port_stream ch os) /\
    position s' = position s.
Proof.
  intros Hwf Hplay Hc1 Hci Hc2 Hbreak Hch.
  destruct (cycles_stream cycles1 self ch Hwf (or_introl Hplay) Hch Hc1)
    as (s1 & os1 & Hrun1 & Hs1 & Hwf1 & Ha1 & Hp1 & Hl1 & Hr1 & Hpos1).
  assert (Hch1 : (ch < output_ports s1)%nat) by (rewrite Hp1; exact Hch).
  destruct (cycles_stream cycles2 s1 ch Hwf1 Hl1 Hch1 Hc2)
    as (s2 & os2 & Hrun2 & Hs2 & Hwf2 & Ha2 & Hp2 & Hl2 & Hr2 & Hpos2).
  set (sp := set_playing s1 false).
  set (sr := set_playing sp true).
  assert (Hwfr : well_formed sr).
  { pose proof Hwf1 as (Hc & Hports & Hpos). unfold sr, sp. wf_solve. }
  destruct (cycles_stream cycles2 sr ch Hwfr (or_introl eq_refl) Hch1 Hc2)
    as (s3 & os3 & Hrun3 & Hs3 & Hwf3 & Ha3 & Hp3 & Hl3 & Hr3 & Hpos3).
  assert (Hidle : run idle sp = Return (sp, quiet (output_ports s1) idle))
    by (apply (run_not_playing idle sp eq_refl Hci)).
  assert (Hstep : exists lines, step break s1 = Return (sp, ([], lines))).
  { destruct Hbreak as [-> | ->]; eexists; reflexivity. }
  destruct Hstep as (lines & Hstep).
  assert (Htail : run (break :: idle ++ Resume :: cycles2) s1
                  = Return (s3, ([], lines)
                                :: quiet (output_ports s1) idle
                                   ++ ([], ["Resuming playback..."%string]) :: os3)).
  { cbn [run]. rewrite Hstep. cbn [bind].
    assert (Hres : run (Resume :: cycles2) sp
                   = Return (s3, ([], ["Resuming playback..."%string]) :: os3)).
    { cbn [run step resume]. cbn [bind]. fold sr. rewrite Hrun3. reflexivity. }
    rewrite (run_append idle (Resume :: cycles2) sp sp s3 _ _ Hidle Hres).
    reflexivity. }
  exists s2, (os1 ++ os2), s3, (os1 ++ ([], lines)
                                      :: quiet (output_ports s1) idle
                                         ++ ([], ["Resuming playback..."%string]) :: os3).
  split; [ exact (run_append _ _ _ _ _ _ _ Hrun1 Hrun2) | ].
  split; [ exact (run_append _ _ _ _ _ _ _ Hrun1 Htail) | ].
  split.
  - rewrite !port_stream_app, port_stream_command, port_stream_app,
      port_stream_command.
    rewrite (quiet_stream _ ch idle Hch1), Hs1, Hs2, Hs3.
    rewrite firstn_exact by apply feed_length.
    rewrite skipn_exact by apply feed_length.
    reflexivity.
  - rewrite Hpos2, Hpos3. reflexivity.
Qed.

(** The three frames of [demo_source]: two are played, the player is
    paused over a cycle of three frames, and the third follows. *)
Lemma pausing_inserts_silence_witness :
  exists s' os',
    run ([Callback 2 stale] ++ Pause :: [Callback 3 stale] ++ Resume :: [Callback 2 stale])
        (fst (play (init demo_source 44100)))
    = Return (s', os') /\
    port_stream 0 os' = [1 # 2; 1 # 4; 0; 0; 0; 1 # 8; 0]%Q /\
    position s' = 3.
Proof.
  assert (Hwf : well_formed (fst (play (init demo_source 44100)))).
  { unfold well_formed, len. cbn. lia. }
  destruct (pausing_inserts_silence (fst (play (init demo_source 44100)))
              [Callback 2 stale] [Callback 3 stale] [Callback 2 stale] Pause 0
              Hwf eq_refl eq_refl eq_refl eq_refl (or_introl eq_refl)
              ltac:(cbn; lia))
    as (s & os & s' & os' & Hr & Hr' & Hs & Hp).
  exists s', os'. split; [ exact Hr' | ].
  vm_compute in Hr. injection Hr as <- <-.
  split; [ rewrite Hs; reflexivity | rewrite Hp; reflexivity ].
Defined.

(** X18. After every cycle [is_playing()] is the [playing] flag: the
    info line says [Playing] exactly when the flag is set.  (The two
    differ only between a [resume()] at the end of the source and the
    cycle that follows it.) *)
Theorem status_follows_flag_after_cycle (data : wav_data) (rate : Z)
    (evs : list event) (frames : nat) (mem : nat -> nat -> sample) :
  exists self os,
    run (evs ++ [Callback frames mem]) (init data rate) = Return (self, os) /\
    is_playing self = playing self /\
    Commands.status self
    = (if playing self then "Playing" else "Stopped")%string.
Proof.
  destruct (run_well_formed evs (init data rate) (well_formed_init data rate))
    as (s1 & os1 & Hrun & Hwf & _ & _).
  assert (Hcb : exists s2 bufs lines,
             process_callback s1 frames mem = Return (s2, bufs, lines) /\
             is_playing s2 = playing s2).
  { destruct (playing s1) eqn:Hplay.
    - rewrite (process_callback_playing s1 frames mem Hwf Hplay).
      set (k := Z.min (Z.of_nat frames) (len s1 - position s1)).
      eexists; eexists; eexists. split; [ reflexivity | ].
      destruct (len s1 <=? position s1 + k) eqn:E; unfold is_playing.
      + reflexivity.
      + apply Z.leb_gt in E.
        cbn [set_position playing position]. rewrite Hplay.
        change (len (set_position s1 (position s1 + k))) with (len s1).
        apply Z.ltb_lt in E. rewrite E. reflexivity.
    - rewrite (process_callback_idle s1 frames mem Hplay).
      eexists; eexists; eexists. split; [ reflexivity | ].
      unfold is_playing. rewrite Hplay. reflexivity. }
  destruct Hcb as (s2 & bufs & lines & Hcall & Hflag).
  exists s2, (os1 ++ [(bufs, lines)]). split.
  - apply (run_append evs [Callback frames mem] _ s1 s2 os1 _ Hrun).
    cbn [run step]. rewrite Hcall. reflexivity.
  - split; [ exact Hflag | ]. unfold Commands.status. rewrite Hflag. reflexivity.
Qed.

End PlaybackFacts.

(** ** jack_record.py: failed starts, and sessions whose writer has returned *)

Module RecorderFacts.
Import JackRecord JackRecordFacts.

(** X19. In a session that started when every writer thread of an
    earlier session had returned: once its writer thread has returned
    (after a failed write, say), nothing brings it back before the next
    [start_recording]: whatever else happens, no block is taken off
    the queue and none is written, the file stays as it is, and every
    block the callback still pushes stays in the queue. *)
Theorem dead_writer_records_nothing (w0 : World) (filename : option string)
    (env : start_env) (ls : list label) (w : World) (evs : list event)
    (ls2 : list label) (w2 : World) (evs2 : list event) :
  idle w0 = true ->
  session w0 filename env ls w evs ->
  thread_alive w = false ->
  forallb (fun l => negb (is_start l)) ls2 = true ->
  run ls2 w = Some (w2, evs2) ->
  thread_alive w2 = false /\
  pops evs2 = [] /\
  writes evs2 = [] /\
  recorded w2 = recorded w /\
  audio_queue (sink w2) = audio_queue (sink w) ++ pushes evs2.
Proof.
  intros Hidle (w1 & evs1 & started & Hstart & _ & Hrec1 & Hns & Hrun)
    Hdead Hns2 Hrun2.
  destruct (session_start w0 w1 filename env evs1 started Hidle Hstart Hrec1)
    as (Hone & _).
  destruct (run_accounting _ ls w1 w evs Hone Hrun Hns) as (Hone' & _).
  destruct (run_accounting _ ls2 w w2 evs2 Hone' Hrun2 Hns2)
    as (_ & Hqueue & Hfile & _ & Hstuck & Hdead').
  destruct (Hdead' Hdead) as (Halive & Hpops).
  destruct (Hstuck (or_introl Hdead)) as (_ & Hwrites).
  rewrite Hpops in Hqueue. rewrite Hwrites, app_nil_r in Hfile.
  cbn [app] in Hqueue.
  split; [ exact Halive | ]. split; [ exact Hpops | ]. split; [ exact Hwrites | ].
  split; [ exact Hfile | ]. symmetry. exact Hqueue.
Qed.

(** A session whose first write fails: the block of the next callback
    stays in the queue, and the file stays empty. *)
Lemma dead_writer_records_nothing_witness :
  let ls := [CallbackBegin (stereo_in 1); CallbackPut;
             Work 0 true; Work 0 true; Work 0 false] in
  let w := fst (outcome_of ls recording_world) in
  let ls2 := [CallbackBegin (stereo_in 2); CallbackPut] in
  let w2 := fst (outcome_of ls2 w) in
  idle (boot 2 48000) = true /\
  thread_alive w = false /\
  recorded w2 = [] /\
  audio_queue (sink w2) = [blk 2].
Proof.
  intros ls w ls2 w2.
  assert (Hs : session (boot 2 48000) (Some "take.wav"%string) env_ok ls w
                 (snd (outcome_of ls recording_world))).
  { run_session. }
  destruct (dead_writer_records_nothing (boot 2 48000) _ _ _ _ _ ls2 w2
              (snd (outcome_of ls2 w)) eq_refl Hs eq_refl eq_refl eq_refl)
    as (_ & _ & _ & Hfile & Hqueue).
  split; [ reflexivity | ]. split; [ reflexivity | ].
  split; [ rewrite Hfile | rewrite Hqueue ]; reflexivity.
Defined.

(** With a writer of an earlier session still about, the session's
    own writer having returned does not keep blocks in the queue or
    out of the file: the old writer goes on taking and writing them. *)
Example stale_writer_outlives_session_writer :
  let w0 := fst (outcome_of [StartRecording (Some "next.wav"%string) env_ok]
                   stale_world) in
  let ls := [Work 0 true; Work 0 true;
             CallbackBegin (stereo_in 2); CallbackPut;
             Work 1 true; Work 1 true; Work 1 false] in
  let w := fst (outcome_of ls w0) in
  let evs := snd (outcome_of ls w0) in
  let ls2 := [CallbackBegin (stereo_in 3); CallbackPut;
              Work 0 true; Work 0 true] in
  let w2 := fst (outcome_of ls2 w) in
  let evs2 := snd (outcome_of ls2 w) in
  idle stale_world = false /\
  session stale_world (Some "next.wav"%string) env_ok ls w evs /\
  thread_alive w = false /\
  run ls2 w = Some (w2, evs2) /\
  pops evs2 = [blk 3] /\
  writes evs2 = [blk 3] /\
  recorded w2 = [blk 1; blk 3].
Proof.
  intros w0 ls w evs ls2 w2 evs2.
  split; [ vm_compute; reflexivity | ]. split.
  { run_session. }
  split; [ vm_compute; reflexivity | ].
  split; [ vm_compute; reflexivity | ].
  split; [ vm_compute; reflexivity | ].
  split; vm_compute; reflexivity.
Qed.




End RecorderFacts.
